(** * SCALE: the DSL front end of [scale/dsl.py]

    A shallow embedding of the reader of [tokenize_stream], of
    [parse_block], [flatten_block], [flatten_stmt], [strip_ws],
    [partition], [rpartition], [parse_declarations] and [detokenize].

    Python values are modelled as follows.
    - A token is the 5-tuple [(kind, text, start, end, line)] produced by
      the standard scanner; kinds are the [tokenize] module's numbers.
    - [parse_block] mutates and shares Python lists (a statement list is
      both stored in its parent and kept as the active buffer; a nested
      block is reached through the tuple stored in its parent block).  It
      is therefore modelled over an explicit store of lists ([heap]), with
      list references as natural numbers, so that aliasing is the one the
      code has.
    - Generators ([flatten_block], [flatten_stmt], [strip_ws]) are modelled
      as the list of values they yield together with how they stopped. *)

From Stdlib Require Import Arith Lia List String Ascii Bool.
Set Warnings "-abstract-large-number -register-all".
Import ListNotations.
Open Scope string_scope.
Open Scope list_scope.

(* ------------------------------------------------------------------ *)
(** ** Token kinds (Python 2 [token] / [tokenize] numbering) *)

Definition ENDMARKER : nat := 0.
Definition NAME : nat := 1.
Definition NUMBER : nat := 2.
Definition STRING : nat := 3.
Definition NEWLINE : nat := 4.
Definition INDENT : nat := 5.
Definition DEDENT : nat := 6.
Definition OP : nat := 51.
Definition ERRORTOKEN : nat := 52.
Definition COMMENT : nat := 53.
Definition NL : nat := 54.
(** [SUBEXPR = 9999] *)
Definition SUBEXPR : nat := 9999.

(** A source position [(row, col)]. *)
Definition pos : Type := (nat * nat)%type.

(** The 5-tuple [(tok, val, start, end, line)] of the scanner. *)
Record token : Type := Tok {
  kind : nat;
  val : string;
  tstart : pos;
  tend : pos;
  tline : string
}.

(** [WHITESPACE = dict.fromkeys([NL,NEWLINE,ENDMARKER,INDENT,DEDENT,COMMENT])] *)
Definition in_WHITESPACE (k : nat) : bool :=
  existsb (Nat.eqb k) [NL; NEWLINE; ENDMARKER; INDENT; DEDENT; COMMENT].

(** [OPEN_PARENS = dict.fromkeys('{[(')] *)
Definition in_OPEN_PARENS (v : string) : bool :=
  existsb (String.eqb v) ["{"; "["; "("].

(** [CLOSE_PARENS = {'}':'{', ')':'(', ']':'['}] as a lookup. *)
Definition CLOSE_PARENS (v : string) : option string :=
  if String.eqb v "}" then Some "{"
  else if String.eqb v ")" then Some "("
  else if String.eqb v "]" then Some "["
  else None.

(** Exceptions raised by the code. *)
Inductive exc : Type :=
  | TokenError (msg : string) (where_ : pos)
  | AssertionError (msg : string)
  (** any other Python exception (IndexError, AttributeError,
      ValueError, ...) that the code does not raise on purpose *)
  | PyCrash.

(* ------------------------------------------------------------------ *)
(** ** [partition] and [rpartition] *)

Module Partition.

(** The separator: an [int] matches [tok[0]] (the kind), a [str] matches
    [tok[1]] (the text);
    [idx = int(not isinstance(sep,int))]. *)
Inductive sep_t : Type :=
  | SepKind (k : nat)
  | SepText (s : string).

Definition matches (sep : sep_t) (t : token) : bool :=
  match sep with
  | SepKind k => Nat.eqb (kind t) k
  | SepText s => String.eqb (val t) s
  end.

(** [partition(tokens, sep)]: the loop [for tok in after] with
    [before.append(tok)], returning [(before, [tok], after)] at the first
    match.  The returned iterator [after] is modelled by the list of the
    tokens it still yields. *)
Fixpoint partition_loop (sep : sep_t) (before after : list token)
  : list token * list token * list token :=
  match after with
  | [] => (before, [], [])
  | tok :: after' =>
      if matches sep tok then (before, [tok], after')
      else partition_loop sep (before ++ [tok]) after'
  end.

Definition partition (tokens : list token) (sep : sep_t)
  : list token * list token * list token :=
  partition_loop sep [] tokens.

(** [rpartition(tokens,sep)]:
    [b,s,a = partition(list(tokens)[::-1], sep); b.reverse();
     return list(a)[::-1],s,b] *)
Definition rpartition (tokens : list token) (sep : sep_t)
  : list token * list token * list token :=
  let '(b, s, a) := partition (rev tokens) sep in
  (rev a, s, rev b).

End Partition.

(* ------------------------------------------------------------------ *)
(** ** String helpers of the Python runtime used by the code *)

(** [s.expandtabs()] (tab size 8): a tab pads to the next multiple of 8,
    a newline or carriage return resets the column. *)
Fixpoint expandtabs_from (col : nat) (s : string) : string :=
  match s with
  | EmptyString => EmptyString
  | String c s' =>
      if Ascii.eqb c "009"%char then
        let n := 8 - Nat.modulo col 8 in
        append (String.concat "" (repeat " " n)) (expandtabs_from (col + n) s')
      else if Ascii.eqb c "010"%char || Ascii.eqb c "013"%char then
        String c (expandtabs_from 0 s')
      else String c (expandtabs_from (S col) s')
  end.

Definition expandtabs (s : string) : string := expandtabs_from 0 s.

(** Python slicing [s[a:b]] for [0 <= a, b]. *)
Definition slice (s : string) (a b : nat) : string := substring a (b - a) s.

(** [repr] of the bracket strings kept on the bracket stack (["("], ["["],
    ["{"]), which need no escaping. *)
Definition repr_str (s : string) : string := ("'" ++ s ++ "'")%string.

(** [repr] of a non-empty tuple of such strings: [('(',)] or
    [('(', '[')]. *)
Definition repr_tuple (xs : list string) : string :=
  match xs with
  | [] => "()"
  | [x] => ("(" ++ repr_str x ++ ",)")%string
  | _ => ("(" ++ String.concat ", " (map repr_str xs) ++ ")")%string
  end.

(* ------------------------------------------------------------------ *)
(** ** The store of Python lists used by [parse_block] *)

Module Store.

(** An element of one of the lists built by [parse_block]: a scanner
    token, the tuple [(SUBEXPR, subexpr, start, end, line)] whose second
    field is a list, or the tuple [(stmt, block)] of two lists. *)
Inductive value : Type :=
  | VTok (t : token)
  | VSub (r : nat) (st en : pos) (ln : string)
  | VPair (s b : nat).

(** Python lists, addressed by reference. *)
Definition heap : Type := list (list value).

Fixpoint set_cell (h : heap) (r : nat) (c : list value) : heap :=
  match h, r with
  | [], _ => []
  | _ :: h', 0 => c :: h'
  | x :: h', S r' => x :: set_cell h' r' c
  end.

(** [lst.append(v)] *)
Definition append_to (h : heap) (r : nat) (v : value) : option heap :=
  match nth_error h r with
  | Some c => Some (set_cell h r (c ++ [v]))
  | None => None
  end.

(** [[]]: a fresh empty list *)
Definition alloc (h : heap) : nat * heap := (List.length h, h ++ [[]]).

(** Truth value of a list: [if lst:] *)
Definition nonempty (h : heap) (r : nat) : bool :=
  match nth_error h r with
  | Some (_ :: _) => true
  | _ => false
  end.

End Store.
Import Store.

(* ------------------------------------------------------------------ *)
(** ** [parse_block] *)

Module Parse.

(** What the scanner delivers: tokens, or the exception it raises (a
    generator stops at its first exception). *)
Inductive scan_item : Type :=
  | Yield (t : token)
  | Raise (e : exc).

(** The value held by the local [scope]: a list, or, when [scope[-1]] was a
    plain token, that token's text (a Python [str]). *)
Inductive pyval : Type :=
  | PRef (r : nat)
  | PStr (s : string).

(** The locals of [parse_block].  The three stacks [scopes], [parens] and
    [indents] are kept top first: Python's [xs.append(x)] is [x :: xs] and
    [xs.pop()] takes the head.  [scopes] holds list references (saved
    blocks and saved statement buffers alike). *)
Record pstate : Type := PState {
  scopes : list nat;
  parens : list string;
  indents : list nat;
  output : nat;
  scope : pyval;
  stmt : nat;
  heap_of : heap
}.

(** [scopes = []; parens = []; indents = [0]; output = scope = [];
    stmt = []] *)
Definition init : pstate :=
  {| scopes := []; parens := []; indents := [0]; output := 0;
     scope := PRef 0; stmt := 1; heap_of := [[]; []] |}.

Inductive stepres : Type :=
  | SNext (st : pstate)
  | SRet (h : heap) (out : nat)
  | SErr (e : exc).

Definition set_heap (st : pstate) (h : heap) : pstate :=
  {| scopes := scopes st; parens := parens st; indents := indents st;
     output := output st; scope := scope st; stmt := stmt st; heap_of := h |}.

(** [scope.append((stmt,[])); stmt = []] *)
Definition close_stmt (st : pstate) : option pstate :=
  match scope st with
  | PStr _ => None                       (* str has no append *)
  | PRef r =>
      let '(b, h1) := alloc (heap_of st) in
      match append_to h1 r (VPair (stmt st) b) with
      | None => None
      | Some h2 =>
          let '(s', h3) := alloc h2 in
          Some {| scopes := scopes st; parens := parens st;
                  indents := indents st; output := output st;
                  scope := scope st; stmt := s'; heap_of := h3 |}
      end
  end.

(** [len(line[:start[1]].expandtabs())] *)
Definition dedent_width (t : token) : nat :=
  String.length (expandtabs (slice (tline t) 0 (snd (tstart t)))).

(** The [DEDENT] / [ENDMARKER] branch: lines 101-122. *)
Definition exit_scope (st : pstate) (t : token) : stepres :=
  let tok := kind t in
  let checked :=
    if Nat.eqb tok DEDENT then
      if negb (existsb (Nat.eqb (dedent_width t)) (indents st)) then
        inr (TokenError "unindent does not match any outer indentation level"
               (tstart t))
      else
        inl {| scopes := scopes st; parens := parens st;
               indents := tl (indents st); output := output st;
               scope := scope st; stmt := stmt st; heap_of := heap_of st |}
    else
      match parens st with
      | [] => inl st
      | ps => inr (TokenError ("Unclosed parentheses " ++ repr_tuple ps)%string
                              (tstart t))
      end in
  match checked with
  | inr e => SErr e
  | inl st1 =>
      let flushed :=
        if nonempty (heap_of st1) (stmt st1) then close_stmt st1 else Some st1 in
      match flushed with
      | None => SErr PyCrash
      | Some st2 =>
          match scopes st2 with
          | r :: rest =>
              if Nat.eqb tok ENDMARKER then SErr (AssertionError "Missing DEDENT tokens")
              else SNext {| scopes := rest; parens := parens st2;
                            indents := indents st2; output := output st2;
                            scope := PRef r; stmt := stmt st2;
                            heap_of := heap_of st2 |}
          | [] =>
              if Nat.eqb tok DEDENT then SErr (AssertionError "Extra DEDENT tokens")
              else SRet (heap_of st2) (output st2)
          end
      end
  end.

(** [scope[-1][1]] for a non-empty list *)
Definition second_field (v : value) : pyval :=
  match v with
  | VTok t => PStr (val t)
  | VSub r _ _ _ => PRef r
  | VPair _ b => PRef b
  end.

(** The [INDENT] branch: lines 124-129. *)
Definition enter_scope (st : pstate) (t : token) : stepres :=
  match scope st with
  | PStr EmptyString => SErr (TokenError "Unexpected indent" (tstart t))
  | PStr _ => SErr PyCrash                 (* a one-character str has no [1] *)
  | PRef r =>
      match nth_error (heap_of st) r with
      | None => SErr PyCrash
      | Some [] => SErr (TokenError "Unexpected indent" (tstart t))
      | Some c =>
          SNext {| scopes := r :: scopes st; parens := parens st;
                   indents := String.length (expandtabs (val t)) :: indents st;
                   output := output st;
                   scope := second_field (last c (VPair 0 0));
                   stmt := stmt st; heap_of := heap_of st |}
      end
  end.

(** Any other token: lines 131-148. *)
Definition other_token (st : pstate) (t : token) : stepres :=
  let tok := kind t in
  (* an opening bracket starts a nested buffer *)
  let opened :=
    if Nat.eqb tok OP && in_OPEN_PARENS (val t) then
      let '(sub, h1) := alloc (heap_of st) in
      match append_to h1 (stmt st) (VSub sub (tstart t) (tend t) (tline t)) with
      | None => None
      | Some h2 =>
          Some {| scopes := stmt st :: scopes st; parens := val t :: parens st;
                  indents := indents st; output := output st;
                  scope := scope st; stmt := sub; heap_of := h2 |}
      end
    else Some st in
  match opened with
  | None => SErr PyCrash
  | Some st1 =>
      match append_to (heap_of st1) (stmt st1) (VTok t) with
      | None => SErr PyCrash
      | Some h =>
          let st2 := set_heap st1 h in
          if Nat.eqb tok OP then
            match CLOSE_PARENS (val t) with
            | Some opener =>
                match parens st2 with
                | [] => SErr (TokenError ("Unmatched " ++ val t)%string (tstart t))
                | p :: ps =>
                    if negb (String.eqb p opener) then
                      SErr (TokenError ("Unmatched " ++ val t)%string (tstart t))
                    else
                      match scopes st2 with
                      | [] => SErr PyCrash       (* pop from empty list *)
                      | s :: rest =>
                          SNext {| scopes := rest; parens := ps;
                                   indents := indents st2; output := output st2;
                                   scope := scope st2; stmt := s;
                                   heap_of := heap_of st2 |}
                      end
                end
            | None => SNext st2
            end
          else if Nat.eqb tok NEWLINE then
            match close_stmt st2 with
            | None => SErr PyCrash
            | Some st3 => SNext st3
            end
          else SNext st2
      end
  end.

(** One iteration of [for tok, val, start, end, line in tokens]. *)
Definition step (st : pstate) (t : token) : stepres :=
  if Nat.eqb (kind t) DEDENT || Nat.eqb (kind t) ENDMARKER then exit_scope st t
  else if Nat.eqb (kind t) INDENT then enter_scope st t
  else other_token st t.

Inductive presult : Type :=
  | POk (h : heap) (out : nat)
  | PErr (e : exc).

Fixpoint run (st : pstate) (items : list scan_item) : presult :=
  match items with
  | [] => PErr (AssertionError "Token stream didn't have an ENDMARKER")
  | Raise e :: _ => PErr e
  | Yield t :: rest =>
      match step st t with
      | SNext st' => run st' rest
      | SRet h o => POk h o
      | SErr e => PErr e
      end
  end.

Definition parse_block (items : list scan_item) : presult := run init items.

(** The state after the loop has consumed [items] without leaving it. *)
Fixpoint steps (st : pstate) (items : list scan_item) : option pstate :=
  match items with
  | [] => Some st
  | Raise _ :: _ => None
  | Yield t :: rest =>
      match step st t with
      | SNext st' => steps st' rest
      | _ => None
      end
  end.

(** Every list reference held by a value. *)
Definition value_refs (v : value) : list nat :=
  match v with
  | VTok _ => []
  | VSub r _ _ _ => [r]
  | VPair s b => [s; b]
  end.

(** A list whose elements only refer to lists below [n]. *)
Definition cell_ok (n : nat) (c : list value) : Prop :=
  Forall (fun v => Forall (fun r => r < n) (value_refs v)) c.

(** The references held by the locals and by the lists all point into the
    store. *)
Definition refs_ok (st : pstate) : Prop :=
  let n := List.length (heap_of st) in
  Forall (fun r => r < n) (scopes st) /\
  output st < n /\
  (forall r, scope st = PRef r -> r < n) /\
  stmt st < n /\
  Forall (cell_ok n) (heap_of st).

End Parse.

(* ------------------------------------------------------------------ *)
(** ** [flatten_block], [flatten_stmt], [strip_ws] over the store *)

Module Flatten.

(** A value yielded by the generators: a token, a [(stmt, block)] tuple
    met inside a statement, or a one-character [str] (what iterating over
    the text of a token of kind [SUBEXPR] yields). *)
Inductive fitem : Type :=
  | FTok (t : token)
  | FPair (s b : nat)
  | FChar (c : ascii).

(** How a generator stopped: exhausted, by an exception, or because the
    recursion budget of the model ran out. *)
Inductive fstatus : Type := Done | Crash | NoFuel.

(** Run [k] after [r] when [r] finished normally. *)
Definition then_ (r : list fitem * fstatus) (k : unit -> list fitem * fstatus)
  : list fitem * fstatus :=
  match r with
  | (ys, Done) => let '(zs, s) := k tt in (ys ++ zs, s)
  | _ => r
  end.

(** [flatten_stmt(statement)]: for each [tok] of the list, recurse into
    [tok[1]] when [tok[0]==SUBEXPR], else yield [tok]. *)
Fixpoint flatten_stmt (fuel : nat) (h : heap) (r : nat) : list fitem * fstatus :=
  match fuel with
  | 0 => ([], NoFuel)
  | S f =>
      match nth_error h r with
      | None => ([], Crash)
      | Some vs =>
          (fix go (vs : list value) : list fitem * fstatus :=
             match vs with
             | [] => ([], Done)
             | v :: vs' =>
                 then_
                   (match v with
                    | VTok t =>
                        if Nat.eqb (kind t) SUBEXPR
                        then (map FChar (list_ascii_of_string (val t)), Done)
                        else ([FTok t], Done)
                    | VSub r' _ _ _ => flatten_stmt f h r'
                    | VPair a b => ([FPair a b], Done)
                    end)
                   (fun _ => go vs')
             end) vs
      end
  end.

(** [flatten_block(block)]: [for stmt,subblock in block] yields the
    statement's tokens, then those of [subblock] when it is non-empty.
    Unpacking a 5-tuple into two names raises [ValueError]. *)
Fixpoint flatten_block (fuel : nat) (h : heap) (r : nat) : list fitem * fstatus :=
  match fuel with
  | 0 => ([], NoFuel)
  | S f =>
      match nth_error h r with
      | None => ([], Crash)
      | Some vs =>
          (fix go (vs : list value) : list fitem * fstatus :=
             match vs with
             | [] => ([], Done)
             | VPair s b :: vs' =>
                 then_ (flatten_stmt f h s)
                   (fun _ =>
                      then_ (if nonempty h b then flatten_block f h b else ([], Done))
                        (fun _ => go vs'))
             | _ :: _ => ([], Crash)
             end) vs
      end
  end.

(** [strip_ws(tokens)]: [tok[0] not in WHITESPACE]; for a tuple
    [(stmt, block)], [tok[0]] is a list, which is unhashable. *)
Fixpoint strip_ws (xs : list fitem) : list fitem * fstatus :=
  match xs with
  | [] => ([], Done)
  | FTok t :: xs' =>
      if in_WHITESPACE (kind t) then strip_ws xs'
      else let '(ys, s) := strip_ws xs' in (FTok t :: ys, s)
  | FPair _ _ :: _ => ([], Crash)
  | FChar c :: xs' => let '(ys, s) := strip_ws xs' in (FChar c :: ys, s)
  end.

End Flatten.

(* ------------------------------------------------------------------ *)
(** ** Scanner output for the inputs of [test_dsl.py]

    The scanner ([tokenize.generate_tokens] of the Python 2 library the
    tests were written for) is not part of this repository; these are the
    token streams it delivers for the test inputs, written out by hand. *)

Module Scanned.
Import Parse.

Definition nl : string := String "010"%char EmptyString.

(** ["(1+1"]: after the four tokens of line 1 the scanner reaches the end
    of input with an open bracket and raises
    [TokenError("EOF in multi-line statement", (2, 0))]. *)
Definition paren_open_src : list scan_item :=
  [ Yield (Tok OP "(" (1,0) (1,1) "(1+1");
    Yield (Tok NUMBER "1" (1,1) (1,2) "(1+1");
    Yield (Tok OP "+" (1,2) (1,3) "(1+1");
    Yield (Tok NUMBER "1" (1,3) (1,4) "(1+1");
    Raise (TokenError "EOF in multi-line statement" (2,0)) ].

(** ["(1+2]"]: the scanner does not check bracket shapes. *)
Definition paren_mismatch_src : list scan_item :=
  [ Yield (Tok OP "(" (1,0) (1,1) "(1+2]");
    Yield (Tok NUMBER "1" (1,1) (1,2) "(1+2]");
    Yield (Tok OP "+" (1,2) (1,3) "(1+2]");
    Yield (Tok NUMBER "2" (1,3) (1,4) "(1+2]");
    Yield (Tok OP "]" (1,4) (1,5) "(1+2]");
    Yield (Tok ENDMARKER "" (2,0) (2,0) "") ].

Definition L1 : string := ("if foo:" ++ nl)%string.
Definition L2 : string := ("    bar" ++ nl)%string.
Definition L3 : string := ("  baz" ++ nl)%string.

(** ["if foo:\n    bar\n  baz\n"]: line 3 is indented less than line 2, so
    the scanner emits a [DEDENT] at [(3, 2)]. *)
Definition bad_dedent_src : list scan_item :=
  [ Yield (Tok NAME "if" (1,0) (1,2) L1);
    Yield (Tok NAME "foo" (1,3) (1,6) L1);
    Yield (Tok OP ":" (1,6) (1,7) L1);
    Yield (Tok NEWLINE nl (1,7) (1,8) L1);
    Yield (Tok INDENT "    " (2,0) (2,4) L2);
    Yield (Tok NAME "bar" (2,4) (2,7) L2);
    Yield (Tok NEWLINE nl (2,7) (2,8) L2);
    Yield (Tok DEDENT "" (3,2) (3,2) L3);
    Yield (Tok NAME "baz" (3,2) (3,5) L3);
    Yield (Tok NEWLINE nl (3,5) (3,6) L3);
    Yield (Tok ENDMARKER "" (4,0) (4,0) "") ].

Definition M1 : string := ("if x:" ++ nl)%string.
Definition M2 : string := ("  f(y)" ++ nl)%string.

(** ["if x:\n  f(y)\n"]: a statement with an indented block beneath it. *)
Definition nested_toks : list token :=
  [ Tok NAME "if" (1,0) (1,2) M1;
    Tok NAME "x" (1,3) (1,4) M1;
    Tok OP ":" (1,4) (1,5) M1;
    Tok NEWLINE nl (1,5) (1,6) M1;
    Tok INDENT "  " (2,0) (2,2) M2;
    Tok NAME "f" (2,2) (2,3) M2;
    Tok OP "(" (2,3) (2,4) M2;
    Tok NAME "y" (2,4) (2,5) M2;
    Tok OP ")" (2,5) (2,6) M2;
    Tok NEWLINE nl (2,6) (2,7) M2;
    Tok DEDENT "" (3,0) (3,0) "";
    Tok ENDMARKER "" (3,0) (3,0) "" ].

Definition nested_src : list scan_item := map Yield nested_toks.

(** ["x = 'y' = a.b from c:\n  z\n"]: a declaration with two names, a
    context and a block. *)
Definition D1 : string := ("x = 'y' = a.b from c:" ++ nl)%string.
Definition D2 : string := ("  z" ++ nl)%string.

Definition decl_toks : list token :=
  [ Tok NAME "x" (1,0) (1,1) D1;
    Tok OP "=" (1,2) (1,3) D1;
    Tok STRING "'y'" (1,4) (1,7) D1;
    Tok OP "=" (1,8) (1,9) D1;
    Tok NAME "a" (1,10) (1,11) D1;
    Tok OP "." (1,11) (1,12) D1;
    Tok NAME "b" (1,12) (1,13) D1;
    Tok NAME "from" (1,14) (1,18) D1;
    Tok NAME "c" (1,19) (1,20) D1;
    Tok OP ":" (1,20) (1,21) D1;
    Tok NEWLINE nl (1,21) (1,22) D1;
    Tok INDENT "  " (2,0) (2,2) D2;
    Tok NAME "z" (2,2) (2,3) D2;
    Tok NEWLINE nl (2,3) (2,4) D2;
    Tok DEDENT "" (3,0) (3,0) "";
    Tok ENDMARKER "" (3,0) (3,0) "" ].

(** ["x = 1\n# end\n"]: a comment line after the last statement. *)
Definition C1 : string := ("x = 1" ++ nl)%string.
Definition C2 : string := ("# end" ++ nl)%string.

Definition comment_toks : list token :=
  [ Tok NAME "x" (1,0) (1,1) C1;
    Tok OP "=" (1,2) (1,3) C1;
    Tok NUMBER "1" (1,4) (1,5) C1;
    Tok NEWLINE nl (1,5) (1,6) C1;
    Tok COMMENT "# end" (2,0) (2,5) C2;
    Tok NL nl (2,5) (2,6) C2;
    Tok ENDMARKER "" (3,0) (3,0) "" ].

End Scanned.

(* ------------------------------------------------------------------ *)
(** ** [detokenize] *)

Module Detok.

(** What [detokenize] receives: tokens and [(SUBEXPR, [...], ...)] entries
    of a statement, as [flatten_stmt] sees them. *)
Inductive stok : Type :=
  | STok (t : token)
  | SSub (body : list stok) (st en : pos) (ln : string).

(** [flatten_stmt(tokens)] over a Python list: a plain token of kind
    [SUBEXPR] is iterated character by character ([inr]). *)
Fixpoint flatten_stok (x : stok) : list (token + ascii) :=
  match x with
  | STok t =>
      if Nat.eqb (kind t) SUBEXPR
      then map inr (list_ascii_of_string (val t))
      else [inl t]
  | SSub body _ _ _ => flat_map flatten_stok body
  end.

Definition flatten_stmt (xs : list stok) : list (token + ascii) :=
  flat_map flatten_stok xs.

(** [s * n] for a string [s] *)
Fixpoint rep (n : nat) (s : string) : string :=
  match n with
  | 0 => EmptyString
  | S n' => (s ++ rep n' s)%string
  end.

Definition spaces (n : nat) : string := rep n " ".

Definition backslash_nl : string :=
  String "092"%char (String "010"%char EmptyString).

(** The locals [out], [lr], [lc], [last] and [baseindent]; [out] is the
    list of added chunks, in order. *)
Record dstate : Type := DState {
  out : list string;
  lr : nat;
  lc : nat;
  last : string;
  baseindent : option nat
}.

Definition dinit : dstate :=
  {| out := []; lr := 0; lc := 0; last := ""; baseindent := None |}.

(** One iteration of the loop of [detokenize], lines 295-325. *)
Definition dstep (indent : nat) (st : dstate) (t : token) : dstate :=
  let '(Tok tok v (sr, sc) (er, ec) line) := t in
  (* lr = lr or sr *)
  let lr0 := if Nat.eqb (lr st) 0 then sr else lr st in
  (* trailing text of the previous line and blank continuation lines *)
  let '(out1, lr1, lc1) :=
    if Nat.ltb lr0 sr then
      let '(o, l) :=
        if negb (String.eqb (last st) "") then
          (if Nat.ltb (lc st) (String.length (last st))
           then out st ++ [slice (last st) (lc st) (String.length (last st))]
           else out st, S lr0)
        else (out st, lr0) in
      let o' := if Nat.ltb l sr
                then o ++ [(spaces indent ++ rep (sr - l) backslash_nl)%string]
                else o in
      (o', l, 0)
    else (out st, lr0, lc st) in
  if Nat.eqb lc1 0 && Nat.eqb tok INDENT then
    (* continue: an INDENT at the start of a line only moves the line *)
    {| out := out1; lr := lr1; lc := lc1; last := last st;
       baseindent := baseindent st |}
  else
    let '(out2, bi) :=
      if Nat.eqb lc1 0 then
        let curindent := String.length (expandtabs (slice line 0 sc)) in
        let '(o, bi) :=
          match baseindent st with
          | None =>
              if negb (in_WHITESPACE tok) then (out1, Some curindent)
              else (out1, None)
          | Some b =>
              if Nat.leb b curindent then (out1 ++ [spaces (curindent - b)], Some b)
              else (out1, Some b)
          end in
        let o' :=
          if negb (Nat.eqb indent 0) &&
             negb (existsb (Nat.eqb tok) [DEDENT; ENDMARKER; NL; NEWLINE])
          then o ++ [spaces indent] else o in
        (o', bi)
      else if Nat.ltb lc1 sc then (out1 ++ [slice line lc1 sc], baseindent st)
      else (out1, baseindent st) in
    let out3 := if String.eqb v "" then out2 else out2 ++ [v] in
    {| out := out3; lr := er; lc := ec; last := line; baseindent := bi |}.

(** The loop; unpacking a one-character string into the 5 names raises. *)
Fixpoint dloop (indent : nat) (st : dstate) (xs : list (token + ascii))
  : option dstate :=
  match xs with
  | [] => Some st
  | inl t :: xs' => dloop indent (dstep indent st t) xs'
  | inr _ :: _ => None
  end.

(** [detokenize(tokens, indent=0)]: [''.join(out)], or [None] when the
    call raises. *)
Definition detokenize (tokens : list stok) (indent : nat) : option string :=
  match dloop indent dinit (flatten_stmt tokens) with
  | Some st => Some (String.concat "" (out st))
  | None => None
  end.

End Detok.

(** Scanner output for ["if x:\n  if y:\n    a\n  b\n"]: the [DEDENT] of
    line 4 is emitted at [(4, 2)], where [b] starts. *)
Module ScannedDetok.
Import Detok.

Definition nl : string := String "010"%char EmptyString.
Definition K1 : string := ("if x:" ++ nl)%string.
Definition K2 : string := ("  if y:" ++ nl)%string.
Definition K3 : string := ("    a" ++ nl)%string.
Definition K4 : string := ("  b" ++ nl)%string.

Definition head_toks : list stok :=
  [ STok (Tok NAME "if" (1,0) (1,2) K1);
    STok (Tok NAME "x" (1,3) (1,4) K1);
    STok (Tok OP ":" (1,4) (1,5) K1);
    STok (Tok NEWLINE nl (1,5) (1,6) K1);
    STok (Tok INDENT "  " (2,0) (2,2) K2);
    STok (Tok NAME "if" (2,2) (2,4) K2);
    STok (Tok NAME "y" (2,5) (2,6) K2);
    STok (Tok OP ":" (2,6) (2,7) K2);
    STok (Tok NEWLINE nl (2,7) (2,8) K2);
    STok (Tok INDENT "    " (3,0) (3,4) K3);
    STok (Tok NAME "a" (3,4) (3,5) K3);
    STok (Tok NEWLINE nl (3,5) (3,6) K3) ].

Definition line4_dedent : token := Tok DEDENT "" (4,2) (4,2) K4.

Definition tail_toks : list stok :=
  [ STok (Tok NAME "b" (4,2) (4,3) K4);
    STok (Tok NEWLINE nl (4,3) (4,4) K4);
    STok (Tok DEDENT "" (5,0) (5,0) "");
    STok (Tok ENDMARKER "" (5,0) (5,0) "") ].

Definition two_level_src : list stok :=
  head_toks ++ STok line4_dedent :: tail_toks.



(** ["  # c\nx\n"]: a comment line indented by 2, then [x] at column 0.
    A comment-only line gives [COMMENT] and [NL] and no [INDENT]. *)
Definition C1 : string := ("  # c" ++ nl)%string.
Definition C2 : string := ("x" ++ nl)%string.


(** A triple-quoted string over two lines, followed by a backslash
    continuation: ["x = '''\n''' \\\n+ y\n"].  The [STRING] token of a
    string that spans lines carries as its line all the physical lines it
    spans, joined. *)
Definition Q3 : string := "'''".
Definition bslash : string := String "092"%char EmptyString.
Definition M1 : string := ("x = " ++ Q3 ++ nl)%string.
Definition M2 : string := (Q3 ++ " " ++ bslash ++ nl)%string.





End ScannedDetok.

(* ------------------------------------------------------------------ *)
(** ** The line reader of [tokenize_stream] (PEP 263 detection) *)

Module Reader.

(** A line of the input iterable: a byte string or a [unicode] object. *)
Inductive rline : Type :=
  | RStr (s : string)
  | RUni (s : string).

(** What the generator [reader(f)] produces: a byte string, a [unicode]
    object, a [unicode] object decoded from a byte string by the [enc]
    codec (the decoding itself is not modelled: the text is kept as the
    bytes it was decoded from), or [OCodec enc rest], which stands for
    everything the generator does once it has wrapped [f] in
    [codecs.getreader(enc)]: the lines the stream reader yields from the
    lines [rest] that [f] has not given yet, then [''].  The stream reader
    reads [f] through its [read] method, decodes, and may raise; that part
    belongs to the [codecs] module and is not modelled. *)
Inductive oline : Type :=
  | OStr (s : string)
  | OUni (s : string)
  | ODecoded (enc : string) (s : string)
  | OCodec (enc : string) (rest : list rline).

(** [BOM = '\xef\xbb\xbf'] *)
Definition BOM : string :=
  String "239"%char (String "187"%char (String "191"%char EmptyString)).

Definition startswith (p s : string) : bool := String.prefix p s.

(** [\s] of a byte-string pattern: space, tab, newline, return, form
    feed, vertical tab. *)
Definition is_space (c : ascii) : bool :=
  existsb (Ascii.eqb c) ["032"%char; "009"%char; "010"%char; "013"%char;
                         "012"%char; "011"%char].

(** [[-\w.]] of a byte-string pattern *)
Definition is_name_char (c : ascii) : bool :=
  let n := nat_of_ascii c in
  (Nat.leb 97 n && Nat.leb n 122) || (Nat.leb 65 n && Nat.leb n 90) ||
  (Nat.leb 48 n && Nat.leb n 57) || Nat.eqb n 95 || Nat.eqb n 45 || Nat.eqb n 46.

Fixpoint skip_spaces (s : string) : string :=
  match s with
  | String c s' => if is_space c then skip_spaces s' else s
  | EmptyString => EmptyString
  end.

Fixpoint count_spaces (s : string) : nat :=
  match s with
  | String c s' => if is_space c then S (count_spaces s') else 0
  | EmptyString => 0
  end.

Fixpoint skip_to_nl (s : string) : string :=
  match s with
  | String c s' => if Ascii.eqb c "010"%char then s else skip_to_nl s'
  | EmptyString => EmptyString
  end.

(** [ENCODING_LINE]: [re.match] of the BOM, or else of blanks [\s*]
    followed by an optional comment group [#.*] and [$]: the line
    starts with a BOM, or is blank, or is blank up to a comment ([.] stops
    at a newline, [$] matches at the end or before a final newline). *)
Definition ENCODING_LINE (s : string) : bool :=
  startswith BOM s ||
  match skip_spaces s with
  | EmptyString => true
  | String "#"%char rest =>
      match skip_to_nl rest with
      | EmptyString => true
      | String "010"%char EmptyString => true
      | _ => false
      end
  | _ => false
  end.

Fixpoint name_prefix (s : string) : string :=
  match s with
  | String c s' => if is_name_char c then String c (name_prefix s') else EmptyString
  | EmptyString => EmptyString
  end.

(** A match of [coding[:=]\s*([-\w.]+)] at offset [i] of [s]: the offset of
    group 1 and its text. *)
Definition coding_at (s : string) (i : nat) : option (nat * string) :=
  let r := substring i (String.length s - i) s in
  if String.prefix "coding" r then
    match substring 6 (String.length r - 6) r with
    | String c r' =>
        if Ascii.eqb c ":"%char || Ascii.eqb c "="%char then
          let j := i + 7 + count_spaces r' in
          match name_prefix (skip_spaces r') with
          | EmptyString => None
          | nm => Some (j, nm)
          end
        else None
    | EmptyString => None
    end
  else None.

(** [FIND_ENCODING = re.compile('coding[:=]\s*([-\w.]+)').search]: the
    leftmost match. *)
Definition FIND_ENCODING (s : string) : option (nat * string) :=
  let fix go (i fuel : nat) :=
    match fuel with
    | 0 => None
    | S f => match coding_at s i with Some m => Some m | None => go (S i) f end
    end in
  go 0 (S (String.length s)).

(** [line.find('coding')>=0] *)
Definition contains_coding (s : string) : bool :=
  existsb (fun i => String.prefix "coding" (substring i (String.length s - i) s))
          (seq 0 (S (String.length s))).

Definition lower_char (c : ascii) : ascii :=
  let n := nat_of_ascii c in
  if Nat.leb 65 n && Nat.leb n 90 then ascii_of_nat (n + 32) else c.

Fixpoint lower (s : string) : string :=
  match s with
  | String c s' => String (lower_char c) (lower s')
  | EmptyString => EmptyString
  end.

(** The text of a line, whatever its type. *)
Definition text_of (l : oline) : string :=
  match l with
  | OStr s | OUni s | ODecoded _ s => s
  | OCodec _ _ => ""
  end.

(** A continuation byte [10xxxxxx] of UTF-8. *)
Definition is_cont (c : ascii) : bool :=
  let n := nat_of_ascii c in Nat.leb 128 n && Nat.ltb n 192.

(** [s.decode('utf8')] does not raise: Python 2.7's strict UTF-8 decoder.
    A lead byte [C2]-[DF] takes one continuation byte, [E0]-[EF] two
    ([E0] with a second byte from [A0], no overlong form), [F0]-[F4]
    three ([F0] with a second byte from [90], [F4] up to [8F], nothing
    beyond U+10FFFF); [80]-[C1] and [F5]-[FF] cannot start a character,
    and a sequence cut short by the end of the string is an error.
    Encoded surrogates ([ED A0 80] to [ED BF BF]) are accepted. *)
Fixpoint utf8_valid (s : string) : bool :=
  match s with
  | EmptyString => true
  | String c s1 =>
      let n := nat_of_ascii c in
      if Nat.ltb n 128 then utf8_valid s1
      else if Nat.ltb n 194 then false
      else if Nat.ltb n 224 then
        match s1 with
        | String c1 s2 => is_cont c1 && utf8_valid s2
        | EmptyString => false
        end
      else if Nat.ltb n 240 then
        match s1 with
        | String c1 (String c2 s3) =>
            is_cont c1 && is_cont c2 &&
            (negb (Nat.eqb n 224) || Nat.leb 160 (nat_of_ascii c1)) && utf8_valid s3
        | _ => false
        end
      else if Nat.ltb n 245 then
        match s1 with
        | String c1 (String c2 (String c3 s4)) =>
            is_cont c1 && is_cont c2 && is_cont c3 &&
            (negb (Nat.eqb n 240) || Nat.leb 144 (nat_of_ascii c1)) &&
            (negb (Nat.eqb n 244) || Nat.leb (nat_of_ascii c1) 143) && utf8_valid s4
        | _ => false
        end
      else false
  end.

(** The length, in characters, of the [unicode] object decoded from the
    valid UTF-8 bytes [s]: one per byte that is not a continuation byte
    (a wide, UCS-4 build of Python 2, where a character beyond U+FFFF is
    one code unit). *)
Fixpoint units (s : string) : nat :=
  match s with
  | EmptyString => 0
  | String c s' => if is_cont c then units s' else S (units s')
  end.

(** [repr] of a [unicode] object made of the characters [[-\w.]]
    (ASCII letters, digits, [_], [-] and [.]), as the encoding name of
    [FIND_ENCODING] is: no character is escaped. *)
Definition repr_unicode (s : string) : string := ("u'" ++ s ++ "'")%string.

(** The first loop of [reader(f)] (lines 52-73).  [f] is an iterator
    (such as a file or a generator: [iter(f)] is [f]), given as the list
    of lines it has still to give.  The loop returns the lines yielded so
    far, the exception raised if any, the encoding found and the lines of
    [f] not consumed yet.  A line that starts with the BOM is decoded from
    UTF-8 (line 59), which raises [UnicodeDecodeError] when the rest of
    the line is not valid UTF-8; the line is then a [unicode] object, so
    [match.start(1)] counts characters and [%r] gives [u'...']. *)
Fixpoint first_lines (lno : nat) (encoding : option string) (bom : bool)
    (f : list rline) : list oline * option exc * option string * list rline :=
  match f with
  | [] => ([], None, encoding, [])
  | RUni s :: f' => ([OUni s], None, encoding, f')
  | RStr s :: f' =>
      if negb (ENCODING_LINE s) then ([OStr s], None, encoding, f')
      else
        let bom_line := Nat.eqb lno 1 && startswith BOM s in
        let rest_bytes := substring 3 (String.length s - 3) s in
        if bom_line && negb (utf8_valid rest_bytes) then ([], Some PyCrash, Some "utf8", f')
        else
        let '(line, bom1, enc1) :=
          if bom_line
          then (ODecoded "utf8" rest_bytes, true, Some "utf8")
          else (OStr s, bom, encoding) in
        let found :=
          if contains_coding (text_of line) then
            match FIND_ENCODING (text_of line) with
            | Some (col, nm) =>
                if bom1 && negb (existsb (String.eqb (lower nm)) ["utf8"; "utf-8"])
                then inr (TokenError
                            ("UTF-8 BOM, but " ++ repr_unicode nm ++ " encoding requested")%string
                            (lno, units (substring 0 col (text_of line))))
                else inl (Some nm)
            | None => inl enc1
            end
          else inl enc1 in
        match found with
        | inr e => ([], Some e, enc1, f')
        | inl enc2 =>
            let lno' := S lno in
            match enc2 with
            | Some _ => ([line], None, enc2, f')
            | None =>
                if Nat.ltb 2 lno' then ([line], None, enc2, f')
                else
                  let '(ys, e, enc3, rest) := first_lines lno' enc2 bom1 f' in
                  (line :: ys, e, enc3, rest)
            end
        end
  end.

Section WithCodecs.

(** [codecs.getreader(enc)] looks the codec up and raises [LookupError]
    when Python knows no codec of that name; [known_codec enc] says
    whether it finds one. *)
Variable known_codec : string -> bool.

(** The rest of [reader(f)] (lines 74-80): without an encoding, the
    remaining lines of [f] as they are, then ['']; with one, [f] wrapped
    in [getreader(encoding)].  The result is the lines yielded and the
    exception raised, if any. *)
Definition reader (f : list rline) : list oline * option exc :=
  let '(ys, e, enc, rest) := first_lines 1 None false f in
  match e with
  | Some _ => (ys, e)
  | None =>
      match enc with
      | None =>
          (ys ++ map (fun l => match l with RStr s => OStr s | RUni s => OUni s end) rest
              ++ [OStr ""], None)
      | Some en =>
          if known_codec en then (ys ++ [OCodec en rest], None) else (ys, Some PyCrash)
      end
  end.

End WithCodecs.

End Reader.

(* ------------------------------------------------------------------ *)
(** ** [parse_declarations] *)

Module Decl.

(** An entry of [names]: the text of a [NAME] token, or [eval(...)] of
    the text of a [STRING] token (the literal's value, left as the
    expression Python evaluates). *)
Inductive dname : Type :=
  | DName (s : string)
  | DEval (lit : string).

(** The tuple [(names, expr, context, block)] yielded for a statement;
    [context] is [None] or a list, [block] is the list reference of the
    statement's block. *)
Record decl : Type := MkDecl {
  names : list dname;
  expr : list value;
  context : option (list value);
  dblock : nat
}.

(** [list(strip_ws(stmt))] over the elements of a statement: a token is
    kept when [tok[0] not in WHITESPACE]; a [(SUBEXPR, ...)] entry is kept
    ([SUBEXPR] is not in [WHITESPACE]); for a [(stmt, block)] tuple
    [tok[0]] is a list, which is unhashable. *)
Fixpoint strip_values (vs : list value) : option (list value) :=
  match vs with
  | [] => Some []
  | VTok t :: vs' =>
      if in_WHITESPACE (kind t) then strip_values vs'
      else option_map (cons (VTok t)) (strip_values vs')
  | VSub r st en ln :: vs' => option_map (cons (VSub r st en ln)) (strip_values vs')
  | VPair _ _ :: _ => None
  end.

(** [v[1] == s]: only a token has a [str] there. *)
Definition text_is (v : value) (s : string) : bool :=
  match v with
  | VTok t => String.eqb (val t) s
  | _ => false
  end.

(** [v[3]], the end position; a 2-tuple has no [[3]]. *)
Definition end_of (v : value) : option pos :=
  match v with
  | VTok t => Some (tend t)
  | VSub _ _ en _ => Some en
  | VPair _ _ => None
  end.

(** [stmt[-1]] *)
Definition last_opt (vs : list value) : option value :=
  match vs with
  | [] => None
  | v :: vs' => Some (last vs' v)
  end.

(** [eval(lvalue[1])] on the text of a [STRING] token raises for some
    literals the scanner accepts: an invalid [\x] escape (['\xZZ']), an
    invalid [\u], [\U] or [\N{...}] escape in a [unicode] literal, a
    NUL byte in the text.  Which literals Python's evaluator rejects is
    not decided here: [eval_raises lit] says whether [eval(lit)] raises. *)
Section WithEval.
Variable eval_raises : string -> bool.

(** The [while] loop of lines 262-273 on the stripped statement [stmt]:
    [pos] starts at 2 and the loop returns [names] and the final [pos].
    Each round adds 2 to [pos], so [length stmt] rounds are enough. *)
Fixpoint names_loop (fuel : nat) (stmt : list value) (pos : nat)
    (names : list dname) : exc + (list dname * nat) :=
  match fuel with
  | 0 => inr (names, pos)
  | S f =>
      match Nat.leb pos (List.length stmt), nth_error stmt (pos - 1) with
      | true, Some (VTok e) =>
          if String.eqb (val e) "=" then
            match nth_error stmt (pos - 2) with
            | Some (VTok lv) =>
                if Nat.eqb (kind lv) NAME then
                  names_loop f stmt (pos + 2) (names ++ [DName (val lv)])
                else if Nat.eqb (kind lv) STRING then
                  if eval_raises (val lv) then inl PyCrash
                  else names_loop f stmt (pos + 2) (names ++ [DEval (val lv)])
                else inl (TokenError "Expected name or string before '='" (tstart e))
            | Some (VSub _ _ _ _) =>
                inl (TokenError "Expected name or string before '='" (tstart e))
            | _ => inl PyCrash
            end
          else inr (names, pos)
      | _, _ => inr (names, pos)
      end
  end.

(** [partition(stmt[pos-2:], "from")]: the separator is a [str], so
    [tok[1]] is compared. *)
Fixpoint partition_loop (before after : list value)
  : list value * list value * list value :=
  match after with
  | [] => (before, [], [])
  | tok :: after' =>
      if text_is tok "from" then (before, [tok], after')
      else partition_loop (before ++ [tok]) after'
  end.

(** Lines 262-286 on the checked statement [stmt] (the trailing [':']
    removed): the names, then [partition] at ["from"]. *)
Definition decl_body (h : heap) (b : nat) (stmt : list value) : exc + decl :=
  match names_loop (S (List.length stmt)) stmt 2 [] with
  | inl e => inl e
  | inr (names, pos) =>
      let '(expr, sep, ctx) := partition_loop [] (skipn (pos - 2) stmt) in
      match names, expr with
      | _ :: _, [] =>
          match nth_error stmt (pos - 3) with
          | Some v =>
              match end_of v with
              | Some p => inl (TokenError "Expected expression" p)
              | None => inl PyCrash
              end
          | None => inl PyCrash
          end
      | _, _ =>
          match sep with
          | [] => inr (MkDecl names expr None b)
          | m :: _ =>
              match ctx with
              | [] =>
                  if negb (nonempty h b) then
                    match end_of m with
                    | Some p => inl (TokenError "Expected context or ':' after 'from'" p)
                    | None => inl PyCrash
                    end
                  else inr (MkDecl names expr (Some ctx) b)
              | _ :: _ => inr (MkDecl names expr (Some ctx) b)
              end
          end
      end
  end.

(** The body of the loop of [parse_declarations] (lines 251-286) for one
    [(stmt, block)] tuple: the exception raised, or the tuple yielded. *)
Definition decl_stmt (h : heap) (s b : nat) : exc + decl :=
  match nth_error h s with
  | None => inl PyCrash
  | Some raw =>
      match strip_values raw with
      | None => inl PyCrash
      | Some stmt0 =>
          match last_opt stmt0 with
          | None => inl PyCrash                            (* IndexError *)
          | Some lst =>
              let checked :=
                if text_is lst ":" then
                  if negb (nonempty h b) then
                    match end_of lst with
                    | Some p => inl (TokenError "Expected indented block following ':'" p)
                    | None => inl PyCrash
                    end
                  else inr (removelast stmt0)
                else if nonempty h b then
                  match end_of lst with
                  | Some p => inl (TokenError "Expected ':' before indented block" p)
                  | None => inl PyCrash
                  end
                else inr stmt0 in
              match checked with
              | inl e => inl e
              | inr stmt => decl_body h b stmt
              end
          end
      end
  end.

(** The [for stmt, block in block] loop over the tuples [vs] of a block:
    the tuples yielded, and the exception that stopped the generator, if
    any.  Unpacking a 5-tuple into [stmt, block] raises [ValueError]. *)
Fixpoint decls_loop (h : heap) (vs : list value) : list decl * option exc :=
  match vs with
  | [] => ([], None)
  | VPair s b :: vs' =>
      match decl_stmt h s b with
      | inl e => ([], Some e)
      | inr d => let '(ds, e) := decls_loop h vs' in (d :: ds, e)
      end
  | _ :: _ => ([], Some PyCrash)
  end.

(** [parse_declarations(block)] *)
Definition parse_declarations (h : heap) (r : nat) : list decl * option exc :=
  match nth_error h r with
  | None => ([], Some PyCrash)
  | Some vs => decls_loop h vs
  end.

End WithEval.

End Decl.

(* ================================================================== *)
(** * Properties *)

(* ------------------------------------------------------------------ *)
(** ** [partition] and [rpartition] *)

Module PartitionFacts.
Import Partition.

Lemma partition_loop_nomatch (sep : sep_t) (before xs : list token) :
  forallb (fun t => negb (matches sep t)) xs = true ->
  partition_loop sep before xs = (before ++ xs, [], []).
Proof.
  revert before; induction xs as [|x xs IH]; intros before H; simpl in *.
  - now rewrite app_nil_r.
  - apply andb_prop in H as [Hx Hxs].
    destruct (matches sep x); [discriminate|].
    rewrite IH by exact Hxs. now rewrite <- app_assoc.
Qed.

Lemma partition_loop_split (sep : sep_t) (before xs ys : list token) (m : token) :
  forallb (fun t => negb (matches sep t)) xs = true ->
  matches sep m = true ->
  partition_loop sep before (xs ++ m :: ys) = (before ++ xs, [m], ys).
Proof.
  revert before; induction xs as [|x xs IH]; intros before H Hm; simpl in *.
  - rewrite Hm. now rewrite app_nil_r.
  - apply andb_prop in H as [Hx Hxs].
    destruct (matches sep x); [discriminate|].
    rewrite IH by assumption. now rewrite <- app_assoc.
Qed.

Lemma forallb_rev {A} (f : A -> bool) (xs : list A) :
  forallb f (rev xs) = forallb f xs.
Proof.
  induction xs as [|x xs IH]; simpl; [reflexivity|].
  rewrite forallb_app, IH; simpl. now rewrite andb_true_r, andb_comm.
Qed.

(** C9: [partition] on a token list with no token matching the separator
    returns the whole list as [before], an empty [matched] list and an
    [after] remainder that yields nothing. *)
Theorem partition_no_match (tokens : list token) (sep : sep_t)
  (Hnone : forallb (fun t => negb (matches sep t)) tokens = true) :
  partition tokens sep = (tokens, [], []).
Proof. unfold partition. now rewrite partition_loop_nomatch. Qed.

Lemma partition_no_match_witness :
  forallb (fun t => negb (matches (SepText "from") t))
    [Tok NAME "x" (1,0) (1,1) "x+y"; Tok OP "+" (1,1) (1,2) "x+y"] = true /\
  partition [Tok NAME "x" (1,0) (1,1) "x+y"; Tok OP "+" (1,1) (1,2) "x+y"]
            (SepText "from")
  = ([Tok NAME "x" (1,0) (1,1) "x+y"; Tok OP "+" (1,1) (1,2) "x+y"], [], []).
Proof.
  split; [reflexivity|].
  apply partition_no_match. reflexivity.
Defined.

(** C5: unlike [partition], which returns every token as [before] when
    none matches the separator, [rpartition] then returns an empty
    [before] and every token as [after] (the reversal swaps the two
    sides), so [before] does not hold the input. *)
Theorem rpartition_no_match_all_after (tokens : list token) (sep : sep_t)
  (Hne : tokens <> [])
  (Hnone : forallb (fun t => negb (matches sep t)) tokens = true) :
  partition tokens sep = (tokens, [], []) /\
  rpartition tokens sep = ([], [], tokens) /\
  fst (fst (rpartition tokens sep)) <> tokens.
Proof.
  assert (Hr : rpartition tokens sep = ([], [], tokens)).
  { unfold rpartition, partition.
    rewrite partition_loop_nomatch by now rewrite forallb_rev.
    simpl. now rewrite rev_involutive. }
  split; [|split].
  - unfold partition. now rewrite partition_loop_nomatch.
  - exact Hr.
  - rewrite Hr. simpl. intros H. now apply Hne.
Qed.

Lemma rpartition_no_match_all_after_witness :
  [Tok NAME "x" (1,0) (1,1) "x"] <> [] /\
  forallb (fun t => negb (matches (SepText "from") t)) [Tok NAME "x" (1,0) (1,1) "x"] = true /\
  rpartition [Tok NAME "x" (1,0) (1,1) "x"] (SepText "from") =
    ([], [], [Tok NAME "x" (1,0) (1,1) "x"]).
Proof.
  split; [discriminate|split; [reflexivity|]].
  apply (rpartition_no_match_all_after [Tok NAME "x" (1,0) (1,1) "x"] (SepText "from"));
    [discriminate | reflexivity].
Defined.

(** [rpartition] splits at the last token matching the separator: [before] is the tokens preceding it, [matched] is that
    token, [after] is the rest; when no token matches, [before] and
    [matched] are empty and [after] holds all of the tokens. *)
Theorem rpartition_spec (sep : sep_t) :
  (forall (pre post : list token) (m : token),
     matches sep m = true ->
     forallb (fun t => negb (matches sep t)) post = true ->
     rpartition (pre ++ m :: post) sep = (pre, [m], post)) /\
  (forall tokens : list token,
     forallb (fun t => negb (matches sep t)) tokens = true ->
     rpartition tokens sep = ([], [], tokens)).
Proof.
  split.
  - intros pre post m Hm Hpost. unfold rpartition, partition.
    rewrite rev_app_distr. simpl. rewrite <- app_assoc. simpl.
    rewrite partition_loop_split; [| now rewrite forallb_rev | exact Hm].
    simpl. now rewrite !rev_involutive.
  - intros tokens H. unfold rpartition, partition.
    rewrite partition_loop_nomatch by now rewrite forallb_rev.
    simpl. now rewrite rev_involutive.
Qed.

Lemma rpartition_spec_witness :
  rpartition ([Tok NAME "a" (1,0) (1,1) "a=b=c"] ++
              Tok OP "=" (1,3) (1,4) "a=b=c" :: [Tok NAME "c" (1,4) (1,5) "a=b=c"])
             (SepText "=")
  = ([Tok NAME "a" (1,0) (1,1) "a=b=c"], [Tok OP "=" (1,3) (1,4) "a=b=c"],
     [Tok NAME "c" (1,4) (1,5) "a=b=c"]) /\
  rpartition [Tok NAME "a" (1,0) (1,1) "a"] (SepText "=")
  = ([], [], [Tok NAME "a" (1,0) (1,1) "a"]).
Proof.
  split.
  - apply (proj1 (rpartition_spec (SepText "="))); reflexivity.
  - apply (proj2 (rpartition_spec (SepText "="))); reflexivity.
Defined.

End PartitionFacts.

(* ------------------------------------------------------------------ *)
(** ** The store *)

Module StoreFacts.
Import Parse.

Lemma set_cell_length (h : heap) (r : nat) (c : list value) :
  List.length (set_cell h r c) = List.length h.
Proof.
  revert r; induction h as [|x h IH]; intros [|r]; simpl; auto.
Qed.

Lemma nth_error_set_cell (h : heap) (r r' : nat) (c : list value) :
  nth_error (set_cell h r c) r' =
  if Nat.eqb r r' then (match nth_error h r with Some _ => Some c | None => None end)
  else nth_error h r'.
Proof.
  revert r r'; induction h as [|x h IH]; intros r r'.
  - simpl. rewrite !nth_error_nil. now destruct (Nat.eqb r r').
  - destruct r, r'; simpl; auto.
Qed.

Lemma Forall_set_cell (P : list value -> Prop) (h : heap) (r : nat) (c : list value) :
  Forall P h -> P c -> Forall P (set_cell h r c).
Proof.
  revert r; induction h as [|x h IH]; intros [|r] Hh Hc; simpl; auto;
    inversion Hh; subst; constructor; auto.
Qed.

Lemma append_to_length (h h' : heap) (r : nat) (v : value) :
  append_to h r v = Some h' -> List.length h' = List.length h.
Proof.
  unfold append_to. destruct (nth_error h r); intros E; inversion E.
  apply set_cell_length.
Qed.

Lemma append_to_some (h : heap) (r : nat) (v : value) :
  r < List.length h -> exists h', append_to h r v = Some h'.
Proof.
  intros Hr. unfold append_to.
  destruct (nth_error h r) eqn:E; [eauto|].
  apply nth_error_None in E. lia.
Qed.

Lemma append_to_nth (h h' : heap) (r r' : nat) (v : value) :
  append_to h r v = Some h' ->
  nth_error h' r' =
  if Nat.eqb r r' then option_map (fun c => c ++ [v]) (nth_error h r)
  else nth_error h r'.
Proof.
  unfold append_to. destruct (nth_error h r) eqn:E; intros H; inversion H; subst.
  rewrite nth_error_set_cell, E. destruct (Nat.eqb r r'); reflexivity.
Qed.

Lemma cell_ok_mono (n m : nat) (c : list value) :
  n <= m -> cell_ok n c -> cell_ok m c.
Proof.
  intros Hnm. apply Forall_impl. intros v. apply Forall_impl. intros; lia.
Qed.

Lemma append_to_cells (n : nat) (h h' : heap) (r : nat) (v : value) :
  append_to h r v = Some h' ->
  Forall (cell_ok n) h -> Forall (fun x => x < n) (value_refs v) ->
  Forall (cell_ok n) h'.
Proof.
  unfold append_to. destruct (nth_error h r) eqn:E; intros H; inversion H; subst.
  intros Hh Hv. apply Forall_set_cell; auto.
  unfold cell_ok. apply Forall_app; split; [|constructor; auto].
  eapply Forall_forall in Hh; [exact Hh|]. eapply nth_error_In; eauto.
Qed.

Lemma alloc_cells (n : nat) (h : heap) :
  List.length h < n -> Forall (cell_ok n) h -> Forall (cell_ok n) (snd (alloc h)).
Proof.
  intros _ Hh. simpl. apply Forall_app; split; auto. repeat constructor.
Qed.

Lemma last_in {A} (l : list A) (d : A) : l <> [] -> In (last l d) l.
Proof.
  intros Hl. rewrite (app_removelast_last d Hl) at 2.
  apply in_or_app. right. now left.
Qed.

Lemma Forall_lt_mono (n m : nat) (xs : list nat) :
  n <= m -> Forall (fun r => r < n) xs -> Forall (fun r => r < m) xs.
Proof. intros H. apply Forall_impl. intros; lia. Qed.

Lemma Forall_cell_ok_mono (n m : nat) (h : heap) :
  n <= m -> Forall (cell_ok n) h -> Forall (cell_ok m) h.
Proof. intros H. apply Forall_impl. intros. eapply cell_ok_mono; eauto. Qed.

End StoreFacts.

(* ------------------------------------------------------------------ *)
(** ** [parse_block]: every reference stays inside the store *)

Module ParseRefs.
Import Parse StoreFacts.

Lemma init_refs_ok : refs_ok init.
Proof.
  unfold refs_ok, init; simpl. repeat split.
  - constructor.
  - lia.
  - intros r E; inversion E; lia.
  - lia.
  - repeat constructor.
Qed.

Ltac destruct_ok H :=
  let Hsc := fresh "Hsc" in let Hout := fresh "Hout" in
  let Hscope := fresh "Hscope" in let Hstmt := fresh "Hstmt" in
  let Hcells := fresh "Hcells" in
  destruct H as [Hsc [Hout [Hscope [Hstmt Hcells]]]].

Lemma close_stmt_ok (st st' : pstate) :
  refs_ok st -> close_stmt st = Some st' ->
  refs_ok st' /\ List.length (heap_of st) <= List.length (heap_of st').
Proof.
  intros Hok H. destruct_ok Hok. unfold close_stmt in H.
  destruct (scope st) as [r|s] eqn:Es; [|discriminate].
  simpl in H.
  destruct (append_to (heap_of st ++ [[]]) r (VPair (stmt st) (List.length (heap_of st))))
    as [h2|] eqn:Ea; [|discriminate].
  inversion H; subst; clear H.
  pose proof (append_to_length _ _ _ _ Ea) as Hlen.
  rewrite length_app in Hlen; simpl in Hlen.
  assert (Hr : r < List.length (heap_of st)) by (apply Hscope; reflexivity).
  unfold refs_ok; simpl. rewrite length_app; simpl.
  repeat split.
  - eapply Forall_lt_mono; [|exact Hsc]. lia.
  - lia.
  - intros r' E. rewrite ?Es in E. inversion E; subst. lia.
  - lia.
  - apply Forall_app; split; [|repeat constructor].
    eapply append_to_cells; [exact Ea| |].
    + apply Forall_app; split; [|repeat constructor].
      eapply Forall_cell_ok_mono; [|exact Hcells]. lia.
    + simpl. repeat constructor; lia.
  - lia.
Qed.

Lemma exit_scope_ok (st st' : pstate) (t : token) :
  refs_ok st -> exit_scope st t = SNext st' -> refs_ok st'.
Proof.
  intros Hok H. unfold exit_scope in H.
  set (checked := if Nat.eqb (kind t) DEDENT then _ else _) in H.
  assert (Hc : forall st1, checked = inl st1 -> refs_ok st1 /\ heap_of st1 = heap_of st).
  { intros st1 E. subst checked.
    destruct (Nat.eqb (kind t) DEDENT).
    - destruct (negb _); inversion E; subst. split; [|reflexivity].
      destruct_ok Hok. unfold refs_ok; simpl; auto.
    - destruct (parens st); inversion E; subst; auto. }
  destruct checked as [st1|e]; [|discriminate].
  destruct (Hc st1 eq_refl) as [Hok1 _]; clear Hc.
  set (flushed := if nonempty (heap_of st1) (stmt st1) then _ else _) in H.
  assert (Hf : forall st2, flushed = Some st2 -> refs_ok st2).
  { intros st2 E. subst flushed. destruct (nonempty _ _).
    - now apply (close_stmt_ok st1).
    - inversion E; subst; auto. }
  destruct flushed as [st2|]; [|discriminate].
  specialize (Hf st2 eq_refl).
  destruct (scopes st2) as [|r rest] eqn:Es.
  - destruct (Nat.eqb (kind t) DEDENT); discriminate.
  - destruct (Nat.eqb (kind t) ENDMARKER); inversion H; subst; clear H.
    destruct_ok Hf. rewrite Es in Hsc. inversion Hsc; subst.
    unfold refs_ok; simpl. repeat split; auto.
    intros r' E; inversion E; subst; auto.
Qed.

Lemma enter_scope_ok (st st' : pstate) (t : token) :
  refs_ok st -> enter_scope st t = SNext st' -> refs_ok st'.
Proof.
  intros Hok H. unfold enter_scope in H.
  destruct (scope st) as [r|s] eqn:Es.
  - destruct (nth_error (heap_of st) r) as [c|] eqn:Ec; [|discriminate].
    destruct c as [|v0 c']; [discriminate|].
    remember (last (v0 :: c') (VPair 0 0)) as lv eqn:Elv.
    inversion H; subst st'; clear H.
    destruct_ok Hok.
    assert (Hlast : Forall (fun x => x < List.length (heap_of st)) (value_refs lv)).
    { subst lv.
      eapply Forall_forall in Hcells; [|eapply nth_error_In; exact Ec].
      eapply Forall_forall in Hcells; [exact Hcells|].
      apply last_in. discriminate. }
    pose proof (Hscope r Es) as Hr.
    unfold refs_ok; simpl.
    refine (conj (@Forall_cons _ (fun x => x < List.length (heap_of st)) _ _ Hr Hsc)
              (conj Hout (conj _ (conj Hstmt Hcells)))).
    intros r' E. clear Elv.
    destruct lv as [tk|r0 a b l|a b]; simpl in E, Hlast; inversion E; subst;
      repeat match goal with
             | H : Forall _ (_ :: _) |- _ => inversion H; clear H; subst
             end; assumption.
  - destruct s; discriminate.
Qed.

Lemma other_token_ok (st st' : pstate) (t : token) :
  refs_ok st -> other_token st t = SNext st' -> refs_ok st'.
Proof.
  intros Hok H. unfold other_token in H.
  set (opened := if Nat.eqb (kind t) OP && in_OPEN_PARENS (val t) then _ else _) in H.
  assert (Ho : forall st1, opened = Some st1 -> refs_ok st1).
  { intros st1 E. subst opened.
    destruct (Nat.eqb (kind t) OP && in_OPEN_PARENS (val t)); [|now inversion E; subst].
    simpl in E. destruct_ok Hok.
    destruct (append_to (heap_of st ++ [[]]) (stmt st)
                (VSub (List.length (heap_of st)) (tstart t) (tend t) (tline t)))
      as [h2|] eqn:Ea; [|discriminate].
    inversion E; subst; clear E.
    pose proof (append_to_length _ _ _ _ Ea) as Hlen.
    rewrite length_app in Hlen; simpl in Hlen.
    unfold refs_ok; simpl. rewrite Hlen. repeat split.
    - constructor; [lia|]. eapply Forall_lt_mono; [|exact Hsc]. lia.
    - lia.
    - intros r E. assert (r < List.length (heap_of st)) by (apply Hscope; exact E). lia.
    - lia.
    - eapply append_to_cells; [exact Ea| |].
      + apply Forall_app; split; [|repeat constructor].
        eapply Forall_cell_ok_mono; [|exact Hcells]. lia.
      + simpl. repeat constructor; lia. }
  destruct opened as [st1|]; [|discriminate].
  specialize (Ho st1 eq_refl).
  destruct (append_to (heap_of st1) (stmt st1) (VTok t)) as [h|] eqn:Ea; [|discriminate].
  assert (Hok2 : refs_ok (set_heap st1 h)).
  { destruct_ok Ho. pose proof (append_to_length _ _ _ _ Ea) as Hlen.
    unfold refs_ok, set_heap; simpl. rewrite Hlen. repeat split; auto.
    eapply append_to_cells; [exact Ea|exact Hcells|constructor]. }
  destruct (Nat.eqb (kind t) OP).
  - destruct (CLOSE_PARENS (val t)) as [o|].
    + destruct (parens (set_heap st1 h)) as [|p ps]; [discriminate|].
      destruct (negb (String.eqb p o)); [discriminate|].
      destruct (scopes (set_heap st1 h)) as [|s rest] eqn:Es; [discriminate|].
      inversion H; subst; clear H.
      destruct_ok Hok2. rewrite Es in Hsc. inversion Hsc; subst.
      unfold refs_ok; simpl. repeat split; auto.
    + inversion H; subst; auto.
  - destruct (Nat.eqb (kind t) NEWLINE).
    + destruct (close_stmt (set_heap st1 h)) as [st3|] eqn:Ec; [|discriminate].
      inversion H; subst. now apply (close_stmt_ok (set_heap st1 h)).
    + inversion H; subst; auto.
Qed.

Lemma step_ok (st st' : pstate) (t : token) :
  refs_ok st -> step st t = SNext st' -> refs_ok st'.
Proof.
  unfold step. intros Hok H.
  destruct (Nat.eqb (kind t) DEDENT || Nat.eqb (kind t) ENDMARKER).
  - eapply exit_scope_ok; eauto.
  - destruct (Nat.eqb (kind t) INDENT).
    + eapply enter_scope_ok; eauto.
    + eapply other_token_ok; eauto.
Qed.

Lemma steps_ok (items : list scan_item) (st st' : pstate) :
  refs_ok st -> steps st items = Some st' -> refs_ok st'.
Proof.
  revert st; induction items as [|[t|e] items IH]; intros st Hok H; simpl in H.
  - now inversion H; subst.
  - destruct (step st t) eqn:Es; try discriminate.
    eapply IH; [|exact H]. eapply step_ok; eauto.
  - discriminate.
Qed.

Lemma run_steps (items rest : list scan_item) (st st' : pstate) :
  steps st items = Some st' -> run st (items ++ rest) = run st' rest.
Proof.
  revert st; induction items as [|[t|e] items IH]; intros st H; simpl in H.
  - now inversion H; subst.
  - simpl. destruct (step st t) eqn:Es; try discriminate. now apply IH.
  - discriminate.
Qed.

End ParseRefs.

(* ------------------------------------------------------------------ *)
(** ** [parse_block]: the errors it raises *)

Module ParseErrors.
Import Parse ParseRefs StoreFacts Scanned.

Lemma existsb_eqb_false (w : nat) (l : list nat) :
  ~ In w l -> existsb (Nat.eqb w) l = false.
Proof.
  intros H. destruct (existsb (Nat.eqb w) l) eqn:E; [|reflexivity].
  apply existsb_exists in E as [x [Hx Hw]]. apply Nat.eqb_eq in Hw; subst.
  contradiction.
Qed.

Lemma parse_block_after (pre rest : list scan_item) (st : pstate) (t : token) :
  steps init pre = Some st ->
  parse_block (pre ++ Yield t :: rest) = run st (Yield t :: rest).
Proof. intros H. unfold parse_block. now apply run_steps. Qed.

(** C3: whenever [parse_block] meets a [DEDENT] whose width (the
    tab-expanded width of the line before the token) is not on the
    indentation stack, it raises "unindent does not match any outer
    indentation level" at the token's start; on
    ["if foo:\n    bar\n  baz\n"] this happens at line 3, column 2. *)
Theorem dedent_mismatch_error :
  (forall (pre rest : list scan_item) (st : pstate) (t : token),
     steps init pre = Some st ->
     kind t = DEDENT ->
     ~ In (dedent_width t) (indents st) ->
     parse_block (pre ++ Yield t :: rest) =
     PErr (TokenError "unindent does not match any outer indentation level"
                      (tstart t))) /\
  parse_block bad_dedent_src =
  PErr (TokenError "unindent does not match any outer indentation level" (3, 2)).
Proof.
  split; [|reflexivity].
  intros pre rest st t Hpre Hk Hw.
  rewrite (parse_block_after _ _ _ _ Hpre). simpl.
  unfold step. rewrite Hk. simpl.
  unfold exit_scope. rewrite Hk. simpl.
  now rewrite existsb_eqb_false.
Qed.

Lemma dedent_mismatch_error_witness :
  steps init (firstn 7 bad_dedent_src) <> None /\
  parse_block (firstn 7 bad_dedent_src ++
               Yield (Tok DEDENT "" (3,2) (3,2) L3) :: skipn 8 bad_dedent_src) =
  PErr (TokenError "unindent does not match any outer indentation level"
                   (3, 2)).
Proof.
  split; [vm_compute; discriminate|].
  destruct (steps init (firstn 7 bad_dedent_src)) as [st|] eqn:E;
    [|vm_compute in E; discriminate].
  pose proof E as E'. vm_compute in E'.
  apply (proj1 dedent_mismatch_error _ (skipn 8 bad_dedent_src) st
           (Tok DEDENT "" (3,2) (3,2) L3)) in E;
    [exact E | reflexivity | ].
  inversion E'; subst. vm_compute. intros [H|[H|H]]; discriminate || contradiction.
Defined.

Lemma close_not_open (v : string) :
  In v [")"; "]"; "}"] -> in_OPEN_PARENS v = false.
Proof. intros [H|[H|[H|[]]]]; subst; reflexivity. Qed.

Lemma close_has_opener (v : string) :
  In v [")"; "]"; "}"] -> exists o, CLOSE_PARENS v = Some o.
Proof. intros [H|[H|[H|[]]]]; subst; eexists; reflexivity. Qed.

(** C8: whenever [parse_block] meets a closing bracket [)], []] or [}]
    that does not close the bracket on top of the bracket stack (or the
    stack is empty), it raises "Unmatched <bracket>" at the token's start;
    on ["(1+2]"] this happens on the []] at line 1, column 4. *)
Theorem unmatched_close_error :
  (forall (pre rest : list scan_item) (st : pstate) (t : token),
     steps init pre = Some st ->
     kind t = OP ->
     In (val t) [")"; "]"; "}"] ->
     match parens st with
     | [] => True
     | p :: _ => CLOSE_PARENS (val t) <> Some p
     end ->
     parse_block (pre ++ Yield t :: rest) =
     PErr (TokenError ("Unmatched " ++ val t) (tstart t))) /\
  parse_block paren_mismatch_src = PErr (TokenError "Unmatched ]" (1, 4)).
Proof.
  split; [|reflexivity].
  intros pre rest st t Hpre Hk Hv Hm.
  rewrite (parse_block_after _ _ _ _ Hpre). simpl.
  assert (Hok : refs_ok st) by (eapply steps_ok; [apply init_refs_ok | exact Hpre]).
  destruct Hok as [_ [_ [_ [Hstmt _]]]].
  destruct (append_to_some (heap_of st) (stmt st) (VTok t) Hstmt) as [h Eh].
  destruct (close_has_opener _ Hv) as [o Eo].
  unfold step. rewrite Hk. simpl.
  unfold other_token. rewrite Hk, (close_not_open _ Hv). simpl.
  rewrite Eh. simpl. rewrite Eo.
  destruct (parens st) as [|p ps]; [reflexivity|].
  rewrite Eo in Hm.
  destruct (String.eqb p o) eqn:Ep; [|reflexivity].
  apply String.eqb_eq in Ep; subst. contradiction.
Qed.

Lemma unmatched_close_error_witness :
  parse_block (firstn 4 paren_mismatch_src ++
               Yield (Tok OP "]" (1,4) (1,5) "(1+2]") :: skipn 5 paren_mismatch_src) =
  PErr (TokenError "Unmatched ]" (1, 4)).
Proof.
  destruct (steps init (firstn 4 paren_mismatch_src)) as [st|] eqn:E;
    [|vm_compute in E; discriminate].
  pose proof E as E'. vm_compute in E'. inversion E'; subst.
  exact (proj1 unmatched_close_error _ _ _ (Tok OP "]" (1,4) (1,5) "(1+2]") E
           eq_refl (ltac:(simpl; tauto)) (ltac:(vm_compute; discriminate))).
Defined.

(** [parse_block] meeting an end marker while brackets are open raises
    "Unclosed parentheses" with the bracket stack innermost first (the
    stack is kept top first, so [parens st] is Python's [parens[::-1]]). *)
Lemma endmarker_open_error (pre rest : list scan_item) (st : pstate) (t : token) :
  steps init pre = Some st ->
  kind t = ENDMARKER ->
  parens st <> [] ->
  parse_block (pre ++ Yield t :: rest) =
  PErr (TokenError ("Unclosed parentheses " ++ repr_tuple (parens st)) (tstart t)).
Proof.
  intros Hpre Hk Hp.
  rewrite (parse_block_after _ _ _ _ Hpre). simpl.
  unfold step. rewrite Hk. simpl. unfold exit_scope. rewrite Hk. simpl.
  destruct (parens st); [contradiction|reflexivity].
Qed.

(** C4 refuted: on ["(1+1"] the end of input is reached with ["("] open,
    but the error raised is the scanner's "EOF in multi-line statement",
    which does not list the open brackets. *)
Lemma unclosed_eof_counterexample :
  (exists st, steps init (firstn 4 paren_open_src) = Some st /\ parens st = ["("]) /\
  parse_block paren_open_src <>
  PErr (TokenError ("Unclosed parentheses " ++ repr_tuple ["("]) (2, 0)).
Proof.
  split.
  - eexists. split; [vm_compute; reflexivity | reflexivity].
  - vm_compute. intros H. inversion H.
Qed.

(** C4 (amended): on ["(1+1"] the scanner itself raises "EOF in
    multi-line statement" at line 2, column 0, before any end marker;
    when [parse_block] receives an end marker while brackets are open,
    it raises "Unclosed parentheses" listing the open brackets innermost
    first, at the end marker's position. *)
Theorem unclosed_paren_error :
  parse_block paren_open_src =
  PErr (TokenError "EOF in multi-line statement" (2, 0)) /\
  (forall (pre rest : list scan_item) (st : pstate) (t : token),
     steps init pre = Some st ->
     kind t = ENDMARKER ->
     parens st <> [] ->
     parse_block (pre ++ Yield t :: rest) =
     PErr (TokenError ("Unclosed parentheses " ++ repr_tuple (parens st))
                      (tstart t))).
Proof.
  split; [reflexivity|].
  exact endmarker_open_error.
Qed.

(** ["(1+1"] followed by an end marker: the message lists [('(',)]. *)
Lemma unclosed_paren_error_witness :
  parse_block (firstn 4 paren_open_src ++ [Yield (Tok ENDMARKER "" (2,0) (2,0) "")]) =
  PErr (TokenError "Unclosed parentheses ('(',)" (2, 0)).
Proof.
  destruct (steps init (firstn 4 paren_open_src)) as [st|] eqn:E;
    [|vm_compute in E; discriminate].
  pose proof E as E'. vm_compute in E'. inversion E'; subst.
  exact (proj2 unclosed_paren_error _ [] _ (Tok ENDMARKER "" (2,0) (2,0) "") E
           eq_refl ltac:(discriminate)).
Defined.

End ParseErrors.

(* ------------------------------------------------------------------ *)
(** ** The reader of [tokenize_stream] *)

Module ReaderFacts.
Import Reader Scanned.

(** C7: with a BOM on line 1 the reader stops looking for a declaration
    after line 1 (the BOM has set [encoding]), so a [latin-1] declaration
    on line 2 raises nothing: line 2 is handed, undeclared, to the UTF-8
    stream reader.  The same declaration on the BOM line itself raises
    the conflict at [(1, 10)], the column of the name in the line without
    its BOM. *)
Theorem bom_second_line_declaration_unchecked (known_codec : string -> bool)
  (Hutf8 : known_codec "utf8" = true) :
  reader known_codec [RStr (BOM ++ nl); RStr ("# coding: latin-1" ++ nl)] =
  ([ODecoded "utf8" nl; OCodec "utf8" [RStr ("# coding: latin-1" ++ nl)]], None) /\
  reader known_codec [RStr (BOM ++ "# coding: latin-1" ++ nl)] =
  ([], Some (TokenError "UTF-8 BOM, but u'latin-1' encoding requested" (1, 10))).
Proof.
  split; [|vm_compute; reflexivity].
  unfold reader. vm_compute first_lines. cbv iota beta. now rewrite Hutf8.
Qed.

(** A few of the codec names Python 2.7 knows. *)
Definition some_codecs (enc : string) : bool :=
  existsb (String.eqb enc) ["utf8"; "utf-8"; "UTF-8"; "latin-1"; "ascii"].

Lemma bom_second_line_declaration_unchecked_witness :
  some_codecs "utf8" = true /\
  reader some_codecs [RStr (BOM ++ nl); RStr ("# coding: latin-1" ++ nl)] =
  ([ODecoded "utf8" nl; OCodec "utf8" [RStr ("# coding: latin-1" ++ nl)]], None).
Proof.
  split; [reflexivity|].
  exact (proj1 (bom_second_line_declaration_unchecked some_codecs eq_refl)).
Defined.

End ReaderFacts.

(* ------------------------------------------------------------------ *)
(** ** [parse_block] stores no layout markers *)

Module Markers.
Import Parse Flatten StoreFacts.

(** A token that is not an [INDENT], [DEDENT] or [ENDMARKER]. *)
Definition not_marker (t : token) : Prop :=
  kind t <> INDENT /\ kind t <> DEDENT /\ kind t <> ENDMARKER.

Definition value_ok (v : value) : Prop :=
  match v with
  | VTok t => not_marker t
  | _ => True
  end.

Definition heap_ok (h : heap) : Prop := Forall (Forall value_ok) h.

Lemma append_to_heap_ok (h h' : heap) (r : nat) (v : value) :
  append_to h r v = Some h' -> heap_ok h -> value_ok v -> heap_ok h'.
Proof.
  unfold append_to, heap_ok. destruct (nth_error h r) eqn:E; intros H; inversion H; subst.
  intros Hh Hv. apply Forall_set_cell; auto.
  apply Forall_app; split; [|constructor; auto].
  eapply Forall_forall in Hh; [exact Hh|]. eapply nth_error_In; eauto.
Qed.

Lemma alloc_heap_ok (h : heap) : heap_ok h -> heap_ok (snd (alloc h)).
Proof. unfold heap_ok; simpl. intros H. apply Forall_app; split; auto. Qed.

Lemma close_stmt_heap_ok (st st' : pstate) :
  heap_ok (heap_of st) -> close_stmt st = Some st' -> heap_ok (heap_of st').
Proof.
  intros Hh H. unfold close_stmt in H.
  destruct (scope st) as [r|s]; [|discriminate]. simpl in H.
  destruct (append_to _ r _) as [h2|] eqn:Ea; [|discriminate].
  inversion H; subst; simpl.
  apply alloc_heap_ok. eapply append_to_heap_ok; [exact Ea| |exact I].
  now apply alloc_heap_ok.
Qed.

Lemma exit_scope_heap_ok (st : pstate) (t : token) :
  heap_ok (heap_of st) ->
  (forall st', exit_scope st t = SNext st' -> heap_ok (heap_of st')) /\
  (forall h o, exit_scope st t = SRet h o -> heap_ok h).
Proof.
  intros Hh. unfold exit_scope.
  set (checked := if Nat.eqb (kind t) DEDENT then _ else _).
  assert (Hc : forall st1, checked = inl st1 -> heap_of st1 = heap_of st).
  { intros st1 E. subst checked.
    destruct (Nat.eqb (kind t) DEDENT).
    - destruct (negb _); inversion E; subst; reflexivity.
    - destruct (parens st); inversion E; subst; reflexivity. }
  destruct checked as [st1|e]; [|split; intros; discriminate].
  specialize (Hc st1 eq_refl).
  set (flushed := if nonempty (heap_of st1) (stmt st1) then _ else _).
  assert (Hf : forall st2, flushed = Some st2 -> heap_ok (heap_of st2)).
  { intros st2 E. subst flushed. destruct (nonempty _ _).
    - eapply close_stmt_heap_ok; [|exact E]. now rewrite Hc.
    - inversion E; subst. now rewrite Hc. }
  destruct flushed as [st2|]; [|split; intros; discriminate].
  specialize (Hf st2 eq_refl).
  destruct (scopes st2) as [|r rest].
  - destruct (Nat.eqb (kind t) DEDENT); split; intros; try discriminate.
    inversion H; subst; auto.
  - destruct (Nat.eqb (kind t) ENDMARKER); split; intros; try discriminate.
    inversion H; subst; auto.
Qed.

Lemma enter_scope_heap_ok (st st' : pstate) (t : token) :
  heap_ok (heap_of st) -> enter_scope st t = SNext st' -> heap_ok (heap_of st').
Proof.
  intros Hh H. unfold enter_scope in H.
  destruct (scope st) as [r|s].
  - destruct (nth_error (heap_of st) r) as [[|v c]|]; try discriminate.
    inversion H; subst; auto.
  - destruct s; discriminate.
Qed.

Lemma other_token_heap_ok (st st' : pstate) (t : token) :
  not_marker t ->
  heap_ok (heap_of st) -> other_token st t = SNext st' -> heap_ok (heap_of st').
Proof.
  intros Ht Hh H. unfold other_token in H.
  set (opened := if Nat.eqb (kind t) OP && in_OPEN_PARENS (val t) then _ else _) in H.
  assert (Ho : forall st1, opened = Some st1 -> heap_ok (heap_of st1)).
  { intros st1 E. subst opened.
    destruct (Nat.eqb (kind t) OP && in_OPEN_PARENS (val t)); [|now inversion E; subst].
    simpl in E.
    destruct (append_to _ (stmt st) _) as [h2|] eqn:Ea; [|discriminate].
    inversion E; subst; simpl.
    eapply append_to_heap_ok; [exact Ea| |exact I]. now apply alloc_heap_ok. }
  destruct opened as [st1|]; [|discriminate].
  specialize (Ho st1 eq_refl).
  destruct (append_to (heap_of st1) (stmt st1) (VTok t)) as [h|] eqn:Ea; [|discriminate].
  assert (Hh2 : heap_ok (heap_of (set_heap st1 h))).
  { simpl. eapply append_to_heap_ok; [exact Ea|exact Ho|exact Ht]. }
  destruct (Nat.eqb (kind t) OP).
  - destruct (CLOSE_PARENS (val t)) as [o|].
    + destruct (parens (set_heap st1 h)) as [|p ps]; [discriminate|].
      destruct (negb (String.eqb p o)); [discriminate|].
      destruct (scopes (set_heap st1 h)) as [|s rest]; [discriminate|].
      inversion H; subst; auto.
    + inversion H; subst; auto.
  - destruct (Nat.eqb (kind t) NEWLINE).
    + destruct (close_stmt (set_heap st1 h)) as [st3|] eqn:Ec; [|discriminate].
      inversion H; subst. eapply close_stmt_heap_ok; [exact Hh2|exact Ec].
    + inversion H; subst; auto.
Qed.

Lemma run_heap_ok (items : list scan_item) (st : pstate) (h : heap) (o : nat) :
  heap_ok (heap_of st) -> run st items = POk h o -> heap_ok h.
Proof.
  revert st; induction items as [|[t|e] items IH]; intros st Hh H; simpl in H;
    try discriminate.
  destruct (step st t) as [st'|h' o'|e] eqn:Es; try discriminate.
  - apply (IH st'); [|exact H].
    unfold step in Es.
    destruct (Nat.eqb (kind t) DEDENT || Nat.eqb (kind t) ENDMARKER) eqn:Ed.
    + exact (proj1 (exit_scope_heap_ok st t Hh) st' Es).
    + destruct (Nat.eqb (kind t) INDENT) eqn:Ei.
      * eapply enter_scope_heap_ok; eauto.
      * eapply other_token_heap_ok; eauto.
        apply orb_false_iff in Ed as [Ed1 Ed2].
        apply Nat.eqb_neq in Ed1, Ed2, Ei. repeat split; assumption.
  - inversion H; subst.
    unfold step in Es.
    destruct (Nat.eqb (kind t) DEDENT || Nat.eqb (kind t) ENDMARKER).
    + exact (proj2 (exit_scope_heap_ok st t Hh) h o Es).
    + destruct (Nat.eqb (kind t) INDENT).
      * unfold enter_scope in Es.
        destruct (scope st) as [r|[|c s]];
          [destruct (nth_error (heap_of st) r) as [[|v c]|]|..]; discriminate.
      * exfalso. unfold other_token in Es.
        destruct (if Nat.eqb (kind t) OP && in_OPEN_PARENS (val t) then _ else _);
          [|discriminate].
        destruct (append_to _ _ _); [|discriminate].
        destruct (Nat.eqb (kind t) OP);
          [destruct (CLOSE_PARENS (val t));
           [destruct (parens _); [|destruct (negb _); [|destruct (scopes _)]]|]
          | destruct (Nat.eqb (kind t) NEWLINE); [destruct (close_stmt _)|]];
          discriminate.
Qed.

Lemma then_in (x : fitem) (r : list fitem * fstatus) (k : unit -> list fitem * fstatus) :
  In x (fst (then_ r k)) -> In x (fst r) \/ In x (fst (k tt)).
Proof.
  unfold then_. destruct r as [ys [| |]]; simpl; auto.
  destruct (k tt) as [zs s]; simpl. intros H. apply in_app_or in H. exact H.
Qed.

(** Every token yielded by [flatten_stmt] is stored in some list. *)
Lemma flatten_stmt_from_heap (fuel : nat) (h : heap) (r : nat) (t : token) :
  In (FTok t) (fst (flatten_stmt fuel h r)) ->
  exists c, In c h /\ In (VTok t) c.
Proof.
  revert r; induction fuel as [|f IH]; intros r H; simpl in H; [contradiction|].
  destruct (nth_error h r) as [vs|] eqn:Er; [|contradiction].
  assert (Hin : forall v, In v vs -> exists c, In c h /\ In v c).
  { intros v Hv. exists vs. split; auto. eapply nth_error_In; eauto. }
  clear Er. induction vs as [|v vs IHvs]; simpl in H; [contradiction|].
  apply then_in in H as [H|H].
  - destruct v as [tk|r' a b l|a b].
    + destruct (Nat.eqb (kind tk) SUBEXPR); simpl in H.
      * apply in_map_iff in H as [? [E _]]; discriminate.
      * destruct H as [E|[]]. inversion E; subst. apply Hin. now left.
    + now apply (IH r').
    + destruct H as [E|[]]; discriminate.
  - apply IHvs; auto. intros v' Hv'. apply Hin. now right.
Qed.

Lemma flatten_block_from_heap (fuel : nat) (h : heap) (r : nat) (t : token) :
  In (FTok t) (fst (flatten_block fuel h r)) ->
  exists c, In c h /\ In (VTok t) c.
Proof.
  revert r; induction fuel as [|f IH]; intros r H; simpl in H; [contradiction|].
  destruct (nth_error h r) as [vs|]; [|contradiction].
  induction vs as [|v vs IHvs]; simpl in H; [contradiction|].
  destruct v as [tk|r' a b l|s b]; simpl in H; try contradiction.
  apply then_in in H as [H|H].
  - eapply flatten_stmt_from_heap; eauto.
  - apply then_in in H as [H|H].
    + destruct (nonempty h b); simpl in H; [now apply (IH b)|contradiction].
    + now apply IHvs.
Qed.

(** C10: when [parse_block] succeeds, flattening the returned block never
    yields an [INDENT], [DEDENT] or end-marker token, whatever the token
    stream (the three markers are never appended to any list). *)
Theorem flatten_no_markers (items : list scan_item) (h : heap) (out : nat)
  (Hok : parse_block items = POk h out) :
  forall (fuel : nat) (t : token),
    In (FTok t) (fst (flatten_block fuel h out)) ->
    kind t <> INDENT /\ kind t <> DEDENT /\ kind t <> ENDMARKER.
Proof.
  intros fuel t Hin.
  assert (Hh : heap_ok h).
  { eapply run_heap_ok; [|exact Hok]. unfold heap_ok; simpl. repeat constructor. }
  destruct (flatten_block_from_heap _ _ _ _ Hin) as [c [Hc Hv]].
  eapply Forall_forall in Hh; [|exact Hc].
  eapply Forall_forall in Hh; [|exact Hv].
  exact Hh.
Qed.

Lemma flatten_no_markers_witness :
  exists h out, parse_block Scanned.nested_src = POk h out /\
  (forall (fuel : nat) (t : token),
     In (FTok t) (fst (flatten_block fuel h out)) ->
     kind t <> INDENT /\ kind t <> DEDENT /\ kind t <> ENDMARKER).
Proof.
  eexists; eexists; split; [vm_compute; reflexivity|].
  apply (flatten_no_markers Scanned.nested_src). vm_compute. reflexivity.
Defined.

End Markers.

(* ------------------------------------------------------------------ *)
(** ** [detokenize] and tokens with empty text *)

Module DetokFacts.
Import Detok ScannedDetok.

(** C6: an empty-text token is not neutral.  Re-indenting by 2 the scanner
    output of ["if x:\n  if y:\n    a\n  b\n"], the [DEDENT] emitted at
    [(4, 2)] is the first token of line 4: it is not given the extra indent
    (it is excluded) and it leaves [lc = 2], so [b], which starts at the
    same point, is not treated as the first token of its line and loses
    the extra indent as well.  Without the [DEDENT], [b] is indented by 4.
    At indent 0 the two outputs agree. *)
Lemma empty_dedent_changes_output :
  detokenize two_level_src 2 =
    Some ("  if x:" ++ nl ++ "    if y:" ++ nl ++ "      a" ++ nl ++
          "  b" ++ nl)%string /\
  detokenize (head_toks ++ tail_toks) 2 =
    Some ("  if x:" ++ nl ++ "    if y:" ++ nl ++ "      a" ++ nl ++
          "    b" ++ nl)%string /\
  detokenize two_level_src 0 = detokenize (head_toks ++ tail_toks) 0.
Proof. split; [|split]; vm_compute; reflexivity. Qed.


End DetokFacts.

(* ------------------------------------------------------------------ *)
(** ** [parse_block] keeps every stored token, in order *)

Module RoundTrip.
Import Parse Flatten StoreFacts.

(** [SRep h a fp ys]: the list at [a] is a statement (tokens and
    [SUBEXPR] entries) whose flattening is [ys]; [fp] lists the lists it
    is made of. *)
Inductive SRep (h : heap) : nat -> list nat -> list fitem -> Prop :=
  | SRep_intro (a : nat) (vs : list value) (fp : list nat) (ys : list fitem) :
      nth_error h a = Some vs -> SElems h vs fp ys -> SRep h a (a :: fp) ys
with SElems (h : heap) : list value -> list nat -> list fitem -> Prop :=
  | SE_nil : SElems h [] [] []
  | SE_tok (t : token) (vs : list value) (fp : list nat) (ys : list fitem) :
      Nat.eqb (kind t) SUBEXPR = false -> SElems h vs fp ys ->
      SElems h (VTok t :: vs) fp (FTok t :: ys)
  | SE_sub (r : nat) (st en : pos) (ln : string) (vs : list value)
      (fp1 fp2 : list nat) (ys1 ys2 : list fitem) :
      SRep h r fp1 ys1 -> SElems h vs fp2 ys2 ->
      SElems h (VSub r st en ln :: vs) (fp1 ++ fp2) (ys1 ++ ys2).

Scheme SRep_mut := Induction for SRep Sort Prop
  with SElems_mut := Induction for SElems Sort Prop.

(** [BRep h a fp ys]: the list at [a] is a block of [(stmt, block)]
    pairs whose flattening is [ys]. *)
Inductive BRep (h : heap) : nat -> list nat -> list fitem -> Prop :=
  | BRep_intro (a : nat) (vs : list value) (fp : list nat) (ys : list fitem) :
      nth_error h a = Some vs -> BElems h vs fp ys -> BRep h a (a :: fp) ys
with BElems (h : heap) : list value -> list nat -> list fitem -> Prop :=
  | BE_nil : BElems h [] [] []
  | BE_pair (s b : nat) (vs : list value) (fps fpb fp : list nat)
      (yss ysb ys : list fitem) :
      SRep h s fps yss -> BRep h b fpb ysb -> BElems h vs fp ys ->
      BElems h (VPair s b :: vs) (fps ++ fpb ++ fp) (yss ++ ysb ++ ys).

Scheme BRep_mut := Induction for BRep Sort Prop
  with BElems_mut := Induction for BElems Sort Prop.

(** The inner loop of [flatten_stmt], named. *)
Fixpoint stmt_go (f : nat) (h : heap) (vs : list value) : list fitem * fstatus :=
  match vs with
  | [] => ([], Done)
  | v :: vs' =>
      then_
        (match v with
         | VTok t =>
             if Nat.eqb (kind t) SUBEXPR
             then (map FChar (list_ascii_of_string (val t)), Done)
             else ([FTok t], Done)
         | VSub r' _ _ _ => flatten_stmt f h r'
         | VPair a b => ([FPair a b], Done)
         end)
        (fun _ => stmt_go f h vs')
  end.

(** The inner loop of [flatten_block], named. *)
Fixpoint block_go (f : nat) (h : heap) (vs : list value) : list fitem * fstatus :=
  match vs with
  | [] => ([], Done)
  | VPair s b :: vs' =>
      then_ (flatten_stmt f h s)
        (fun _ =>
           then_ (if nonempty h b then flatten_block f h b else ([], Done))
             (fun _ => block_go f h vs'))
  | _ :: _ => ([], Crash)
  end.

Lemma flatten_stmt_S (f : nat) (h : heap) (a : nat) :
  flatten_stmt (S f) h a =
  match nth_error h a with
  | None => ([], Crash)
  | Some vs => stmt_go f h vs
  end.
Proof.
  simpl. destruct (nth_error h a) as [vs|]; [|reflexivity].
  induction vs as [|v vs IH]; simpl; [reflexivity|]. now rewrite IH.
Qed.

Lemma flatten_block_S (f : nat) (h : heap) (a : nat) :
  flatten_block (S f) h a =
  match nth_error h a with
  | None => ([], Crash)
  | Some vs => block_go f h vs
  end.
Proof.
  simpl. destruct (nth_error h a) as [vs|]; [|reflexivity].
  induction vs as [|[t|r st en ln|s b] vs IH]; simpl; try reflexivity.
  now rewrite IH.
Qed.

Lemma then_done (ys : list fitem) (k : unit -> list fitem * fstatus) (zs : list fitem) :
  k tt = (zs, Done) -> then_ (ys, Done) k = (ys ++ zs, Done).
Proof. intros E. unfold then_. now rewrite E. Qed.

Lemma SRep_flatten (h : heap) (a : nat) (fp : list nat) (ys : list fitem) :
  SRep h a fp ys ->
  exists n, forall f, n <= f -> flatten_stmt f h a = (ys, Done).
Proof.
  apply (SRep_mut h
    (fun a fp ys _ => exists n, forall f, n <= f -> flatten_stmt f h a = (ys, Done))
    (fun vs fp ys _ => exists n, forall f, n <= f -> stmt_go f h vs = (ys, Done))).
  - intros a0 vs fp0 ys0 E _ [n IH]. exists (S n). intros [|f] Hf; [lia|].
    rewrite flatten_stmt_S, E. apply IH. lia.
  - exists 0. intros f _. reflexivity.
  - intros t vs fp0 ys0 Ht _ [n IH]. exists n. intros f Hf. simpl.
    rewrite Ht. unfold then_. now rewrite (IH f Hf).
  - intros r st en ln vs fp1 fp2 ys1 ys2 _ [n1 IH1] _ [n2 IH2].
    exists (n1 + n2). intros f Hf. simpl. rewrite (IH1 f) by lia.
    apply then_done. apply IH2. lia.
Qed.

Lemma BRep_flatten (h : heap) (a : nat) (fp : list nat) (ys : list fitem) :
  BRep h a fp ys ->
  exists n, forall f, n <= f -> flatten_block f h a = (ys, Done).
Proof.
  apply (BRep_mut h
    (fun a fp ys _ => exists n, forall f, n <= f -> flatten_block f h a = (ys, Done))
    (fun vs fp ys _ => exists n, forall f, n <= f -> block_go f h vs = (ys, Done))).
  - intros a0 vs fp0 ys0 E _ [n IH]. exists (S n). intros [|f] Hf; [lia|].
    rewrite flatten_block_S, E. apply IH. lia.
  - exists 0. intros f _. reflexivity.
  - intros s b vs fps fpb fp0 yss ysb ys0 Hs Hb [nb IHb] _ [n IH].
    destruct (SRep_flatten _ _ _ _ Hs) as [ns IHs].
    exists (ns + nb + n). intros f Hf. simpl. rewrite (IHs f) by lia.
    apply then_done.
    destruct (nonempty h b) eqn:Ne.
    + rewrite (IHb f) by lia. apply then_done. apply IH. lia.
    + assert (ysb = []) as ->.
      { inversion Hb as [b' vsb fpb' ysb' Eb Hel]; subst.
        unfold nonempty in Ne. rewrite Eb in Ne.
        destruct vsb; [|discriminate]. now inversion Hel. }
      apply then_done. apply IH. lia.
Qed.

(** Representations only read the lists of their footprint. *)
Lemma SRep_frame (h h' : heap) (a : nat) (fp : list nat) (ys : list fitem) :
  SRep h a fp ys ->
  (forall x, In x fp -> nth_error h' x = nth_error h x) ->
  SRep h' a fp ys.
Proof.
  revert a fp ys.
  apply (SRep_mut h
    (fun a fp ys _ => (forall x, In x fp -> nth_error h' x = nth_error h x) ->
                      SRep h' a fp ys)
    (fun vs fp ys _ => (forall x, In x fp -> nth_error h' x = nth_error h x) ->
                       SElems h' vs fp ys)).
  - intros a vs fp ys E _ IH Hx. apply SRep_intro with vs.
    + rewrite Hx; [exact E|now left].
    + apply IH. intros x Hin. apply Hx. now right.
  - intros _. constructor.
  - intros t vs fp ys Ht _ IH Hx. constructor; auto.
  - intros r st en ln vs fp1 fp2 ys1 ys2 _ IH1 _ IH2 Hx. constructor.
    + apply IH1. intros x Hin. apply Hx. apply in_or_app. now left.
    + apply IH2. intros x Hin. apply Hx. apply in_or_app. now right.
Qed.

Lemma BRep_frame (h h' : heap) (a : nat) (fp : list nat) (ys : list fitem) :
  BRep h a fp ys ->
  (forall x, In x fp -> nth_error h' x = nth_error h x) ->
  BRep h' a fp ys.
Proof.
  revert a fp ys.
  apply (BRep_mut h
    (fun a fp ys _ => (forall x, In x fp -> nth_error h' x = nth_error h x) ->
                      BRep h' a fp ys)
    (fun vs fp ys _ => (forall x, In x fp -> nth_error h' x = nth_error h x) ->
                       BElems h' vs fp ys)).
  - intros a vs fp ys E _ IH Hx. apply BRep_intro with vs.
    + rewrite Hx; [exact E|now left].
    + apply IH. intros x Hin. apply Hx. now right.
  - intros _. constructor.
  - intros s b vs fps fpb fp ys1 ys2 ys3 Hs _ IHb _ IH Hx. constructor.
    + eapply SRep_frame; [exact Hs|]. intros x Hin. apply Hx.
      apply in_or_app. now left.
    + apply IHb. intros x Hin. apply Hx. apply in_or_app. right.
      apply in_or_app. now left.
    + apply IH. intros x Hin. apply Hx. apply in_or_app. right.
      apply in_or_app. now right.
Qed.

(** The lists of a footprint exist. *)
Lemma SRep_bound (h : heap) (a : nat) (fp : list nat) (ys : list fitem) :
  SRep h a fp ys -> forall x, In x fp -> x < List.length h.
Proof.
  revert a fp ys.
  apply (SRep_mut h
    (fun a fp ys _ => forall x, In x fp -> x < List.length h)
    (fun vs fp ys _ => forall x, In x fp -> x < List.length h)).
  - intros a vs fp ys E _ IH x [<-|Hin]; [|auto].
    apply nth_error_Some. congruence.
  - intros x [].
  - auto.
  - intros r st en ln vs fp1 fp2 ys1 ys2 _ IH1 _ IH2 x Hin.
    apply in_app_or in Hin as [?|?]; auto.
Qed.

Lemma BRep_bound (h : heap) (a : nat) (fp : list nat) (ys : list fitem) :
  BRep h a fp ys -> forall x, In x fp -> x < List.length h.
Proof.
  revert a fp ys.
  apply (BRep_mut h
    (fun a fp ys _ => forall x, In x fp -> x < List.length h)
    (fun vs fp ys _ => forall x, In x fp -> x < List.length h)).
  - intros a vs fp ys E _ IH x [<-|Hin]; [|auto].
    apply nth_error_Some. congruence.
  - intros x [].
  - intros s b vs fps fpb fp ys1 ys2 ys3 Hs _ IHb _ IH x Hin.
    apply in_app_or in Hin as [Hin|Hin]; [eapply SRep_bound; eauto|].
    apply in_app_or in Hin as [?|?]; auto.
Qed.

Lemma SElems_bound (h : heap) (vs : list value) (fp : list nat) (ys : list fitem) :
  SElems h vs fp ys -> forall x, In x fp -> x < List.length h.
Proof.
  induction 1 as [|t vs fp ys _ _ IH|r st en ln vs fp1 fp2 ys1 ys2 Hr _ IH];
    intros x Hin; [destruct Hin|auto|].
  apply in_app_or in Hin as [?|?]; [eapply SRep_bound; eauto|auto].
Qed.

Lemma BElems_bound (h : heap) (vs : list value) (fp : list nat) (ys : list fitem) :
  BElems h vs fp ys -> forall x, In x fp -> x < List.length h.
Proof.
  induction 1 as [|s b vs fps fpb fp ys1 ys2 ys3 Hs Hb _ IH];
    intros x Hin; [destruct Hin|].
  apply in_app_or in Hin as [Hin|Hin]; [eapply SRep_bound; eauto|].
  apply in_app_or in Hin as [?|?]; [eapply BRep_bound; eauto|auto].
Qed.

Lemma SElems_app (h : heap) (vs1 vs2 : list value) (fp1 fp2 : list nat)
  (ys1 ys2 : list fitem) :
  SElems h vs1 fp1 ys1 -> SElems h vs2 fp2 ys2 ->
  SElems h (vs1 ++ vs2) (fp1 ++ fp2) (ys1 ++ ys2).
Proof.
  induction 1; intros H2; simpl; auto.
  - constructor; auto.
  - rewrite <- !app_assoc. constructor; auto.
Qed.

Lemma BElems_app (h : heap) (vs1 vs2 : list value) (fp1 fp2 : list nat)
  (ys1 ys2 : list fitem) :
  BElems h vs1 fp1 ys1 -> BElems h vs2 fp2 ys2 ->
  BElems h (vs1 ++ vs2) (fp1 ++ fp2) (ys1 ++ ys2).
Proof.
  induction 1; intros H2; simpl; auto.
  rewrite <- !app_assoc. constructor; auto.
Qed.

Lemma SElems_app_inv (h : heap) (vs1 vs2 : list value) (fp : list nat)
  (ys : list fitem) :
  SElems h (vs1 ++ vs2) fp ys ->
  exists fp1 fp2 ys1 ys2, fp = fp1 ++ fp2 /\ ys = ys1 ++ ys2 /\
    SElems h vs1 fp1 ys1 /\ SElems h vs2 fp2 ys2.
Proof.
  revert fp ys; induction vs1 as [|v vs1 IH]; intros fp ys H; simpl in H.
  - exists [], fp, [], ys. repeat split; auto. constructor.
  - inversion H as [|t vs fp' ys' Ht Hr|r st en ln vs fp1 fp2 ys1 ys2 Hs Hr];
      subst.
    + destruct (IH _ _ Hr) as (fp1 & fp2 & ys1 & ys2 & -> & -> & H1 & H2).
      exists fp1, fp2, (FTok t :: ys1), ys2. repeat split; auto.
      constructor; auto.
    + destruct (IH _ _ Hr) as (f1 & f2 & y1 & y2 & -> & -> & H1 & H2).
      exists (fp1 ++ f1), f2, (ys1 ++ y1), y2.
      rewrite <- !app_assoc. repeat split; auto. constructor; auto.
Qed.

Lemma BElems_app_inv (h : heap) (vs1 vs2 : list value) (fp : list nat)
  (ys : list fitem) :
  BElems h (vs1 ++ vs2) fp ys ->
  exists fp1 fp2 ys1 ys2, fp = fp1 ++ fp2 /\ ys = ys1 ++ ys2 /\
    BElems h vs1 fp1 ys1 /\ BElems h vs2 fp2 ys2.
Proof.
  revert fp ys; induction vs1 as [|v vs1 IH]; intros fp ys H; simpl in H.
  - exists [], fp, [], ys. repeat split; auto. constructor.
  - inversion H as [|s b vs fps fpb fp' yss ysb ys' Hs Hb Hr]; subst.
    destruct (IH _ _ Hr) as (f1 & f2 & y1 & y2 & -> & -> & H1 & H2).
    exists (fps ++ fpb ++ f1), f2, (yss ++ ysb ++ y1), y2.
    rewrite <- !app_assoc. repeat split; auto. constructor; auto.
Qed.

Lemma SElems_frame (h h' : heap) (vs : list value) (fp : list nat) (ys : list fitem) :
  SElems h vs fp ys ->
  (forall x, In x fp -> nth_error h' x = nth_error h x) ->
  SElems h' vs fp ys.
Proof.
  induction 1 as [|t vs fp ys Ht _ IH|r st en ln vs fp1 fp2 ys1 ys2 Hr _ IH];
    intros Hx; constructor; auto.
  - eapply SRep_frame; [exact Hr|]. intros x Hin. apply Hx. apply in_or_app; auto.
  - apply IH. intros x Hin. apply Hx. apply in_or_app; auto.
Qed.

Lemma BElems_frame (h h' : heap) (vs : list value) (fp : list nat) (ys : list fitem) :
  BElems h vs fp ys ->
  (forall x, In x fp -> nth_error h' x = nth_error h x) ->
  BElems h' vs fp ys.
Proof.
  induction 1 as [|s b vs fps fpb fp ys1 ys2 ys3 Hs Hb _ IH]; intros Hx;
    constructor.
  - eapply SRep_frame; [exact Hs|]. intros x Hin. apply Hx. apply in_or_app; auto.
  - eapply BRep_frame; [exact Hb|]. intros x Hin. apply Hx.
    apply in_or_app; right; apply in_or_app; auto.
  - apply IH. intros x Hin. apply Hx. apply in_or_app; right; apply in_or_app; auto.
Qed.

(** The open blocks, outermost at the bottom: [BSpine h frames cur root fp
    ys] says that the saved scopes [frames] (top first) lead from [root]
    down to the block [cur], each one ending with the [(stmt, block)] pair
    whose block is the next one; [ys] is what [root] flattens to before
    the contents of [cur], and [fp] the lists of the frames. *)
Inductive BSpine (h : heap) : list nat -> nat -> nat -> list nat -> list fitem -> Prop :=
  | BS_root (a : nat) : BSpine h [] a a [] []
  | BS_frame (p : nat) (rest : list nat) (root : nat) (fp : list nat)
      (ys : list fitem) (vs : list value) (s b : nat) (fpv fps : list nat)
      (yv yss : list fitem) :
      BSpine h rest p root fp ys ->
      nth_error h p = Some (vs ++ [VPair s b]) ->
      BElems h vs fpv yv -> SRep h s fps yss ->
      BSpine h (p :: rest) b root (fp ++ p :: fpv ++ fps) (ys ++ yv ++ yss).

(** The open brackets of the pending statement: each saved statement
    buffer ends with the [SUBEXPR] entry of the next one. *)
Inductive SSpine (h : heap) : list nat -> nat -> nat -> list nat -> list fitem -> Prop :=
  | SS_root (a : nat) : SSpine h [] a a [] []
  | SS_frame (p : nat) (rest : list nat) (root : nat) (fp : list nat)
      (ys : list fitem) (vs : list value) (sub : nat) (st en : pos)
      (ln : string) (fpv : list nat) (yv : list fitem) :
      SSpine h rest p root fp ys ->
      nth_error h p = Some (vs ++ [VSub sub st en ln]) ->
      SElems h vs fpv yv ->
      SSpine h (p :: rest) sub root (fp ++ p :: fpv) (ys ++ yv).

Lemma BSpine_frame (h h' : heap) (fr : list nat) (cur root : nat) (fp : list nat)
  (ys : list fitem) :
  BSpine h fr cur root fp ys ->
  (forall x, In x fp -> nth_error h' x = nth_error h x) ->
  BSpine h' fr cur root fp ys.
Proof.
  induction 1 as [a|p rest root fp ys vs s b fpv fps yv yss Hsp IH Ep Hv Hs];
    intros Hx; [constructor|].
  assert (Hin : forall y, In y (p :: fpv ++ fps) -> In y (fp ++ p :: fpv ++ fps))
    by (intros y Hy; apply in_or_app; auto).
  econstructor.
  - apply IH. intros x Hin'. apply Hx. apply in_or_app; auto.
  - rewrite Hx; [exact Ep|]. apply Hin. now left.
  - eapply BElems_frame; [exact Hv|]. intros x Hin'. apply Hx, Hin.
    right. apply in_or_app; auto.
  - eapply SRep_frame; [exact Hs|]. intros x Hin'. apply Hx, Hin.
    right. apply in_or_app; auto.
Qed.

Lemma SSpine_frame (h h' : heap) (fr : list nat) (cur root : nat) (fp : list nat)
  (ys : list fitem) :
  SSpine h fr cur root fp ys ->
  (forall x, In x fp -> nth_error h' x = nth_error h x) ->
  SSpine h' fr cur root fp ys.
Proof.
  induction 1 as [a|p rest root fp ys vs sub st en ln fpv yv Hsp IH Ep Hv];
    intros Hx; [constructor|].
  econstructor.
  - apply IH. intros x Hin'. apply Hx. apply in_or_app; auto.
  - rewrite Hx; [exact Ep|]. apply in_or_app. right. now left.
  - eapply SElems_frame; [exact Hv|]. intros x Hin'. apply Hx.
    apply in_or_app. right. now right.
Qed.

Lemma BSpine_bound (h : heap) (fr : list nat) (cur root : nat) (fp : list nat)
  (ys : list fitem) :
  BSpine h fr cur root fp ys -> forall x, In x fp -> x < List.length h.
Proof.
  induction 1 as [a|p rest root fp ys vs s b fpv fps yv yss Hsp IH Ep Hv Hs];
    intros x Hin; [destruct Hin|].
  apply in_app_or in Hin as [Hin|[<-|Hin]]; auto.
  - apply nth_error_Some. congruence.
  - apply in_app_or in Hin as [Hin|Hin];
      [eapply BElems_bound; eauto|eapply SRep_bound; eauto].
Qed.

Lemma SSpine_bound (h : heap) (fr : list nat) (cur root : nat) (fp : list nat)
  (ys : list fitem) :
  SSpine h fr cur root fp ys -> forall x, In x fp -> x < List.length h.
Proof.
  induction 1 as [a|p rest root fp ys vs sub st en ln fpv yv Hsp IH Ep Hv];
    intros x Hin; [destruct Hin|].
  apply in_app_or in Hin as [Hin|[<-|Hin]]; auto.
  - apply nth_error_Some. congruence.
  - eapply SElems_bound; eauto.
Qed.

(** Closing the open blocks: the root holds everything. *)
Lemma BSpine_close (h : heap) (fr : list nat) (cur root : nat) (fp : list nat)
  (ys : list fitem) :
  BSpine h fr cur root fp ys ->
  forall fpc yc, BRep h cur fpc yc -> BRep h root (fp ++ fpc) (ys ++ yc).
Proof.
  induction 1 as [a|p rest root fp ys vs s b fpv fps yv yss Hsp IH Ep Hv Hs];
    intros fpc yc Hc; [exact Hc|].
  assert (Hp : BRep h p (p :: fpv ++ fps ++ fpc ++ []) (yv ++ yss ++ yc ++ [])).
  { apply BRep_intro with (vs ++ [VPair s b]); [exact Ep|].
    apply BElems_app; [exact Hv|]. constructor; auto. constructor. }
  rewrite !app_nil_r in Hp.
  specialize (IH _ _ Hp).
  rewrite <- !app_assoc. simpl. rewrite <- !app_assoc. exact IH.
Qed.

(** Lists of distinct references. *)
Lemma NoDup_app_l (l1 l2 : list nat) : NoDup (l1 ++ l2) -> NoDup l1.
Proof.
  induction l1 as [|x l1 IH]; intros H; [constructor|].
  inversion H as [|? ? Hx Hd]; subst. constructor; auto.
  intros Hin. apply Hx. apply in_or_app; auto.
Qed.

Lemma NoDup_app_r (l1 l2 : list nat) : NoDup (l1 ++ l2) -> NoDup l2.
Proof.
  induction l1 as [|x l1 IH]; intros H; [exact H|].
  inversion H; subst. auto.
Qed.

Lemma NoDup_app_disj (l1 l2 : list nat) (x : nat) :
  NoDup (l1 ++ l2) -> In x l1 -> In x l2 -> False.
Proof.
  induction l1 as [|y l1 IH]; intros H H1 H2; [destruct H1|].
  inversion H as [|? ? Hy Hd]; subst.
  destruct H1 as [<-|H1]; [apply Hy; apply in_or_app; auto|eauto].
Qed.

Lemma NoDup_app_fresh (l : list nat) (n : nat) :
  NoDup l -> (forall x, In x l -> x < n) -> NoDup (l ++ [n]).
Proof.
  induction l as [|x l IH]; intros H Hlt; simpl; [repeat constructor; auto|].
  inversion H; subst. constructor.
  - intros Hin. apply in_app_or in Hin as [Hin|[Heq|[]]]; [auto|].
    specialize (Hlt x (or_introl eq_refl)). lia.
  - apply IH; auto. intros y Hy. apply Hlt. now right.
Qed.

Lemma append_to_spec (h h' : heap) (r : nat) (v : value) :
  append_to h r v = Some h' ->
  exists c, nth_error h r = Some c /\ nth_error h' r = Some (c ++ [v]) /\
    (forall x, x <> r -> nth_error h' x = nth_error h x) /\
    List.length h' = List.length h.
Proof.
  intros E. pose proof (append_to_nth _ _ r r _ E) as Hr.
  rewrite Nat.eqb_refl in Hr.
  destruct (nth_error h r) as [c|] eqn:Ec; [|unfold append_to in E; now rewrite Ec in E].
  exists c. repeat split; auto.
  - intros x Hx. rewrite (append_to_nth _ _ r x _ E).
    destruct (Nat.eqb_spec r x); [congruence|reflexivity].
  - eapply append_to_length; eauto.
Qed.

Lemma alloc_old (h : heap) (x : nat) :
  x < List.length h -> nth_error (h ++ [[]]) x = nth_error h x.
Proof. intros Hx. apply nth_error_app1. exact Hx. Qed.

Lemma alloc_new (h : heap) : nth_error (h ++ [[]]) (List.length h) = Some [].
Proof. rewrite nth_error_app2, Nat.sub_diag; reflexivity. Qed.

Lemma NoDup_head_not_in (a : nat) (l : list nat) : NoDup (a :: l) -> forall x, In x l -> x <> a.
Proof. intros H x Hx ->. inversion H; auto. Qed.

Lemma NoDup_not_head (l1 l2 : list nat) (a x : nat) :
  NoDup (l1 ++ a :: l2) -> In x l1 -> x <> a.
Proof.
  intros H Hx ->. eapply (NoDup_app_disj l1 (a :: l2)); eauto. now left.
Qed.

(** [close_stmt] outside brackets: the pending statement becomes the last
    pair of the current block, and a fresh statement buffer is started. *)
Lemma close_stmt_spec (st st' : pstate) (cur : nat) (bfr fpB fpC fpT : list nat)
  (yB yC yT : list fitem) :
  close_stmt st = Some st' -> scope st = PRef cur ->
  BSpine (heap_of st) bfr cur (output st) fpB yB ->
  BRep (heap_of st) cur fpC yC ->
  SRep (heap_of st) (stmt st) fpT yT ->
  NoDup (fpB ++ fpC ++ fpT) ->
  exists b, scopes st' = scopes st /\ parens st' = parens st /\
    indents st' = indents st /\ output st' = output st /\ scope st' = scope st /\
    BSpine (heap_of st') bfr cur (output st) fpB yB /\
    BRep (heap_of st') cur (fpC ++ fpT ++ [b]) (yC ++ yT) /\
    SRep (heap_of st') (stmt st') [stmt st'] [] /\
    NoDup ((fpB ++ fpC ++ fpT ++ [b]) ++ [stmt st']).
Proof.
  intros Ecl Esc HB HC HT Hnd. unfold close_stmt in Ecl. rewrite Esc in Ecl.
  set (h := heap_of st) in *. simpl in Ecl.
  destruct (append_to (h ++ [[]]) cur (VPair (stmt st) (List.length h))) as [h2|] eqn:Ea;
    [|discriminate].
  injection Ecl as <-. simpl.
  exists (List.length h).
  destruct (append_to_spec _ _ _ _ Ea) as (c & Ec & Ec' & Hoth & Hlen).
  rewrite length_app in Hlen. simpl in Hlen.
  inversion HC as [cur' vs fpc ys' Evs Hvs]; subst cur' fpC yC.
  assert (Hcur : cur < List.length h) by (apply nth_error_Some; congruence).
  rewrite alloc_old in Ec by exact Hcur. rewrite Evs in Ec. injection Ec as <-.
  (* the new store agrees with the old one away from [cur] *)
  assert (Hsame : forall x, x < List.length h -> x <> cur ->
                  nth_error (h2 ++ [[]]) x = nth_error h x).
  { intros x Hx Hne. rewrite alloc_old by lia. rewrite Hoth by exact Hne.
    apply alloc_old. exact Hx. }
  assert (HndB : forall x, In x fpB -> x <> cur).
  { intros x Hx. apply (NoDup_not_head fpB (fpc ++ fpT) cur x); auto. }
  pose proof (NoDup_app_r _ _ Hnd) as Hnd2.
  assert (HndC : forall x, In x (fpc ++ fpT) -> x <> cur).
  { intros x Hx. simpl in Hnd2. eapply NoDup_head_not_in; [exact Hnd2|].
    exact Hx. }
  do 4 (split; [reflexivity|]). split; [now rewrite Esc|].
  split; [|split; [|split]].
  - eapply BSpine_frame; [exact HB|]. intros x Hx. apply Hsame; auto.
    eapply BSpine_bound; eauto.
  - apply BRep_intro with (vs ++ [VPair (stmt st) (List.length h)]).
    + rewrite alloc_old by lia. exact Ec'.
    + assert (Hp : BElems (h2 ++ [[]]) [VPair (stmt st) (List.length h)]
                     (fpT ++ [List.length h] ++ []) (yT ++ [] ++ [])).
      { constructor; [|apply BRep_intro with []|]; try constructor.
        - eapply SRep_frame; [exact HT|]. intros x Hx. apply Hsame.
          + eapply SRep_bound; eauto.
          + apply HndC. apply in_or_app; auto.
        - rewrite alloc_old by lia. rewrite Hoth by lia. apply alloc_new. }
      rewrite !app_nil_r in Hp.
      apply (BElems_app _ _ _ _ _ _ _); [|exact Hp].
      eapply BElems_frame; [exact Hvs|]. intros x Hx. apply Hsame.
      * eapply BElems_bound; eauto.
      * apply HndC. apply in_or_app; auto.
  - apply SRep_intro with []; [|constructor].
    apply alloc_new.
  - rewrite Hlen. replace (S (List.length h)) with (List.length h + 1) by lia.
    apply NoDup_app_fresh.
    + replace (fpB ++ (cur :: fpc) ++ fpT ++ [List.length h]) with
        ((fpB ++ (cur :: fpc) ++ fpT) ++ [List.length h])
        by (now rewrite <- !app_assoc).
      apply NoDup_app_fresh; [exact Hnd|].
      intros x Hx. apply in_app_or in Hx as [Hx|Hx]; [eapply BSpine_bound; eauto|].
      apply in_app_or in Hx as [Hx|Hx]; [eapply BRep_bound; eauto|eapply SRep_bound; eauto].
    + intros x Hx. apply in_app_or in Hx as [Hx|Hx]; [eapply BSpine_bound in Hx; eauto; lia|].
      apply in_app_or in Hx as [Hx|Hx]; [eapply BRep_bound in Hx; eauto; lia|].
      apply in_app_or in Hx as [Hx|[<-|[]]]; [eapply SRep_bound in Hx; eauto; lia|lia].
Qed.

(** The invariant of the loop of [parse_block] on a well-formed stream:
    the saved scopes are the open brackets' statement buffers above the
    open blocks; [ys] (the tokens consumed so far, markers left out) is
    what the output block flattens to, followed by the pending
    statement. *)
Definition Inv (st : pstate) (ys : list fitem) : Prop :=
  exists bfr cur fpB yB fpC yC sfr sroot fpS yS fpT yT,
    scopes st = sfr ++ bfr /\ scope st = PRef cur /\
    List.length (parens st) = List.length sfr /\
    BSpine (heap_of st) bfr cur (output st) fpB yB /\
    BRep (heap_of st) cur fpC yC /\
    SSpine (heap_of st) sfr (stmt st) sroot fpS yS /\
    SRep (heap_of st) (stmt st) fpT yT /\
    NoDup (fpB ++ fpC ++ fpS ++ fpT) /\
    ys = yB ++ yC ++ yS ++ yT.

Lemma init_inv : Inv init [].
Proof.
  exists [], 0, [], [], [0], [], [], 1, [], [], [1], [].
  split; [reflexivity|]. split; [reflexivity|]. split; [reflexivity|].
  split; [constructor|].
  split; [apply BRep_intro with []; [reflexivity|constructor]|].
  split; [constructor|].
  split; [apply SRep_intro with []; [reflexivity|constructor]|].
  split; [|reflexivity].
  simpl. constructor; [intros [H|[]]; discriminate|].
  constructor; [intros []|constructor].
Qed.

(** [stmt.append(tok)]: only the pending statement changes. *)
Lemma stmt_append (h h' : heap) (bfr sfr : list nat) (cur root scur sroot : nat)
  (fpB fpC fpS fpT : list nat) (yB yC yS yT : list fitem) (t : token) :
  BSpine h bfr cur root fpB yB -> BRep h cur fpC yC ->
  SSpine h sfr scur sroot fpS yS -> SRep h scur fpT yT ->
  NoDup (fpB ++ fpC ++ fpS ++ fpT) -> Nat.eqb (kind t) SUBEXPR = false ->
  append_to h scur (VTok t) = Some h' ->
  BSpine h' bfr cur root fpB yB /\ BRep h' cur fpC yC /\
  SSpine h' sfr scur sroot fpS yS /\ SRep h' scur fpT (yT ++ [FTok t]) /\
  List.length h' = List.length h.
Proof.
  intros HB HC HS HT Hnd Ht Ea.
  destruct (append_to_spec _ _ _ _ Ea) as (c & Ec & Ec' & Hoth & Hlen).
  inversion HT as [a vs fpt ys' Evs Hvs]; subst a fpT yT.
  rewrite Evs in Ec. injection Ec as <-.
  rewrite !app_assoc in Hnd.
  assert (Hout : forall x, In x ((fpB ++ fpC) ++ fpS) -> x <> scur)
    by (intros x Hx; eapply NoDup_not_head; eauto).
  assert (Hin : forall x, In x fpt -> x <> scur).
  { apply NoDup_app_r in Hnd. apply NoDup_head_not_in. exact Hnd. }
  repeat split; auto.
  - eapply BSpine_frame; [exact HB|]. intros x Hx. apply Hoth, Hout.
    apply in_or_app; left; apply in_or_app; auto.
  - eapply BRep_frame; [exact HC|]. intros x Hx. apply Hoth, Hout.
    apply in_or_app; left; apply in_or_app; auto.
  - eapply SSpine_frame; [exact HS|]. intros x Hx. apply Hoth, Hout.
    apply in_or_app; auto.
  - apply SRep_intro with (vs ++ [VTok t]); [exact Ec'|].
    rewrite <- (app_nil_r fpt).
    apply SElems_app; [|constructor; auto; constructor].
    eapply SElems_frame; [exact Hvs|]. intros x Hx. apply Hoth, Hin.
    exact Hx.
Qed.

(** Bracket depth after token [t]: the length of [parens] that the
    loop of [parse_block] keeps for a token stream without errors. *)
Definition depth_step (d : nat) (t : token) : nat :=
  if Nat.eqb (kind t) OP then
    if in_OPEN_PARENS (val t) then S d
    else match CLOSE_PARENS (val t) with Some _ => pred d | None => d end
  else d.

(** The scope markers, which [parse_block] consumes without storing. *)
Definition is_marker (t : token) : bool :=
  Nat.eqb (kind t) INDENT || Nat.eqb (kind t) DEDENT || Nat.eqb (kind t) ENDMARKER.

Definition mark (t : token) : list fitem := if is_marker t then [] else [FTok t].

(** A well-formed stream: it ends with its only [ENDMARKER], holds no
    token of kind [SUBEXPR], and has [NEWLINE], [INDENT] and [DEDENT]
    only outside brackets, as Python's tokenizer produces it. *)
Fixpoint wf_from (d : nat) (ts : list token) : bool :=
  match ts with
  | [] => false
  | t :: ts' =>
      if Nat.eqb (kind t) ENDMARKER then match ts' with [] => true | _ => false end
      else negb (Nat.eqb (kind t) SUBEXPR) &&
           (if existsb (Nat.eqb (kind t)) [NEWLINE; INDENT; DEDENT]
            then Nat.eqb d 0 else true) &&
           wf_from (depth_step d t) ts'
  end.

Lemma open_not_close (v : string) : in_OPEN_PARENS v = true -> CLOSE_PARENS v = None.
Proof.
  unfold in_OPEN_PARENS, CLOSE_PARENS. simpl.
  destruct (String.eqb_spec v "{"); [subst; reflexivity|].
  destruct (String.eqb_spec v "["); [subst; reflexivity|].
  destruct (String.eqb_spec v "("); [subst; reflexivity|]. discriminate.
Qed.

Lemma open_paren_inv (st st' : pstate) (t : token) (ys : list fitem) :
  Inv st ys -> Nat.eqb (kind t) SUBEXPR = false ->
  Nat.eqb (kind t) OP && in_OPEN_PARENS (val t) = true ->
  other_token st t = SNext st' ->
  Inv st' (ys ++ [FTok t]) /\ List.length (parens st') = S (List.length (parens st)).
Proof.
  intros HI Hsub Eo Hstep.
  destruct HI as (bfr & cur & fpB & yB & fpC & yC & sfr & sroot & fpS & yS & fpT & yT &
                  Esc & Ecur & Elen & HB & HC & HS & HT & Hnd & ->).
  unfold other_token in Hstep. rewrite Eo in Hstep. unfold alloc in Hstep.
  set (h := heap_of st) in *.
  destruct (append_to (h ++ [[]]) (stmt st)
              (VSub (List.length h) (tstart t) (tend t) (tline t))) as [h2|] eqn:Ea1;
    [|discriminate].
  simpl in Hstep.
  destruct (append_to h2 (List.length h) (VTok t)) as [h3|] eqn:Ea2; [|discriminate].
  apply andb_prop in Eo as [Eop Eopen].
  rewrite Eop, (open_not_close _ Eopen) in Hstep. injection Hstep as <-.
  split; [|reflexivity].
  inversion HT as [a vs fpt ys' Evs Hvs]; subst a fpT yT.
  assert (Hscur : stmt st < List.length h) by (apply nth_error_Some; congruence).
  destruct (append_to_spec _ _ _ _ Ea1) as (c1 & Ec1 & Ec1' & Hoth1 & Hlen1).
  rewrite alloc_old, Evs in Ec1 by exact Hscur. injection Ec1 as <-.
  destruct (append_to_spec _ _ _ _ Ea2) as (c2 & Ec2 & Ec2' & Hoth2 & Hlen2).
  rewrite Hoth1, alloc_new in Ec2 by lia. injection Ec2 as <-.
  rewrite length_app in Hlen1. simpl in Hlen1.
  assert (Hsame : forall x, x < List.length h -> x <> stmt st ->
                  nth_error h3 x = nth_error h x).
  { intros x Hx Hne. rewrite Hoth2 by lia. rewrite Hoth1 by exact Hne.
    apply alloc_old. exact Hx. }
  rewrite !app_assoc in Hnd.
  assert (Hout : forall x, In x ((fpB ++ fpC) ++ fpS) -> x <> stmt st)
    by (intros x Hx; eapply NoDup_not_head; eauto).
  assert (Hin : forall x, In x fpt -> x <> stmt st).
  { apply NoDup_app_r in Hnd. apply NoDup_head_not_in. exact Hnd. }
  assert (HbB := BSpine_bound _ _ _ _ _ _ HB).
  assert (HbC := BRep_bound _ _ _ _ HC).
  assert (HbS := SSpine_bound _ _ _ _ _ _ HS).
  assert (HbT := SElems_bound _ _ _ _ Hvs).
  unfold Inv. simpl.
  exists bfr, cur, fpB, yB, fpC, yC, (stmt st :: sfr), sroot,
    (fpS ++ stmt st :: fpt), (yS ++ ys'), [List.length h], [FTok t].
  split; [now rewrite Esc|]. split; [exact Ecur|].
  split; [simpl; now rewrite Elen|].
  split; [eapply BSpine_frame; [exact HB|]; intros x Hx; apply Hsame; auto;
          apply Hout; rewrite <- !app_assoc; apply in_or_app; auto|].
  split; [eapply BRep_frame; [exact HC|]; intros x Hx; apply Hsame; auto;
          apply Hout; apply in_or_app; left; apply in_or_app; auto|].
  split.
  { econstructor.
    - eapply SSpine_frame; [exact HS|]. intros x Hx. apply Hsame; auto.
      apply Hout. apply in_or_app; auto.
    - rewrite Hoth2 by lia. exact Ec1'.
    - eapply SElems_frame; [exact Hvs|]. intros x Hx. apply Hsame; auto. }
  split.
  { apply SRep_intro with [VTok t]; [exact Ec2'|].
    constructor; [exact Hsub|constructor]. }
  split; [|rewrite <- !app_assoc; reflexivity].
  replace (fpB ++ fpC ++ (fpS ++ stmt st :: fpt) ++ [List.length h]) with
    ((((fpB ++ fpC) ++ fpS) ++ stmt st :: fpt) ++ [List.length h])
    by (now rewrite <- !app_assoc).
  apply NoDup_app_fresh; [exact Hnd|].
  intros x Hx. rewrite <- !app_assoc in Hx.
  apply in_app_or in Hx as [Hx|Hx]; [auto|].
  apply in_app_or in Hx as [Hx|Hx]; [auto|].
  apply in_app_or in Hx as [Hx|[<-|Hx]]; auto.
Qed.

Lemma plain_token_inv (st st' : pstate) (t : token) (ys : list fitem) :
  Inv st ys -> Nat.eqb (kind t) SUBEXPR = false ->
  Nat.eqb (kind t) OP && in_OPEN_PARENS (val t) = false ->
  (Nat.eqb (kind t) NEWLINE = true -> parens st = []) ->
  other_token st t = SNext st' ->
  Inv st' (ys ++ [FTok t]) /\
  List.length (parens st') = depth_step (List.length (parens st)) t.
Proof.
  intros HI Hsub Eo Hnl Hstep.
  destruct HI as (bfr & cur & fpB & yB & fpC & yC & sfr & sroot & fpS & yS & fpT & yT &
                  Esc & Ecur & Elen & HB & HC & HS & HT & Hnd & ->).
  unfold other_token in Hstep. rewrite Eo in Hstep.
  destruct (append_to (heap_of st) (stmt st) (VTok t)) as [h2|] eqn:Ea; [|discriminate].
  destruct (stmt_append _ _ _ _ _ _ _ _ _ _ _ _ _ _ _ _ t HB HC HS HT Hnd Hsub Ea)
    as (HB2 & HC2 & HS2 & HT2 & Hlen2).
  (* the state after [stmt.append(tok)] satisfies the invariant *)
  assert (Hst2 : Inv (set_heap st h2) ((yB ++ yC ++ yS ++ yT) ++ [FTok t])).
  { exists bfr, cur, fpB, yB, fpC, yC, sfr, sroot, fpS, yS, fpT, (yT ++ [FTok t]).
    repeat split; auto. rewrite <- !app_assoc. reflexivity. }
  unfold depth_step.
  destruct (Nat.eqb (kind t) OP) eqn:Eop.
  - simpl in Eo. rewrite Eo.
    destruct (CLOSE_PARENS (val t)) as [opener|] eqn:Ecl.
    + simpl in Hstep.
      destruct (parens st) as [|p ps] eqn:Ep; [discriminate|].
      destruct (negb (String.eqb p opener)); [discriminate|].
      destruct (scopes st) as [|s rest] eqn:Esc'; [discriminate|].
      injection Hstep as <-.
      destruct sfr as [|s0 sfr']; [discriminate|].
      simpl in Esc. injection Esc as Es Er. subst s0 rest.
      inversion HS2 as [|p' rest' root' fp0 ys0 vs sub st0 en ln fpv yv HS0 Ep0 Hv];
        subst p' rest' root' sub fpS yS.
      split; [|reflexivity].
      exists bfr, cur, fpB, yB, fpC, yC, sfr', sroot, fp0, ys0,
        (s :: fpv ++ fpT ++ []), (yv ++ (yT ++ [FTok t]) ++ []).
      split; [reflexivity|]. split; [exact Ecur|].
      split; [simpl in Elen; simpl; lia|].
      split; [exact HB2|]. split; [exact HC2|]. split; [exact HS0|].
      split.
      { apply SRep_intro with (vs ++ [VSub (stmt st) st0 en ln]); [exact Ep0|].
        apply SElems_app; [exact Hv|]. constructor; [exact HT2|constructor]. }
      split; [|rewrite !app_nil_r, <- !app_assoc; reflexivity].
      rewrite app_nil_r. rewrite <- !app_assoc in Hnd. simpl in Hnd.
      exact Hnd.
    + injection Hstep as <-. split; [exact Hst2|reflexivity].
  - simpl in Hstep.
    destruct (Nat.eqb (kind t) NEWLINE) eqn:Enl.
    + specialize (Hnl eq_refl).
      destruct sfr as [|]; [|rewrite Hnl in Elen; discriminate].
      inversion HS2; subst sroot fpS yS.
      destruct (close_stmt (set_heap st h2)) as [st3|] eqn:Ecs; [|discriminate].
      injection Hstep as <-.
      assert (Hnd' : NoDup (fpB ++ fpC ++ fpT)) by (simpl in Hnd; exact Hnd).
      destruct (close_stmt_spec (set_heap st h2) st3 cur bfr fpB fpC fpT yB yC
                  (yT ++ [FTok t]) Ecs Ecur HB2 HC2 HT2 Hnd')
        as (b & Esc3 & Ep3 & _ & Eo3 & Ecur3 & HB3 & HC3 & HT3 & Hnd3).
      simpl in Esc3, Ep3, Eo3, Ecur3.
      split; [|now rewrite Ep3].
      exists bfr, cur, fpB, yB, (fpC ++ fpT ++ [b]), (yC ++ yT ++ [FTok t]), [],
        (stmt st3), [], [], [stmt st3], [].
      split; [now rewrite Esc3, Esc|]. split; [now rewrite Ecur3|].
      split; [now rewrite Ep3, Hnl|].
      split; [rewrite Eo3; exact HB3|]. split; [exact HC3|].
      split; [constructor|]. split; [exact HT3|].
      split; [rewrite <- !app_assoc in Hnd3; rewrite <- !app_assoc; exact Hnd3|].
      simpl. rewrite !app_nil_r, <- !app_assoc. reflexivity.
    + injection Hstep as <-. split; [exact Hst2|reflexivity].
Qed.

(** [if stmt: scope.append((stmt,[])); stmt = []] outside brackets. *)
Lemma flush_spec (st1 st2 : pstate) (cur : nat) (bfr fpB fpC fpT : list nat)
  (yB yC yT : list fitem) :
  scope st1 = PRef cur ->
  BSpine (heap_of st1) bfr cur (output st1) fpB yB ->
  BRep (heap_of st1) cur fpC yC ->
  SRep (heap_of st1) (stmt st1) fpT yT ->
  NoDup (fpB ++ fpC ++ fpT) ->
  (if nonempty (heap_of st1) (stmt st1) then close_stmt st1 else Some st1) = Some st2 ->
  exists fpC' fpT', scopes st2 = scopes st1 /\ parens st2 = parens st1 /\
    output st2 = output st1 /\ scope st2 = scope st1 /\
    BSpine (heap_of st2) bfr cur (output st1) fpB yB /\
    BRep (heap_of st2) cur fpC' (yC ++ yT) /\
    SRep (heap_of st2) (stmt st2) fpT' [] /\
    NoDup (fpB ++ fpC' ++ fpT').
Proof.
  intros Ecur HB HC HT Hnd Hfl.
  destruct (nonempty (heap_of st1) (stmt st1)) eqn:Ene.
  - destruct (close_stmt_spec st1 st2 cur bfr fpB fpC fpT yB yC yT Hfl Ecur HB HC HT Hnd)
      as (b & E1 & E2 & _ & E4 & E5 & HB2 & HC2 & HT2 & Hnd2).
    exists (fpC ++ fpT ++ [b]), [stmt st2].
    repeat split; auto. rewrite <- !app_assoc in Hnd2. rewrite <- !app_assoc. exact Hnd2.
  - injection Hfl as <-.
    inversion HT as [a vs fpt ys' Evs Hvs]; subst a fpT yT.
    unfold nonempty in Ene. rewrite Evs in Ene.
    destruct vs; [|discriminate]. inversion Hvs; subst.
    exists fpC, (stmt st1 :: []). rewrite app_nil_r. repeat split; auto.
Qed.

Lemma enter_scope_inv (st st' : pstate) (t : token) (ys : list fitem) :
  Inv st ys -> parens st = [] -> enter_scope st t = SNext st' ->
  Inv st' ys /\ parens st' = parens st.
Proof.
  intros HI Hp Hstep.
  destruct HI as (bfr & cur & fpB & yB & fpC & yC & sfr & sroot & fpS & yS & fpT & yT &
                  Esc & Ecur & Elen & HB & HC & HS & HT & Hnd & ->).
  destruct sfr; [|rewrite Hp in Elen; discriminate]. simpl in Esc.
  unfold enter_scope in Hstep. rewrite Ecur in Hstep.
  inversion HC as [a vs fpc ys' Evs Hvs]; subst a fpC yC.
  rewrite Evs in Hstep. destruct vs as [|v vs'] eqn:Evs'; [discriminate|].
  injection Hstep as <-. split; [|reflexivity].
  rewrite <- Evs' in Evs, Hvs.
  assert (Hne : vs <> []) by (subst vs; discriminate).
  pose proof (app_removelast_last (VPair 0 0) Hne) as Hsplit.
  rewrite Hsplit in Hvs.
  destruct (BElems_app_inv _ _ _ _ _ Hvs) as (fp1 & fp2 & y1 & y2 & -> & -> & H1 & H2).
  inversion H2 as [|s b vs0 fps fpb fp0 yss ysb ys0 Hs Hb Hnil]; subst fp2 y2.
  inversion Hnil; subst vs0 fp0 ys0.
  change (match vs' with [] => v | _ :: _ => last vs' (VPair 0 0) end)
    with (last (v :: vs') (VPair 0 0)).
  rewrite <- Evs', <- H.
  exists (cur :: bfr), b, (fpB ++ cur :: fp1 ++ fps), (yB ++ y1 ++ yss), fpb, ysb,
    [], sroot, fpS, yS, fpT, yT.
  simpl.
  split; [now rewrite Esc|]. split; [reflexivity|]. split; [exact Elen|].
  split.
  { econstructor; [exact HB| |exact H1|exact Hs].
    rewrite Evs. rewrite Hsplit at 1. now rewrite <- H. }
  split; [exact Hb|]. split; [exact HS|]. split; [exact HT|].
  split.
  - rewrite !app_nil_r in Hnd. rewrite <- !app_assoc. simpl. rewrite <- !app_assoc.
    simpl in Hnd. rewrite <- !app_assoc in Hnd. exact Hnd.
  - rewrite !app_nil_r, <- !app_assoc. reflexivity.
Qed.

Lemma dedent_inv (st st' : pstate) (t : token) (ys : list fitem) :
  Inv st ys -> parens st = [] -> Nat.eqb (kind t) DEDENT = true ->
  exit_scope st t = SNext st' ->
  Inv st' ys /\ parens st' = parens st.
Proof.
  intros HI Hp Ek Hstep.
  destruct HI as (bfr & cur & fpB & yB & fpC & yC & sfr & sroot & fpS & yS & fpT & yT &
                  Esc & Ecur & Elen & HB & HC & HS & HT & Hnd & ->).
  destruct sfr; [|rewrite Hp in Elen; discriminate]. simpl in Esc.
  inversion HS; subst sroot fpS yS. simpl in Hnd.
  unfold exit_scope in Hstep. cbv zeta in Hstep. rewrite Ek in Hstep.
  destruct (negb (existsb (Nat.eqb (dedent_width t)) (indents st))); [discriminate|].
  set (st1 := {| scopes := scopes st; parens := parens st; indents := tl (indents st);
                 output := output st; scope := scope st; stmt := stmt st;
                 heap_of := heap_of st |}) in Hstep.
  destruct (if nonempty (heap_of st1) (stmt st1) then close_stmt st1 else Some st1)
    as [st2|] eqn:Efl; [|discriminate].
  destruct (flush_spec st1 st2 cur bfr fpB fpC fpT yB yC yT Ecur HB HC HT Hnd Efl)
    as (fpC' & fpT' & E1 & E2 & E3 & E4 & HB2 & HC2 & HT2 & Hnd2).
  simpl in E1, E2, E3, E4. rewrite E1, Esc in Hstep.
  destruct bfr as [|r rest]; [discriminate|].
  destruct (Nat.eqb (kind t) ENDMARKER); [discriminate|].
  injection Hstep as <-. simpl. split; [|exact E2].
  inversion HB2 as [|p rest' root fp0 ys0 vs s b fpv fps yv yss HB0 Ep Hv Hs];
    subst p rest' root b fpB yB.
  exists rest, r, fp0, ys0, (r :: fpv ++ fps ++ fpC' ++ []),
    (yv ++ yss ++ (yC ++ yT) ++ []), [], (stmt st2), [], [], fpT', [].
  split; [reflexivity|]. split; [reflexivity|]. split; [now rewrite E2, Hp|].
  split; [rewrite E3; exact HB0|].
  split.
  { apply BRep_intro with (vs ++ [VPair s cur]); [exact Ep|].
    apply BElems_app; [exact Hv|]. constructor; [exact Hs|exact HC2|constructor]. }
  split; [constructor|]. split; [exact HT2|].
  split.
  - rewrite !app_nil_r. rewrite <- !app_assoc in Hnd2. simpl in Hnd2.
    rewrite <- !app_assoc in Hnd2. simpl. rewrite <- !app_assoc. exact Hnd2.
  - rewrite !app_nil_r, <- !app_assoc. reflexivity.
Qed.

Lemma endmarker_inv (st : pstate) (t : token) (ys : list fitem) (h : heap) (out : nat) :
  Inv st ys -> Nat.eqb (kind t) ENDMARKER = true ->
  exit_scope st t = SRet h out ->
  exists fp, BRep h out fp ys.
Proof.
  intros HI Ek Hstep.
  destruct HI as (bfr & cur & fpB & yB & fpC & yC & sfr & sroot & fpS & yS & fpT & yT &
                  Esc & Ecur & Elen & HB & HC & HS & HT & Hnd & ->).
  unfold exit_scope in Hstep. cbv zeta in Hstep.
  assert (Ed : Nat.eqb (kind t) DEDENT = false).
  { apply Nat.eqb_eq in Ek. rewrite Ek. reflexivity. }
  rewrite Ed in Hstep.
  destruct (parens st) as [|p ps] eqn:Ep; [|discriminate].
  destruct sfr; [|discriminate]. simpl in Esc.
  inversion HS; subst sroot fpS yS. simpl in Hnd.
  destruct (if nonempty (heap_of st) (stmt st) then close_stmt st else Some st)
    as [st2|] eqn:Efl; [|discriminate].
  destruct (flush_spec st st2 cur bfr fpB fpC fpT yB yC yT Ecur HB HC HT Hnd Efl)
    as (fpC' & fpT' & E1 & E2 & E3 & E4 & HB2 & HC2 & HT2 & Hnd2).
  rewrite E1, Esc in Hstep.
  destruct bfr as [|r rest]; [|rewrite Ek in Hstep; discriminate].
  injection Hstep as <- <-.
  assert (Ecr : cur = output st) by (inversion HB2; reflexivity).
  inversion HB2; subst fpB yB.
  exists fpC'. rewrite E3, <- Ecr. exact HC2.
Qed.

Lemma step_ret (st : pstate) (t : token) (h : heap) (o : nat) :
  step st t = SRet h o -> Nat.eqb (kind t) ENDMARKER = true.
Proof.
  intros H. unfold step in H.
  destruct (Nat.eqb (kind t) DEDENT || Nat.eqb (kind t) ENDMARKER) eqn:E1.
  - unfold exit_scope in H. cbv zeta in H.
    destruct (Nat.eqb (kind t) DEDENT) eqn:Ed; [|simpl in E1; exact E1].
    repeat match type of H with
           | context [match ?x with _ => _ end] => destruct x
           end; discriminate H.
  - destruct (Nat.eqb (kind t) INDENT).
    + unfold enter_scope in H.
      repeat match type of H with
             | context [match ?x with _ => _ end] => destruct x
             end; discriminate H.
    + unfold other_token in H. cbv zeta in H.
      repeat match type of H with
             | context [match ?x with _ => _ end] => destruct x
             end; discriminate H.
Qed.

Lemma step_inv (st st' : pstate) (t : token) (ys : list fitem) :
  Inv st ys -> Nat.eqb (kind t) ENDMARKER = false ->
  Nat.eqb (kind t) SUBEXPR = false ->
  (existsb (Nat.eqb (kind t)) [NEWLINE; INDENT; DEDENT] = true -> parens st = []) ->
  step st t = SNext st' ->
  Inv st' (ys ++ mark t) /\
  List.length (parens st') = depth_step (List.length (parens st)) t.
Proof.
  intros HI Ee Hsub Hlay Hstep. unfold step in Hstep. unfold mark, is_marker.
  rewrite Ee in Hstep |- *. rewrite orb_false_r in Hstep |- *.
  destruct (Nat.eqb (kind t) DEDENT) eqn:Ed.
  - rewrite orb_true_r.
    assert (Hp : parens st = []) by (apply Hlay; simpl; now rewrite Ed, !orb_true_r).
    destruct (dedent_inv st st' t ys HI Hp Ed Hstep) as [HI' Ep].
    rewrite app_nil_r. split; [exact HI'|].
    unfold depth_step. apply Nat.eqb_eq in Ed. rewrite Ed, Ep. reflexivity.
  - rewrite orb_false_r.
    destruct (Nat.eqb (kind t) INDENT) eqn:Ei.
    + assert (Hp : parens st = []) by (apply Hlay; simpl; now rewrite Ei, !orb_true_r).
      destruct (enter_scope_inv st st' t ys HI Hp Hstep) as [HI' Ep].
      rewrite app_nil_r. split; [exact HI'|].
      unfold depth_step. apply Nat.eqb_eq in Ei. rewrite Ei, Ep. reflexivity.
    + destruct (Nat.eqb (kind t) OP && in_OPEN_PARENS (val t)) eqn:Eo.
      * destruct (open_paren_inv st st' t ys HI Hsub Eo Hstep) as [HI' Ep].
        split; [exact HI'|]. unfold depth_step.
        apply andb_prop in Eo as [-> ->]. exact Ep.
      * apply (plain_token_inv st st' t ys HI Hsub Eo); [|exact Hstep].
        intros En. apply Hlay. simpl. now rewrite En.
Qed.

Lemma run_inv (ts : list token) :
  forall (st : pstate) (ys : list fitem) (h : heap) (out : nat),
  Inv st ys -> wf_from (List.length (parens st)) ts = true ->
  run st (map Yield ts) = POk h out ->
  exists fp, BRep h out fp (ys ++ flat_map mark ts).
Proof.
  induction ts as [|t ts IH]; intros st ys h out HI Hwf Hrun; [discriminate|].
  cbn [wf_from] in Hwf. simpl in Hrun.
  destruct (Nat.eqb (kind t) ENDMARKER) eqn:Ee.
  - destruct ts; [|discriminate]. simpl. unfold mark, is_marker.
    rewrite Ee, !orb_true_r, !app_nil_r.
    destruct (step st t) as [st'|h' o|e] eqn:Es; try discriminate.
    injection Hrun as <- <-.
    unfold step in Es. rewrite Ee, orb_true_r in Es.
    eapply endmarker_inv; eauto.
  - apply andb_prop in Hwf as [Hwf Hrest]. apply andb_prop in Hwf as [Hsub Hlay].
    apply negb_true_iff in Hsub.
    destruct (step st t) as [st'|h' o|e] eqn:Es.
    + destruct (step_inv st st' t ys HI Ee Hsub) as [HI' Ed]; [|exact Es|].
      * intros Hl. rewrite Hl in Hlay. apply Nat.eqb_eq in Hlay.
        destruct (parens st); [reflexivity|discriminate].
      * rewrite <- Ed in Hrest.
        destruct (IH st' (ys ++ mark t) h out HI' Hrest Hrun) as [fp Hfp].
        exists fp. rewrite <- app_assoc in Hfp. exact Hfp.
    + apply step_ret in Es. congruence.
    + discriminate.
Qed.

Lemma marker_ws (t : token) : is_marker t = true -> in_WHITESPACE (kind t) = true.
Proof.
  unfold is_marker. intros H.
  apply orb_true_iff in H as [H|H]; [apply orb_true_iff in H as [H|H]|];
    apply Nat.eqb_eq in H; rewrite H; reflexivity.
Qed.

Lemma strip_marks (ts : list token) :
  strip_ws (flat_map mark ts) = strip_ws (map FTok ts).
Proof.
  induction ts as [|t ts IH]; [reflexivity|].
  cbn [flat_map map].
  assert (Hm : mark t = if is_marker t then [] else [FTok t]) by reflexivity.
  rewrite Hm. destruct (is_marker t) eqn:Em.
  - simpl. rewrite IH, (marker_ws t Em). reflexivity.
  - simpl. rewrite IH. reflexivity.
Qed.

(** C1: for every well-formed token stream on which [parse_block]
    succeeds, [strip_ws (flatten_block (parse_block toks))] yields the same
    tokens, in the same order, as [strip_ws toks]. *)
Theorem parse_flatten_roundtrip (toks : list token)
  (Hwf : wf_from 0 toks = true) (h : heap) (out : nat)
  (Hok : parse_block (map Yield toks) = POk h out) :
  exists n, forall fuel, n <= fuel ->
    exists ys, flatten_block fuel h out = (ys, Done) /\
               strip_ws ys = strip_ws (map FTok toks).
Proof.
  destruct (run_inv toks init [] h out init_inv Hwf Hok) as [fp HB].
  destruct (BRep_flatten h out fp _ HB) as [n Hn].
  exists n. intros fuel Hf. exists (flat_map mark toks). split.
  - exact (Hn fuel Hf).
  - apply strip_marks.
Qed.

Lemma parse_flatten_roundtrip_witness :
  exists h out, wf_from 0 Scanned.nested_toks = true /\
    parse_block (map Yield Scanned.nested_toks) = POk h out /\
    exists n, forall fuel, n <= fuel ->
      exists ys, flatten_block fuel h out = (ys, Done) /\
                 strip_ws ys = strip_ws (map FTok Scanned.nested_toks).
Proof.
  eexists; eexists. split; [vm_compute; reflexivity|].
  split; [vm_compute; reflexivity|].
  apply (parse_flatten_roundtrip Scanned.nested_toks).
  - vm_compute. reflexivity.
  - vm_compute. reflexivity.
Defined.

End RoundTrip.

(* ------------------------------------------------------------------ *)
(** * Further properties of the code *)

Module PartitionLaws.
Import Partition PartitionFacts.

Lemma partition_loop_parts (sep : sep_t) (ts : list token) :
  forall before b s a, partition_loop sep before ts = (b, s, a) ->
  b ++ s ++ a = before ++ ts /\
  (exists b', b = before ++ b' /\ forallb (fun t => negb (matches sep t)) b' = true) /\
  (s = [] /\ a = [] \/ exists m, s = [m] /\ matches sep m = true).
Proof.
  induction ts as [|t ts IH]; intros before b s a H; simpl in H.
  - injection H as <- <- <-. rewrite !app_nil_r. split; [reflexivity|].
    split; [exists []; rewrite app_nil_r; auto|]. left; auto.
  - destruct (matches sep t) eqn:Em.
    + injection H as <- <- <-. split; [reflexivity|].
      split; [exists []; rewrite app_nil_r; auto|]. right; eauto.
    + destruct (IH _ _ _ _ H) as (E & (b' & Eb & Hb') & Hs).
      split; [rewrite E, <- app_assoc; reflexivity|].
      split; [|exact Hs].
      exists (t :: b'). rewrite Eb, <- app_assoc. split; [reflexivity|].
      simpl. rewrite Em, Hb'. reflexivity.
Qed.

(** [partition] splits at the first token matching the separator. *)
Theorem partition_first_match (sep : sep_t) (pre post : list token) (m : token)
  (Hpre : forallb (fun t => negb (matches sep t)) pre = true)
  (Hm : matches sep m = true) :
  partition (pre ++ m :: post) sep = (pre, [m], post).
Proof. unfold partition. now rewrite partition_loop_split. Qed.

Lemma partition_first_match_witness :
  forallb (fun t => negb (matches (SepText "from") t)) [Tok NAME "a" (1,0) (1,1) "a from b from c"] = true /\
  matches (SepText "from") (Tok NAME "from" (1,2) (1,6) "a from b from c") = true /\
  partition ([Tok NAME "a" (1,0) (1,1) "a from b from c"] ++
             Tok NAME "from" (1,2) (1,6) "a from b from c" ::
             [Tok NAME "b" (1,7) (1,8) "a from b from c";
              Tok NAME "from" (1,9) (1,13) "a from b from c"]) (SepText "from")
  = ([Tok NAME "a" (1,0) (1,1) "a from b from c"],
     [Tok NAME "from" (1,2) (1,6) "a from b from c"],
     [Tok NAME "b" (1,7) (1,8) "a from b from c";
      Tok NAME "from" (1,9) (1,13) "a from b from c"]).
Proof.
  split; [reflexivity|]. split; [reflexivity|].
  apply partition_first_match; reflexivity.
Defined.

(** [partition] and [rpartition] lose and reorder nothing: the three parts
    put back together are the input; [partition]'s [before] and
    [rpartition]'s [after] hold no matching token, and the separator part
    is empty or the one matching token. *)
Theorem partition_parts (sep : sep_t) (tokens : list token) :
  (let '(b, s, a) := partition tokens sep in
   b ++ s ++ a = tokens /\ forallb (fun t => negb (matches sep t)) b = true /\
   (s = [] /\ a = [] \/ exists m, s = [m] /\ matches sep m = true)) /\
  (let '(b, s, a) := rpartition tokens sep in
   b ++ s ++ a = tokens /\ forallb (fun t => negb (matches sep t)) a = true /\
   (s = [] /\ b = [] \/ exists m, s = [m] /\ matches sep m = true)).
Proof.
  split.
  - destruct (partition tokens sep) as [[b s] a] eqn:E.
    destruct (partition_loop_parts sep tokens [] b s a E) as (H1 & (b' & -> & H2) & H3).
    auto.
  - unfold rpartition. destruct (partition (rev tokens) sep) as [[b s] a] eqn:E.
    destruct (partition_loop_parts sep (rev tokens) [] b s a E) as (H1 & (b' & Eb & H2) & H3).
    simpl in Eb, H1. subst b.
    split; [|split].
    + rewrite <- (rev_involutive tokens), <- H1, !rev_app_distr, app_assoc.
      destruct H3 as [[-> ->]|(m & -> & _)]; reflexivity.
    + now rewrite forallb_rev.
    + destruct H3 as [[-> ->]|H3]; [left; auto|right; exact H3].
Qed.

End PartitionLaws.

Module ParseBehaviour.
Import Parse ParseRefs ParseErrors.

Lemma step_endmarker_leaves (st : pstate) (t : token) :
  kind t = ENDMARKER -> forall st', step st t <> SNext st'.
Proof.
  intros Hk st' H. unfold step in H. rewrite Hk in H. simpl in H.
  unfold exit_scope in H. cbv zeta in H. rewrite Hk in H. simpl in H.
  destruct (parens st); [|discriminate].
  destruct (if nonempty (heap_of st) (stmt st) then close_stmt st else Some st)
    as [st2|]; [|discriminate].
  destruct (scopes st2); discriminate.
Qed.

(** [parse_block] reads nothing after an [ENDMARKER]: once the tokens
    before it have been consumed, what follows the [ENDMARKER] does not
    change the result. *)
Theorem parse_block_stops_at_endmarker (pre rest : list scan_item) (st : pstate)
  (t : token) (Hpre : steps init pre = Some st) (Ht : kind t = ENDMARKER) :
  parse_block (pre ++ Yield t :: rest) = parse_block (pre ++ [Yield t]).
Proof.
  rewrite !(parse_block_after pre _ st t Hpre). simpl.
  destruct (step st t) eqn:E; [|reflexivity|reflexivity].
  exfalso. exact (step_endmarker_leaves st t Ht _ E).
Qed.

Lemma parse_block_stops_at_endmarker_witness :
  exists st, steps init (firstn 11 Scanned.nested_src) = Some st /\
  parse_block (firstn 11 Scanned.nested_src ++
               Yield (Tok ENDMARKER "" (3,0) (3,0) "") :: [Raise PyCrash]) =
  parse_block (firstn 11 Scanned.nested_src ++ [Yield (Tok ENDMARKER "" (3,0) (3,0) "")]).
Proof.
  eexists. split; [vm_compute; reflexivity|].
  eapply parse_block_stops_at_endmarker; [vm_compute; reflexivity | reflexivity].
Defined.

Lemma run_no_endmarker (items : list scan_item) :
  forall st, (forall t, In (Yield t) items -> kind t <> ENDMARKER) ->
  forall h o, run st items <> POk h o.
Proof.
  induction items as [|[t|e] items IH]; intros st Hn h o; simpl; try discriminate.
  destruct (step st t) as [st'|h' o'|e] eqn:E.
  - apply IH. intros t' Hin. apply Hn. now right.
  - apply RoundTrip.step_ret in E. apply Nat.eqb_eq in E.
    exfalso. exact (Hn t (or_introl eq_refl) E).
  - discriminate.
Qed.

(** [parse_block] returns a block only after an [ENDMARKER]: a stream
    without one ends in an exception ("Token stream didn't have an
    ENDMARKER", or an error met before the end). *)
Theorem parse_block_needs_endmarker (items : list scan_item)
  (Hn : forall t, In (Yield t) items -> kind t <> ENDMARKER) (h : heap) (o : nat) :
  parse_block items <> POk h o.
Proof. apply run_no_endmarker; exact Hn. Qed.

Lemma parse_block_needs_endmarker_witness :
  (forall t, In (Yield t) (firstn 11 Scanned.nested_src) -> kind t <> ENDMARKER) /\
  parse_block (firstn 11 Scanned.nested_src) <> POk [] 0.
Proof.
  assert (H : forall t, In (Yield t) (firstn 11 Scanned.nested_src) -> kind t <> ENDMARKER).
  { intros t Hin. vm_compute in Hin.
    repeat (destruct Hin as [Hin|Hin]; [injection Hin as <-; discriminate|]).
    destruct Hin. }
  split; [exact H|]. exact (parse_block_needs_endmarker _ H [] 0).
Defined.

(** A stream cannot start with a scope marker: a first [INDENT] raises
    "Unexpected indent" at its start, a first [DEDENT] raises the
    unindent error when its line is indented and "Extra DEDENT tokens"
    otherwise. *)
Theorem parse_block_leading_marker (t : token) (rest : list scan_item) :
  (kind t = INDENT ->
   parse_block (Yield t :: rest) = PErr (TokenError "Unexpected indent" (tstart t))) /\
  (kind t = DEDENT ->
   parse_block (Yield t :: rest) =
   PErr (if Nat.eqb (dedent_width t) 0 then AssertionError "Extra DEDENT tokens"
         else TokenError "unindent does not match any outer indentation level" (tstart t))).
Proof.
  split; intros Hk; unfold parse_block; simpl; unfold step; rewrite Hk; simpl.
  - reflexivity.
  - unfold exit_scope. cbv zeta. rewrite Hk. simpl.
    destruct (dedent_width t) as [|w]; simpl; reflexivity.
Qed.

Lemma parse_block_leading_marker_witness :
  parse_block [Yield (Tok INDENT "   " (1,0) (1,3) "   1+2")] =
    PErr (TokenError "Unexpected indent" (1,0)) /\
  parse_block [Yield (Tok DEDENT "" (1,2) (1,2) "  x")] =
    PErr (TokenError "unindent does not match any outer indentation level" (1,2)).
Proof.
  split.
  - apply (proj1 (parse_block_leading_marker (Tok INDENT "   " (1,0) (1,3) "   1+2") [])).
    reflexivity.
  - apply (proj2 (parse_block_leading_marker (Tok DEDENT "" (1,2) (1,2) "  x") [])).
    reflexivity.
Defined.



End ParseBehaviour.

Module FlattenExact.
Import Parse Flatten RoundTrip.

(** For a well-formed stream on which [parse_block] succeeds,
    [flatten_block] yields exactly the stream's tokens other than
    [INDENT], [DEDENT] and [ENDMARKER], in order: [NEWLINE], [NL] and
    [COMMENT] tokens are kept where they were. *)
Theorem flatten_parse_block (toks : list token)
  (Hwf : wf_from 0 toks = true) (h : heap) (out : nat)
  (Hok : parse_block (map Yield toks) = POk h out) :
  exists n, forall fuel, n <= fuel ->
    flatten_block fuel h out =
    (map FTok (filter (fun t => negb (is_marker t)) toks), Done).
Proof.
  destruct (run_inv toks init [] h out init_inv Hwf Hok) as [fp HB].
  destruct (BRep_flatten h out fp _ HB) as [n Hn].
  exists n. intros fuel Hf. rewrite (Hn fuel Hf). f_equal. simpl.
  clear. induction toks as [|t ts IH]; [reflexivity|]. simpl.
  assert (Hm : mark t = if is_marker t then [] else [FTok t]) by reflexivity.
  rewrite Hm, IH. destruct (is_marker t); reflexivity.
Qed.

Lemma flatten_parse_block_witness :
  exists h out, wf_from 0 Scanned.nested_toks = true /\
    parse_block (map Yield Scanned.nested_toks) = POk h out /\
    exists n, forall fuel, n <= fuel ->
      flatten_block fuel h out =
      (map FTok (filter (fun t => negb (is_marker t)) Scanned.nested_toks), Done).
Proof.
  eexists; eexists. split; [vm_compute; reflexivity|].
  split; [vm_compute; reflexivity|].
  apply (flatten_parse_block Scanned.nested_toks).
  - vm_compute. reflexivity.
  - vm_compute. reflexivity.
Defined.

End FlattenExact.

Module ReaderBehaviour.
Import Reader.


Lemma find_encoding_go (s : string) (m : nat * string) :
  forall fuel i,
  (fix go (i fuel : nat) : option (nat * string) :=
     match fuel with
     | 0 => None
     | S f => match coding_at s i with Some m => Some m | None => go (S i) f end
     end) i fuel = Some m ->
  exists j, i <= j < i + fuel /\ coding_at s j = Some m.
Proof.
  induction fuel as [|f IH]; intros i H; [discriminate|].
  destruct (coding_at s i) eqn:E.
  - injection H as <-. exists i. split; [lia|exact E].
  - destruct (IH (S i) H) as (j & Hj & Ej). exists j. split; [lia|exact Ej].
Qed.

Lemma find_encoding_contains (s : string) (c : nat) (nm : string) :
  FIND_ENCODING s = Some (c, nm) -> contains_coding s = true.
Proof.
  unfold FIND_ENCODING, contains_coding. intros H.
  destruct (find_encoding_go s (c, nm) (S (String.length s)) 0 H) as (j & Hj & Ej).
  apply existsb_exists. exists j. split; [apply in_seq; lia|].
  unfold coding_at in Ej.
  destruct (String.prefix "coding" (substring j (String.length s - j) s)); [reflexivity|discriminate].
Qed.



(** A declaration [coding[:=]name] on a blank or comment line 1 (without
    a BOM), or on such a line 2 after a blank or comment line 1 that has
    no ["coding"], ends the search: the declaring lines are passed on as
    they are, then [f] is wrapped in the stream reader of [name], or,
    when Python knows no codec of that name, [getreader] raises. *)
Theorem declaration_decodes_rest (known_codec : string -> bool) :
  (forall (s : string) (c : nat) (nm : string) (rest : list rline),
     startswith BOM s = false -> ENCODING_LINE s = true ->
     FIND_ENCODING s = Some (c, nm) ->
     reader known_codec (RStr s :: rest) =
     if known_codec nm then ([OStr s; OCodec nm rest], None)
     else ([OStr s], Some PyCrash)) /\
  (forall (s1 s2 : string) (c : nat) (nm : string) (rest : list rline),
     startswith BOM s1 = false -> ENCODING_LINE s1 = true ->
     contains_coding s1 = false ->
     ENCODING_LINE s2 = true -> FIND_ENCODING s2 = Some (c, nm) ->
     reader known_codec (RStr s1 :: RStr s2 :: rest) =
     if known_codec nm then ([OStr s1; OStr s2; OCodec nm rest], None)
     else ([OStr s1; OStr s2], Some PyCrash)).
Proof.
  split.
  - intros s c nm rest Hb He Hf. unfold reader. simpl.
    rewrite He, Hb. simpl. rewrite (find_encoding_contains s c nm Hf), Hf. simpl.
    destruct (known_codec nm); reflexivity.
  - intros s1 s2 c nm rest Hb1 He1 Hc1 He2 Hf2. unfold reader. simpl.
    rewrite He1, Hb1. simpl. rewrite Hc1. simpl. rewrite He2. simpl.
    rewrite (find_encoding_contains s2 c nm Hf2), Hf2. simpl.
    destruct (known_codec nm); reflexivity.
Qed.


Lemma declaration_decodes_rest_witness :
  reader ReaderFacts.some_codecs (RStr ("# coding: latin-1" ++ Scanned.nl) :: [RStr "x"]) =
    ([OStr ("# coding: latin-1" ++ Scanned.nl); OCodec "latin-1" [RStr "x"]], None) /\
  reader ReaderFacts.some_codecs
    (RStr Scanned.nl :: RStr ("# -*- coding=utf8 -*-" ++ Scanned.nl) :: [RStr "x"]) =
    ([OStr Scanned.nl; OStr ("# -*- coding=utf8 -*-" ++ Scanned.nl); OCodec "utf8" [RStr "x"]],
     None) /\
  reader ReaderFacts.some_codecs (RStr ("# coding: klingon" ++ Scanned.nl) :: [RStr "x"]) =
    ([OStr ("# coding: klingon" ++ Scanned.nl)], Some PyCrash).
Proof.
  split; [|split].
  - rewrite (proj1 (declaration_decodes_rest ReaderFacts.some_codecs) _ 10 "latin-1");
      vm_compute; reflexivity.
  - rewrite (proj2 (declaration_decodes_rest ReaderFacts.some_codecs) _ _ 13 "utf8");
      vm_compute; reflexivity.
  - rewrite (proj1 (declaration_decodes_rest ReaderFacts.some_codecs) _ 10 "klingon");
      vm_compute; reflexivity.
Defined.


Lemma substring_whole (s : string) : substring 0 (String.length s) s = s.
Proof. induction s as [|c s IH]; simpl; [reflexivity|now rewrite IH]. Qed.

Lemma enc_line_bom (s : string) : ENCODING_LINE (BOM ++ s) = true.
Proof. destruct s; reflexivity. Qed.

Lemma startswith_empty (s : string) : startswith "" s = true.
Proof. destruct s; reflexivity. Qed.

Lemma bom_rest (s : string) :
  substring 3 (String.length (BOM ++ s) - 3) (BOM ++ s) = s.
Proof.
  change (BOM ++ s)%string with (String "239" (String "187" (String "191" s))).
  simpl. rewrite Nat.sub_0_r. apply substring_whole.
Qed.

Lemma bom_startswith (s : string) : startswith BOM (BOM ++ s) = true.
Proof.
  change (BOM ++ s)%string with (String "239" (String "187" (String "191" s))).
  simpl. apply startswith_empty.
Qed.

(** A BOM on line 1 selects UTF-8.  The rest of the line is decoded from
    UTF-8, which raises when it is not valid UTF-8.  Otherwise the line
    is passed on decoded, without its BOM, and, unless the line itself
    holds a declaration, [f] is then read through the [utf8] stream
    reader.  A declaration of [utf8] or [utf-8] (in any case) on the BOM
    line names the codec of the stream reader; any other one raises the
    conflict error at line 1, at the column of the name in the decoded
    line without its BOM (a count of characters, not bytes), with the
    name shown as a [unicode] repr. *)
Theorem bom_first_line (known_codec : string -> bool) (s : string) (rest : list rline) :
  (utf8_valid s = false ->
   reader known_codec (RStr (BOM ++ s) :: rest) = ([], Some PyCrash)) /\
  (utf8_valid s = true -> contains_coding s = false ->
   reader known_codec (RStr (BOM ++ s) :: rest) =
   if known_codec "utf8" then ([ODecoded "utf8" s; OCodec "utf8" rest], None)
   else ([ODecoded "utf8" s], Some PyCrash)) /\
  (forall (c : nat) (nm : string), utf8_valid s = true -> FIND_ENCODING s = Some (c, nm) ->
   reader known_codec (RStr (BOM ++ s) :: rest) =
   if existsb (String.eqb (lower nm)) ["utf8"; "utf-8"]
   then (if known_codec nm then ([ODecoded "utf8" s; OCodec nm rest], None)
         else ([ODecoded "utf8" s], Some PyCrash))
   else ([], Some (TokenError ("UTF-8 BOM, but " ++ repr_unicode nm ++ " encoding requested")
                              (1, units (substring 0 c s))))).
Proof.
  assert (Hf : forall enc bom,
    first_lines 1 enc bom (RStr (BOM ++ s) :: rest) =
    if negb (utf8_valid s) then ([], Some PyCrash, Some "utf8", rest)
    else
      let found :=
        if contains_coding s then
          match FIND_ENCODING s with
          | Some (col, nm) =>
              if negb (existsb (String.eqb (lower nm)) ["utf8"; "utf-8"])
              then inr (TokenError
                          ("UTF-8 BOM, but " ++ repr_unicode nm ++ " encoding requested")%string
                          (1, units (substring 0 col s)))
              else inl (Some nm)
          | None => inl (Some "utf8")
          end
        else inl (Some "utf8") in
      match found with
      | inr e => ([], Some e, Some "utf8", rest)
      | inl enc2 =>
          match enc2 with
          | Some _ => ([ODecoded "utf8" s], None, enc2, rest)
          | None => ([ODecoded "utf8" s], None, enc2, rest)
          end
      end).
  { intros enc bom. cbn [first_lines]. rewrite enc_line_bom, bom_startswith, bom_rest.
    cbv zeta. cbn [negb Nat.eqb andb text_of].
    destruct (utf8_valid s); [|reflexivity]. cbn [negb].
    destruct (contains_coding s); [|reflexivity].
    destruct (FIND_ENCODING s) as [[col nm]|]; [|reflexivity].
    destruct (existsb _ _); reflexivity. }
  split; [|split].
  - intros Hv. unfold reader. rewrite Hf, Hv. reflexivity.
  - intros Hv Hc. unfold reader. rewrite Hf, Hv, Hc. cbv zeta iota beta.
    simpl. destruct (known_codec "utf8"); reflexivity.
  - intros c nm Hv Hfe. unfold reader. rewrite Hf, Hv.
    rewrite (find_encoding_contains s c nm Hfe), Hfe. cbv zeta iota beta.
    destruct (existsb _ _); cbn [negb]; [|reflexivity].
    simpl. destruct (known_codec nm); reflexivity.
Qed.

(** [U+00E9] is the two bytes [C3 A9] in UTF-8; [FF] cannot start a
    character. *)
Definition e_acute : string := String "195"%char (String "169"%char EmptyString).

Lemma bom_first_line_witness :
  reader ReaderFacts.some_codecs (RStr (BOM ++ String "255"%char "x") :: [RStr "y"]) =
    ([], Some PyCrash) /\
  reader ReaderFacts.some_codecs (RStr (BOM ++ "x") :: [RStr "y"]) =
    ([ODecoded "utf8" "x"; OCodec "utf8" [RStr "y"]], None) /\
  reader ReaderFacts.some_codecs (RStr (BOM ++ "# coding: UTF-8") :: [RStr "y"]) =
    ([ODecoded "utf8" "# coding: UTF-8"; OCodec "UTF-8" [RStr "y"]], None) /\
  reader ReaderFacts.some_codecs (RStr (BOM ++ "# " ++ e_acute ++ " coding: latin-1") :: []) =
    ([], Some (TokenError "UTF-8 BOM, but u'latin-1' encoding requested" (1, 12))).
Proof.
  split; [|split; [|split]].
  - apply (proj1 (bom_first_line ReaderFacts.some_codecs (String "255"%char "x") [RStr "y"])).
    reflexivity.
  - apply (proj1 (proj2 (bom_first_line ReaderFacts.some_codecs "x" [RStr "y"])));
      reflexivity.
  - rewrite (proj2 (proj2 (bom_first_line ReaderFacts.some_codecs "# coding: UTF-8"
                             [RStr "y"])) 10 "UTF-8");
      [reflexivity | reflexivity | vm_compute; reflexivity].
  - rewrite (proj2 (proj2 (bom_first_line ReaderFacts.some_codecs
                             ("# " ++ e_acute ++ " coding: latin-1") [])) 13 "latin-1");
      [vm_compute; reflexivity | reflexivity | vm_compute; reflexivity].
Defined.

End ReaderBehaviour.

Module DeclFacts.
Import Parse Decl.

Section Facts.
(** Whether [eval] raises on the text of a [STRING] token. *)
Variable ev : string -> bool.

(** The prefix [n1 = n2 = ... =] of a statement, from its (name, [=])
    token pairs, and the names it gives. *)
Definition chain (ps : list (token * token)) : list value :=
  flat_map (fun p => [VTok (fst p); VTok (snd p)]) ps.

(** A token accepted before ['=']: a [NAME], or a [STRING] whose
    [eval] does not raise. *)
Definition lvalue_ok (t : token) : bool :=
  Nat.eqb (kind t) NAME || (Nat.eqb (kind t) STRING && negb (ev (val t))).

Definition chain_ok (ps : list (token * token)) : bool :=
  forallb (fun p => lvalue_ok (fst p) && String.eqb (val (snd p)) "=") ps.

Definition lname (t : token) : dname :=
  if Nat.eqb (kind t) NAME then DName (val t) else DEval (val t).

(** The second element of a list is not a ["="] token. *)
Definition no_eq_second (rest : list value) : bool :=
  match rest with
  | _ :: v :: _ => negb (text_is v "=")
  | _ => true
  end.

Lemma length_chain (ps : list (token * token)) : List.length (chain ps) = 2 * List.length ps.
Proof. induction ps as [|p ps IH]; simpl; [reflexivity|]. rewrite IH. lia. Qed.

Lemma nth_pair (pre post : list value) (x y : value) :
  nth_error (pre ++ x :: y :: post) (List.length pre) = Some x /\
  nth_error (pre ++ x :: y :: post) (List.length pre + 1) = Some y.
Proof.
  split; rewrite nth_error_app2 by lia.
  - now rewrite Nat.sub_diag.
  - now replace (List.length pre + 1 - List.length pre) with 1 by lia.
Qed.

Lemma names_loop_chain (ps : list (token * token)) :
  forall (pre rest : list value) (names : list dname) (fuel : nat),
  chain_ok ps = true -> no_eq_second rest = true -> List.length ps < fuel ->
  names_loop ev fuel (pre ++ chain ps ++ rest) (List.length pre + 2) names =
  inr (names ++ map lname (map fst ps), List.length pre + 2 + 2 * List.length ps).
Proof.
  induction ps as [|[n e] ps IH]; intros pre rest names fuel Hok Hrest Hf.
  - simpl. rewrite !app_nil_r, Nat.add_0_r.
    destruct fuel as [|f]; [reflexivity|]. simpl.
    replace (List.length pre + 2 - 1) with (List.length pre + 1) by lia.
    rewrite (nth_error_app2 pre rest (n := List.length pre + 1)) by lia.
    replace (List.length pre + 1 - List.length pre) with 1 by lia.
    destruct rest as [|x [|v rest']]; simpl;
      try (destruct (Nat.leb _ _); reflexivity).
    simpl in Hrest.
    destruct (Nat.leb _ _); [|reflexivity].
    destruct v as [t|r st en ln|a c]; try reflexivity.
    simpl in Hrest. destruct (String.eqb (val t) "="); [discriminate|reflexivity].
  - simpl in Hok. apply andb_prop in Hok as [Hp Hok]. apply andb_prop in Hp as [Hk He].
    destruct fuel as [|f]; [simpl in Hf; lia|]. simpl in Hf.
    cbn [names_loop].
    assert (Hlen : Nat.leb (List.length pre + 2)
                     (List.length (pre ++ chain ((n, e) :: ps) ++ rest)) = true).
    { apply Nat.leb_le. rewrite !length_app. simpl. lia. }
    rewrite Hlen.
    replace (List.length pre + 2 - 1) with (List.length pre + 1) by lia.
    replace (List.length pre + 2 - 2) with (List.length pre) by lia.
    change (chain ((n, e) :: ps)) with (VTok n :: VTok e :: chain ps) in *.
    cbn [app] in *.
    destruct (nth_pair pre (chain ps ++ rest) (VTok n) (VTok e)) as [N1 N2].
    rewrite N1, N2.
    simpl in He. rewrite He.
    assert (Hre : pre ++ VTok n :: VTok e :: chain ps ++ rest =
                  (pre ++ [VTok n; VTok e]) ++ chain ps ++ rest)
      by (rewrite <- app_assoc; reflexivity).
    assert (Hnext : forall d, lname n = d ->
      names_loop ev f ((pre ++ [VTok n; VTok e]) ++ chain ps ++ rest)
        (List.length pre + 2 + 2) (names ++ [d]) =
      inr (names ++ map lname (map fst ((n, e) :: ps)),
           List.length pre + 2 + 2 * List.length ((n, e) :: ps))).
    { intros d Hd.
      replace (List.length pre + 2 + 2) with (List.length (pre ++ [VTok n; VTok e]) + 2)
        by (rewrite length_app; simpl; lia).
      rewrite IH by (assumption || lia).
      simpl map. rewrite Hd, <- app_assoc. simpl. rewrite length_app. simpl.
      f_equal. f_equal. lia. }
    rewrite Hre.
    destruct (Nat.eqb (kind n) NAME) eqn:En.
    + apply Hnext. unfold lname. now rewrite En.
    + unfold lvalue_ok in Hk. rewrite En in Hk. simpl in Hk.
      apply andb_prop in Hk as [Hk Hv]. apply negb_true_iff in Hv.
      rewrite Hk, Hv. apply Hnext. unfold lname. now rewrite En.
Qed.

(** An element that [parse_declarations] refuses before ['=']: a token
    that is not a [NAME] or a [STRING], or a bracketed sub-expression. *)
Definition bad_lvalue (v : value) : bool :=
  match v with
  | VTok t => negb (Nat.eqb (kind t) NAME || Nat.eqb (kind t) STRING)
  | VSub _ _ _ _ => true
  | VPair _ _ => false
  end.

Lemma names_loop_step (pre post : list value) (n e : token) (names : list dname) (f : nat) :
  lvalue_ok n = true -> val e = "=" ->
  names_loop ev (S f) (pre ++ VTok n :: VTok e :: post) (List.length pre + 2) names =
  names_loop ev f ((pre ++ [VTok n; VTok e]) ++ post)
    (List.length (pre ++ [VTok n; VTok e]) + 2) (names ++ [lname n]).
Proof.
  intros Hk He. cbn [names_loop].
  assert (Hlen : Nat.leb (List.length pre + 2) (List.length (pre ++ VTok n :: VTok e :: post)) = true).
  { apply Nat.leb_le. rewrite length_app. simpl. lia. }
  rewrite Hlen.
  replace (List.length pre + 2 - 1) with (List.length pre + 1) by lia.
  replace (List.length pre + 2 - 2) with (List.length pre) by lia.
  destruct (nth_pair pre post (VTok n) (VTok e)) as [N1 N2]. rewrite N1, N2.
  rewrite He. simpl.
  replace (List.length (pre ++ [VTok n; VTok e]) + 2) with (List.length pre + 2 + 2)
    by (rewrite length_app; simpl; lia).
  rewrite <- app_assoc. simpl.
  unfold lname. unfold lvalue_ok in Hk. destruct (Nat.eqb (kind n) NAME); [reflexivity|].
  simpl in Hk. apply andb_prop in Hk as [Hk Hv]. apply negb_true_iff in Hv.
  now rewrite Hk, Hv.
Qed.

Lemma names_loop_bad (ps : list (token * token)) :
  forall (pre rest : list value) (l : value) (e : token) (names : list dname) (fuel : nat),
  chain_ok ps = true -> val e = "=" -> bad_lvalue l = true -> List.length ps < fuel ->
  names_loop ev fuel (pre ++ chain ps ++ l :: VTok e :: rest) (List.length pre + 2) names =
  inl (TokenError "Expected name or string before '='" (tstart e)).
Proof.
  induction ps as [|[n e'] ps IH]; intros pre rest l e names fuel Hok He Hl Hf.
  - destruct fuel as [|f]; [simpl in Hf; lia|]. simpl chain. rewrite app_nil_l.
    cbn [names_loop].
    assert (Hlen : Nat.leb (List.length pre + 2) (List.length (pre ++ l :: VTok e :: rest)) = true).
    { apply Nat.leb_le. rewrite length_app. simpl. lia. }
    rewrite Hlen.
    replace (List.length pre + 2 - 1) with (List.length pre + 1) by lia.
    replace (List.length pre + 2 - 2) with (List.length pre) by lia.
    destruct (nth_pair pre rest l (VTok e)) as [N1 N2]. rewrite N1, N2.
    rewrite He. simpl.
    destruct l as [t|r st en ln|a c]; [|reflexivity|discriminate].
    simpl in Hl. destruct (Nat.eqb (kind t) NAME); [discriminate|].
    destruct (Nat.eqb (kind t) STRING); [discriminate|reflexivity].
  - simpl in Hok. apply andb_prop in Hok as [Hp Hok]. apply andb_prop in Hp as [Hk He'].
    apply String.eqb_eq in He'.
    destruct fuel as [|f]; [simpl in Hf; lia|]. simpl in Hf.
    change (chain ((n, e') :: ps)) with (VTok n :: VTok e' :: chain ps).
    cbn [app]. rewrite names_loop_step by assumption.
    apply IH; (assumption || lia).
Qed.

Lemma last_cons_shift (y : value) (m : list value) (x : value) :
  last (y :: m) x = last m y.
Proof.
  assert (D : forall (z : value) n d d', last (z :: n) d = last (z :: n) d').
  { intros z n; induction n as [|a n IH] in z |- *; intros d d'; [reflexivity|].
    exact (IH a d d'). }
  destruct m as [|z m]; [reflexivity|]. exact (D z m x y).
Qed.

Lemma last_opt_app (l r : list value) : r <> [] -> last_opt (l ++ r) = last_opt r.
Proof.
  intros Hr. induction l as [|x l IH]; [reflexivity|].
  simpl app. unfold last_opt at 1. rewrite <- IH.
  destruct (l ++ r) as [|y m] eqn:E.
  - apply app_eq_nil in E as [_ ->]. contradiction.
  - unfold last_opt. now rewrite last_cons_shift.
Qed.

Lemma last_opt_snoc (l : list value) (x : value) : last_opt (l ++ [x]) = Some x.
Proof. rewrite last_opt_app by discriminate. reflexivity. Qed.

(** The checks of lines 252-261: a trailing [':'] is removed when the
    statement has a block; without a block the statement must not end
    with [':']. *)
Lemma decl_stmt_body (h : heap) (s b : nat) (raw body : list value) (colon : token) :
  nth_error h s = Some raw ->
  strip_values raw = Some (body ++ (if nonempty h b then [VTok colon] else [])) ->
  val colon = ":" ->
  (nonempty h b = false -> exists v, last_opt body = Some v /\ text_is v ":" = false) ->
  decl_stmt ev h s b = decl_body ev h b body.
Proof.
  intros Hs Hraw Hc Hlast. unfold decl_stmt. rewrite Hs, Hraw.
  destruct (nonempty h b) eqn:Eb.
  - rewrite last_opt_snoc. simpl. rewrite Hc. simpl. now rewrite removelast_last.
  - rewrite app_nil_r. destruct (Hlast eq_refl) as (v & Hv & Ht).
    rewrite Hv. cbv zeta. rewrite Ht. reflexivity.
Qed.

Lemma partition_loop_values (before xs ys : list value) (m : value) :
  forallb (fun v => negb (text_is v "from")) xs = true -> text_is m "from" = true ->
  partition_loop before (xs ++ m :: ys) = (before ++ xs, [m], ys).
Proof.
  revert before; induction xs as [|x xs IH]; intros before H Hm; simpl in *.
  - rewrite Hm. now rewrite app_nil_r.
  - apply andb_prop in H as [Hx Hxs].
    destruct (text_is x "from"); [discriminate|].
    rewrite IH by assumption. now rewrite <- app_assoc.
Qed.

Lemma skipn_chain (ps : list (token * token)) (rest : list value) :
  skipn (2 + 2 * List.length ps - 2) (chain ps ++ rest) = rest.
Proof.
  replace (2 + 2 * List.length ps - 2) with (List.length (chain ps))
    by (rewrite length_chain; lia).
  rewrite skipn_app, skipn_all, Nat.sub_diag. reflexivity.
Qed.

Lemma names_loop_decl (ps : list (token * token)) (rest : list value) :
  chain_ok ps = true -> no_eq_second rest = true ->
  names_loop ev (S (List.length (chain ps ++ rest))) (chain ps ++ rest) 2 [] =
  inr (map lname (map fst ps), 2 + 2 * List.length ps).
Proof.
  intros Hps Hrest.
  apply (names_loop_chain ps [] rest [] _ Hps Hrest).
  rewrite length_app, length_chain. lia.
Qed.

(** A statement [n1 = n2 = ... = expr from context] (each [ni] a [NAME]
    or a [STRING] token), with a trailing [':'] exactly when it has a
    block, is read as the tuple of the names (in order), the expression
    before the first ["from"], and the tokens after it ([None] without
    ["from"]), with the statement's block. *)
Theorem decl_stmt_reads (h : heap) (s b : nat) (raw : list value)
  (ps : list (token * token)) (rest : list value) (colon : token)
  (Hs : nth_error h s = Some raw)
  (Hraw : strip_values raw =
          Some (chain ps ++ rest ++ (if nonempty h b then [VTok colon] else [])))
  (Hcolon : val colon = ":")
  (Hlast : nonempty h b = false -> forall v, last_opt rest = Some v -> text_is v ":" = false)
  (Hps : chain_ok ps = true)
  (Hrest : no_eq_second rest = true)
  (Hexpr : fst (fst (partition_loop [] rest)) <> [])
  (Hctx : snd (fst (partition_loop [] rest)) <> [] ->
          snd (partition_loop [] rest) = [] -> nonempty h b = true) :
  decl_stmt ev h s b =
  inr (MkDecl (map lname (map fst ps)) (fst (fst (partition_loop [] rest)))
         (match snd (fst (partition_loop [] rest)) with
          | [] => None
          | _ => Some (snd (partition_loop [] rest))
          end) b).
Proof.
  assert (Hne : rest <> []) by (intros ->; apply Hexpr; reflexivity).
  rewrite app_assoc in Hraw.
  rewrite (decl_stmt_body h s b raw (chain ps ++ rest) colon Hs Hraw Hcolon).
  2:{ intros Hb. destruct rest as [|x r]; [contradiction|].
      rewrite last_opt_app by exact Hne. eexists; split; [reflexivity|].
      apply (Hlast Hb). reflexivity. }
  unfold decl_body. rewrite (names_loop_decl ps rest Hps Hrest).
  cbv iota beta. rewrite skipn_chain.
  destruct (partition_loop [] rest) as [[expr sep] ctx]. simpl in *.
  destruct expr as [|x expr]; [contradiction|].
  destruct (map lname (map fst ps)) as [|n0 ns]; simpl;
  (destruct sep as [|m sep]; [reflexivity|]);
  (destruct ctx as [|c ctx]; [|reflexivity]);
  rewrite (Hctx ltac:(discriminate) eq_refl); reflexivity.
Qed.

(** A statement ending with [':'] must have a block: without one,
    "Expected indented block following ':'" is raised at the end of the
    [':']. *)
Theorem decl_colon_needs_block (h : heap) (s b : nat) (raw stmt0 : list value) (c : token)
  (Hs : nth_error h s = Some raw) (Hraw : strip_values raw = Some (stmt0 ++ [VTok c]))
  (Hc : val c = ":") (Hb : nonempty h b = false) :
  decl_stmt ev h s b = inl (TokenError "Expected indented block following ':'" (tend c)).
Proof.
  unfold decl_stmt. rewrite Hs, Hraw, last_opt_snoc. simpl. rewrite Hc, Hb. reflexivity.
Qed.

(** A statement with a block must end with [':']: otherwise "Expected ':'
    before indented block" is raised at the end of its last element. *)
Theorem decl_block_needs_colon (h : heap) (s b : nat) (raw stmt0 : list value) (v : value)
  (p : pos) (Hs : nth_error h s = Some raw) (Hraw : strip_values raw = Some (stmt0 ++ [v]))
  (Hv : text_is v ":" = false) (Hp : end_of v = Some p) (Hb : nonempty h b = true) :
  decl_stmt ev h s b = inl (TokenError "Expected ':' before indented block" p).
Proof.
  unfold decl_stmt. rewrite Hs, Hraw, last_opt_snoc. cbv zeta. rewrite Hv, Hb, Hp.
  reflexivity.
Qed.

(** Before each ['='] of the leading [n1 = n2 = ...] there must be a
    [NAME] or a [STRING]: any other token, or a bracketed
    sub-expression, raises "Expected name or string before '='" at the
    start of that ['=']. *)
Theorem decl_bad_name (h : heap) (s b : nat) (raw : list value)
  (ps : list (token * token)) (l : value) (e : token) (rest : list value) (colon : token)
  (Hs : nth_error h s = Some raw)
  (Hraw : strip_values raw =
          Some (chain ps ++ l :: VTok e :: rest ++ (if nonempty h b then [VTok colon] else [])))
  (Hcolon : val colon = ":")
  (Hlast : nonempty h b = false ->
           forall v, last_opt (l :: VTok e :: rest) = Some v -> text_is v ":" = false)
  (Hps : chain_ok ps = true) (He : val e = "=") (Hl : bad_lvalue l = true) :
  decl_stmt ev h s b = inl (TokenError "Expected name or string before '='" (tstart e)).
Proof.
  assert (Hraw' : strip_values raw =
    Some ((chain ps ++ l :: VTok e :: rest) ++ (if nonempty h b then [VTok colon] else [])))
    by (rewrite Hraw, <- app_assoc; reflexivity).
  rewrite (decl_stmt_body h s b raw _ colon Hs Hraw' Hcolon).
  2:{ intros Hb. rewrite last_opt_app by discriminate.
      eexists; split; [reflexivity|]. apply (Hlast Hb). reflexivity. }
  unfold decl_body.
  rewrite (names_loop_bad ps [] rest l e [] _ Hps He Hl); [reflexivity|].
  rewrite length_app, length_chain. simpl. lia.
Qed.

Lemma names_loop_raise (ps : list (token * token)) :
  forall (pre rest : list value) (n e : token) (names : list dname) (fuel : nat),
  chain_ok ps = true -> val e = "=" -> kind n = STRING -> ev (val n) = true ->
  List.length ps < fuel ->
  names_loop ev fuel (pre ++ chain ps ++ VTok n :: VTok e :: rest) (List.length pre + 2) names =
  inl PyCrash.
Proof.
  induction ps as [|[n' e'] ps IH]; intros pre rest n e names fuel Hok He Hn Hev Hf.
  - destruct fuel as [|f]; [simpl in Hf; lia|]. simpl chain. rewrite app_nil_l.
    cbn [names_loop].
    assert (Hlen : Nat.leb (List.length pre + 2)
                     (List.length (pre ++ VTok n :: VTok e :: rest)) = true).
    { apply Nat.leb_le. rewrite length_app. simpl. lia. }
    rewrite Hlen.
    replace (List.length pre + 2 - 1) with (List.length pre + 1) by lia.
    replace (List.length pre + 2 - 2) with (List.length pre) by lia.
    destruct (nth_pair pre rest (VTok n) (VTok e)) as [N1 N2]. rewrite N1, N2.
    rewrite He. simpl. rewrite Hn. simpl. now rewrite Hev.
  - simpl in Hok. apply andb_prop in Hok as [Hp Hok]. apply andb_prop in Hp as [Hk He'].
    apply String.eqb_eq in He'.
    destruct fuel as [|f]; [simpl in Hf; lia|]. simpl in Hf.
    change (chain ((n', e') :: ps)) with (VTok n' :: VTok e' :: chain ps).
    cbn [app]. rewrite names_loop_step by assumption.
    apply IH; (assumption || lia).
Qed.

(** A [STRING] before an ['='] is read with [eval]: when [eval] raises
    on its text (an invalid escape such as ['\xZZ'], for instance), so
    does [parse_declarations], with that exception. *)
Theorem decl_eval_raises (h : heap) (s b : nat) (raw : list value)
  (ps : list (token * token)) (n e : token) (rest : list value) (colon : token)
  (Hs : nth_error h s = Some raw)
  (Hraw : strip_values raw =
          Some (chain ps ++ VTok n :: VTok e :: rest ++
                (if nonempty h b then [VTok colon] else [])))
  (Hcolon : val colon = ":")
  (Hlast : nonempty h b = false ->
           forall v, last_opt (VTok n :: VTok e :: rest) = Some v -> text_is v ":" = false)
  (Hps : chain_ok ps = true) (He : val e = "=") (Hn : kind n = STRING)
  (Hev : ev (val n) = true) :
  decl_stmt ev h s b = inl PyCrash.
Proof.
  assert (Hraw' : strip_values raw =
    Some ((chain ps ++ VTok n :: VTok e :: rest) ++
          (if nonempty h b then [VTok colon] else [])))
    by (rewrite Hraw, <- app_assoc; reflexivity).
  rewrite (decl_stmt_body h s b raw _ colon Hs Hraw' Hcolon).
  2:{ intros Hb. rewrite last_opt_app by discriminate.
      eexists; split; [reflexivity|]. apply (Hlast Hb). reflexivity. }
  unfold decl_body.
  rewrite (names_loop_raise ps [] rest n e [] _ Hps He Hn Hev); [reflexivity|].
  rewrite length_app, length_chain. simpl. lia.
Qed.

(** After names, an expression is required: when nothing but a ["from"]
    part (or nothing at all) follows the last ['='], "Expected
    expression" is raised at the end of that ['=']. *)
Theorem decl_missing_expr (h : heap) (s b : nat) (raw : list value)
  (ps : list (token * token)) (n e : token) (rest : list value) (colon : token)
  (Hs : nth_error h s = Some raw)
  (Hraw : strip_values raw =
          Some (chain (ps ++ [(n, e)]) ++ rest ++ (if nonempty h b then [VTok colon] else [])))
  (Hcolon : val colon = ":")
  (Hlast : nonempty h b = false -> forall v, last_opt rest = Some v -> text_is v ":" = false)
  (Hps : chain_ok (ps ++ [(n, e)]) = true)
  (Hrest : no_eq_second rest = true)
  (Hexpr : fst (fst (partition_loop [] rest)) = []) :
  decl_stmt ev h s b = inl (TokenError "Expected expression" (tend e)).
Proof.
  rewrite app_assoc in Hraw.
  rewrite (decl_stmt_body h s b raw _ colon Hs Hraw Hcolon).
  2:{ intros Hb. destruct rest as [|x r].
      - rewrite app_nil_r. unfold chain. rewrite flat_map_app. simpl.
        change [VTok n; VTok e] with ([VTok n] ++ [VTok e]).
        rewrite app_assoc, last_opt_snoc.
        eexists; split; [reflexivity|]. simpl.
        unfold chain_ok in Hps.
        rewrite forallb_app in Hps. apply andb_prop in Hps as [_ Hps]. simpl in Hps.
        apply andb_prop in Hps as [Hps _]. apply andb_prop in Hps as [_ Hps].
        apply String.eqb_eq in Hps. now rewrite Hps.
      - rewrite last_opt_app by discriminate.
        eexists; split; [reflexivity|]. apply (Hlast Hb). reflexivity. }
  unfold decl_body. rewrite (names_loop_decl _ rest Hps Hrest).
  cbv iota beta. rewrite skipn_chain.
  destruct (partition_loop [] rest) as [[expr sep] ctx]. simpl in Hexpr. subst expr.
  rewrite map_map, map_app. simpl.
  destruct (map (fun x => lname (fst x)) ps) as [|y ys]; simpl.
  all: unfold chain at 1; rewrite flat_map_app; simpl.
  all: replace (List.length (ps ++ [(n, e)]) + (List.length (ps ++ [(n, e)]) + 0) - 1)
         with (List.length (chain ps) + 1)
         by (rewrite length_chain, length_app; simpl; lia).
  all: destruct (nth_pair (chain ps) rest (VTok n) (VTok e)) as [_ N2].
  all: fold (chain ps); rewrite <- app_assoc; simpl app; rewrite N2; reflexivity.
Qed.

(** A statement whose expression is followed by a bare ["from"] (no
    context after it) and that has no block raises "Expected context or
    ':' after 'from'" at the end of the ["from"]. *)
Theorem decl_from_needs_context (h : heap) (s b : nat) (raw : list value)
  (ps : list (token * token)) (expr : list value) (m : token)
  (Hs : nth_error h s = Some raw)
  (Hraw : strip_values raw = Some (chain ps ++ expr ++ [VTok m]))
  (Hm : val m = "from") (Hb : nonempty h b = false)
  (Hps : chain_ok ps = true)
  (Hfrom : forallb (fun v => negb (text_is v "from")) expr = true)
  (Hrest : no_eq_second (expr ++ [VTok m]) = true)
  (Hexpr : ps <> [] -> expr <> []) :
  decl_stmt ev h s b = inl (TokenError "Expected context or ':' after 'from'" (tend m)).
Proof.
  assert (Hraw' : strip_values raw =
    Some ((chain ps ++ expr ++ [VTok m]) ++ (if nonempty h b then [VTok m] else [])))
    by (rewrite Hb, app_nil_r; exact Hraw).
  assert (Hc : text_is (VTok m) ":" = false) by (simpl; now rewrite Hm).
  unfold decl_stmt. rewrite Hs, Hraw. rewrite app_assoc, last_opt_snoc.
  cbv zeta. rewrite Hc, Hb. cbv iota. rewrite <- app_assoc.
  unfold decl_body. rewrite (names_loop_decl ps _ Hps Hrest).
  cbv iota beta. rewrite skipn_chain.
  rewrite (partition_loop_values [] expr [] (VTok m) Hfrom) by (simpl; now rewrite Hm).
  simpl app. rewrite Hb.
  destruct ps as [|p ps'].
  - simpl. destruct expr; reflexivity.
  - destruct expr as [|x expr]; [exfalso; now apply Hexpr|].
    destruct (map lname (map fst (p :: ps'))); reflexivity.
Qed.

Lemma decls_loop_app (h : heap) (pre : list value) (ds : list decl) (post : list value) :
  Forall2 (fun v d => exists s b, v = VPair s b /\ decl_stmt ev h s b = inr d) pre ds ->
  decls_loop ev h (pre ++ post) =
  let '(ds', e) := decls_loop ev h post in (ds ++ ds', e).
Proof.
  induction 1 as [|v d pre ds (s & b & -> & Hd) _ IH]; simpl.
  - destruct (decls_loop ev h post); reflexivity.
  - rewrite Hd, IH. destruct (decls_loop ev h post); reflexivity.
Qed.

(** A statement made only of whitespace tokens (for instance a comment
    line at the end of the input, which [parse_block] keeps as a
    statement when it reaches the [ENDMARKER]) stops
    [parse_declarations] with an [IndexError] ([stmt[-1]] of an empty
    list), after the tuples of the statements before it. *)
Theorem declarations_stop_at_blank_statement (h : heap) (r : nat)
  (pre : list value) (ds : list decl) (s b : nat) (ts : list token) (post : list value)
  (Hr : nth_error h r = Some (pre ++ VPair s b :: post))
  (Hpre : Forall2 (fun v d => exists s b, v = VPair s b /\ decl_stmt ev h s b = inr d) pre ds)
  (Hs : nth_error h s = Some (map VTok ts))
  (Hws : forallb (fun t => in_WHITESPACE (kind t)) ts = true) :
  parse_declarations ev h r = (ds, Some PyCrash).
Proof.
  unfold parse_declarations. rewrite Hr, (decls_loop_app h pre ds _ Hpre).
  assert (Hst : strip_values (map VTok ts) = Some []).
  { clear Hs. induction ts as [|t ts IH]; [reflexivity|].
    simpl in Hws |- *. apply andb_prop in Hws as [Ht Hts]. rewrite Ht. exact (IH Hts). }
  simpl. unfold decl_stmt. rewrite Hs, Hst. simpl. now rewrite app_nil_r.
Qed.

End Facts.

(** Sources for the examples below. *)
Definition colon_toks : list token :=
  [ Tok NAME "x" (1,0) (1,1) "x:";
    Tok OP ":" (1,1) (1,2) "x:";
    Tok NEWLINE Scanned.nl (1,2) (1,3) "x:";
    Tok ENDMARKER "" (2,0) (2,0) "" ].

Definition block_toks : list token :=
  [ Tok NAME "x" (1,0) (1,1) "x";
    Tok NEWLINE Scanned.nl (1,1) (1,2) "x";
    Tok INDENT "  " (2,0) (2,2) "  y";
    Tok NAME "y" (2,2) (2,3) "  y";
    Tok NEWLINE Scanned.nl (2,3) (2,4) "  y";
    Tok DEDENT "" (3,0) (3,0) "";
    Tok ENDMARKER "" (3,0) (3,0) "" ].

Definition badname_toks : list token :=
  [ Tok NAME "x" (1,0) (1,1) "x = 1 = y";
    Tok OP "=" (1,2) (1,3) "x = 1 = y";
    Tok NUMBER "1" (1,4) (1,5) "x = 1 = y";
    Tok OP "=" (1,6) (1,7) "x = 1 = y";
    Tok NAME "y" (1,8) (1,9) "x = 1 = y";
    Tok NEWLINE Scanned.nl (1,9) (1,10) "x = 1 = y";
    Tok ENDMARKER "" (2,0) (2,0) "" ].

Definition noexpr_toks : list token :=
  [ Tok NAME "x" (1,0) (1,1) "x = from y";
    Tok OP "=" (1,2) (1,3) "x = from y";
    Tok NAME "from" (1,4) (1,8) "x = from y";
    Tok NAME "y" (1,9) (1,10) "x = from y";
    Tok NEWLINE Scanned.nl (1,10) (1,11) "x = from y";
    Tok ENDMARKER "" (2,0) (2,0) "" ].

Definition nocontext_toks : list token :=
  [ Tok NAME "x" (1,0) (1,1) "x = y from";
    Tok OP "=" (1,2) (1,3) "x = y from";
    Tok NAME "y" (1,4) (1,5) "x = y from";
    Tok NAME "from" (1,6) (1,10) "x = y from";
    Tok NEWLINE Scanned.nl (1,10) (1,11) "x = y from";
    Tok ENDMARKER "" (2,0) (2,0) "" ].

(** An evaluator under which every literal of the examples evaluates. *)
Definition eval_ok (lit : string) : bool := false.

Lemma decl_stmt_reads_witness :
  exists h out, parse_block (map Yield Scanned.decl_toks) = POk h out /\
  nth_error h out = Some [VPair 1 2] /\
  decl_stmt eval_ok h 1 2 =
  inr (MkDecl [DName "x"; DEval "'y'"] (map VTok (firstn 3 (skipn 4 Scanned.decl_toks)))
              (Some [VTok (nth 8 Scanned.decl_toks (Tok 0 "" (0,0) (0,0) ""))]) 2).
Proof.
  eexists; eexists. split; [vm_compute; reflexivity|]. split; [vm_compute; reflexivity|].
  set (T := Scanned.decl_toks). set (d := Tok 0 "" (0,0) (0,0) "").
  erewrite (decl_stmt_reads eval_ok _ 1 2 _
             [(nth 0 T d, nth 1 T d); (nth 2 T d, nth 3 T d)]
             (map VTok (firstn 5 (skipn 4 T))) (nth 9 T d));
    [vm_compute; reflexivity | vm_compute; reflexivity | vm_compute; reflexivity
    | reflexivity | intros Hb; vm_compute in Hb; discriminate | reflexivity | reflexivity
    | vm_compute; discriminate | intros; vm_compute; reflexivity].
Defined.

Lemma decl_colon_needs_block_witness :
  exists h out, parse_block (map Yield colon_toks) = POk h out /\
  nth_error h out = Some [VPair 1 2] /\
  decl_stmt eval_ok h 1 2 = inl (TokenError "Expected indented block following ':'" (1,2)).
Proof.
  eexists; eexists. split; [vm_compute; reflexivity|]. split; [vm_compute; reflexivity|].
  eapply (decl_colon_needs_block eval_ok _ 1 2 _ [VTok (nth 0 colon_toks (Tok 0 "" (0,0) (0,0) ""))]
           (nth 1 colon_toks (Tok 0 "" (0,0) (0,0) "")));
    vm_compute; reflexivity.
Defined.

Lemma decl_block_needs_colon_witness :
  exists h out, parse_block (map Yield block_toks) = POk h out /\
  nth_error h out = Some [VPair 1 2] /\
  decl_stmt eval_ok h 1 2 = inl (TokenError "Expected ':' before indented block" (1,1)).
Proof.
  eexists; eexists. split; [vm_compute; reflexivity|]. split; [vm_compute; reflexivity|].
  eapply (decl_block_needs_colon eval_ok _ 1 2 _ [] (VTok (nth 0 block_toks (Tok 0 "" (0,0) (0,0) ""))));
    vm_compute; reflexivity.
Defined.

Lemma decl_bad_name_witness :
  exists h out, parse_block (map Yield badname_toks) = POk h out /\
  nth_error h out = Some [VPair 1 2] /\
  decl_stmt eval_ok h 1 2 = inl (TokenError "Expected name or string before '='" (1,6)).
Proof.
  eexists; eexists. split; [vm_compute; reflexivity|]. split; [vm_compute; reflexivity|].
  set (T := badname_toks). set (d := Tok 0 "" (0,0) (0,0) "").
  eapply (decl_bad_name eval_ok _ 1 2 _ [(nth 0 T d, nth 1 T d)] (VTok (nth 2 T d)) (nth 3 T d)
           [VTok (nth 4 T d)] (Tok OP ":" (0,0) (0,0) ""));
    [vm_compute; reflexivity | vm_compute; reflexivity | vm_compute; reflexivity
    | intros _ v Hv; vm_compute in Hv; injection Hv as <-; reflexivity
    | vm_compute; reflexivity | vm_compute; reflexivity | vm_compute; reflexivity].
Defined.

Lemma decl_missing_expr_witness :
  exists h out, parse_block (map Yield noexpr_toks) = POk h out /\
  nth_error h out = Some [VPair 1 2] /\
  decl_stmt eval_ok h 1 2 = inl (TokenError "Expected expression" (1,3)).
Proof.
  eexists; eexists. split; [vm_compute; reflexivity|]. split; [vm_compute; reflexivity|].
  set (T := noexpr_toks). set (d := Tok 0 "" (0,0) (0,0) "").
  eapply (decl_missing_expr eval_ok _ 1 2 _ [] (nth 0 T d) (nth 1 T d)
           [VTok (nth 2 T d); VTok (nth 3 T d)] (Tok OP ":" (0,0) (0,0) ""));
    [vm_compute; reflexivity | vm_compute; reflexivity | vm_compute; reflexivity
    | intros _ v Hv; vm_compute in Hv; injection Hv as <-; reflexivity
    | vm_compute; reflexivity | vm_compute; reflexivity | vm_compute; reflexivity].
Defined.

Lemma decl_from_needs_context_witness :
  exists h out, parse_block (map Yield nocontext_toks) = POk h out /\
  nth_error h out = Some [VPair 1 2] /\
  decl_stmt eval_ok h 1 2 = inl (TokenError "Expected context or ':' after 'from'" (1,10)).
Proof.
  eexists; eexists. split; [vm_compute; reflexivity|]. split; [vm_compute; reflexivity|].
  set (T := nocontext_toks). set (d := Tok 0 "" (0,0) (0,0) "").
  eapply (decl_from_needs_context eval_ok _ 1 2 _ [(nth 0 T d, nth 1 T d)] [VTok (nth 2 T d)]
           (nth 3 T d));
    [vm_compute; reflexivity | vm_compute; reflexivity | vm_compute; reflexivity
    | vm_compute; reflexivity | vm_compute; reflexivity | vm_compute; reflexivity
    | vm_compute; reflexivity | intros _; discriminate].
Defined.

Definition evalfail_line : string := ("'\xZZ' = 1" ++ Scanned.nl)%string.

Definition evalfail_toks : list token :=
  [ Tok STRING "'\xZZ'" (1,0) (1,6) evalfail_line;
    Tok OP "=" (1,7) (1,8) evalfail_line;
    Tok NUMBER "1" (1,9) (1,10) evalfail_line;
    Tok NEWLINE Scanned.nl (1,10) (1,11) evalfail_line;
    Tok ENDMARKER "" (2,0) (2,0) "" ].

(** An evaluator that raises on the one literal [bad]. *)
Definition eval_fails_on (bad lit : string) : bool := String.eqb lit bad.

Lemma decl_eval_raises_witness :
  exists h out, parse_block (map Yield evalfail_toks) = POk h out /\
  nth_error h out = Some [VPair 1 2] /\
  decl_stmt (eval_fails_on "'\xZZ'") h 1 2 = inl PyCrash.
Proof.
  eexists; eexists. split; [vm_compute; reflexivity|]. split; [vm_compute; reflexivity|].
  set (T := evalfail_toks). set (d := Tok 0 "" (0,0) (0,0) "").
  eapply (decl_eval_raises (eval_fails_on "'\xZZ'") _ 1 2 _ [] (nth 0 T d) (nth 1 T d)
           [VTok (nth 2 T d)] (Tok OP ":" (0,0) (0,0) ""));
    [vm_compute; reflexivity | vm_compute; reflexivity | vm_compute; reflexivity
    | intros _ v Hv; vm_compute in Hv; injection Hv as <-; reflexivity
    | vm_compute; reflexivity | vm_compute; reflexivity | vm_compute; reflexivity
    | vm_compute; reflexivity].
Defined.

Lemma declarations_stop_at_blank_statement_witness :
  exists h out, parse_block (map Yield Scanned.comment_toks) = POk h out /\
  parse_declarations eval_ok h out =
    ([MkDecl [DName "x"] [VTok (nth 2 Scanned.comment_toks (Tok 0 "" (0,0) (0,0) ""))] None 2],
     Some PyCrash).
Proof.
  eexists; eexists. split; [vm_compute; reflexivity|].
  set (T := Scanned.comment_toks). set (d := Tok 0 "" (0,0) (0,0) "").
  apply (declarations_stop_at_blank_statement eval_ok _ _ [VPair 1 2] _ 3 4
           [nth 4 T d; nth 5 T d] []);
    [vm_compute; reflexivity | | vm_compute; reflexivity | vm_compute; reflexivity].
  constructor; [|constructor]. exists 1, 2. split; [reflexivity|]. vm_compute; reflexivity.
Defined.

End DeclFacts.

Module DetokLine.
Import Detok.

(** The tokens [ts] lie on row [r] of the physical line [ln], in order,
    each starting at or after the end [pe] of the one before it, each
    with the text [ln[sc:ec]] it covers, none of kind [SUBEXPR]; the
    result is the end column of the last one. *)
Fixpoint line_rest (r : nat) (ln : string) (pe : nat) (ts : list token) : option nat :=
  match ts with
  | [] => Some pe
  | t :: ts' =>
      let '(sr, sc) := tstart t in
      let '(er, ec) := tend t in
      if Nat.eqb sr r && Nat.eqb er r && Nat.leb pe sc && Nat.leb sc ec &&
         String.eqb (tline t) ln && String.eqb (val t) (slice ln sc ec) &&
         negb (Nat.eqb (kind t) SUBEXPR)
      then line_rest r ln ec ts'
      else None
  end.

Lemma sapp_assoc (a b c : string) : ((a ++ b) ++ c)%string = (a ++ b ++ c)%string.
Proof. induction a as [|x a IH]; simpl; [reflexivity|]. now rewrite IH. Qed.

Lemma sapp_nil_r (a : string) : (a ++ "")%string = a.
Proof. induction a as [|x a IH]; simpl; [reflexivity|]. now rewrite IH. Qed.

Lemma slice_empty (s : string) (a : nat) : slice s a a = "".
Proof.
  unfold slice. rewrite Nat.sub_diag. revert a.
  induction s as [|x s IH]; intros [|a]; simpl; auto.
Qed.

Lemma concat_snoc (l : list string) (x : string) :
  String.concat "" (l ++ [x]) = (String.concat "" l ++ x)%string.
Proof.
  induction l as [|y l IH]; [reflexivity|].
  simpl app. destruct l as [|z l].
  - reflexivity.
  - change (String.concat "" (y :: (z :: l) ++ [x]))
      with (y ++ "" ++ String.concat "" ((z :: l) ++ [x]))%string.
    rewrite IH.
    change (String.concat "" (y :: z :: l)) with (y ++ "" ++ String.concat "" (z :: l))%string.
    now rewrite !sapp_assoc.
Qed.

Lemma substring_split (s : string) : forall a m n,
  substring a (m + n) s = (substring a m s ++ substring (a + m) n s)%string.
Proof.
  induction s as [|c s IH]; intros a m n.
  - destruct a, m, n; reflexivity.
  - destruct a as [|a].
    + destruct m as [|m]; simpl.
      * destruct n; reflexivity.
      * f_equal. exact (IH 0 m n).
    + simpl. exact (IH a m n).
Qed.

Lemma slice_join (s : string) (a b c : nat) :
  a <= b -> b <= c -> (slice s a b ++ slice s b c)%string = slice s a c.
Proof.
  intros Hab Hbc. unfold slice.
  replace (c - a) with ((b - a) + (c - b)) by lia.
  rewrite substring_split. do 2 f_equal. lia.
Qed.

Lemma line_rest_mono (r : nat) (ln : string) (ts : list token) :
  forall pe e, line_rest r ln pe ts = Some e -> pe <= e.
Proof.
  induction ts as [|t ts IH]; intros pe e H; simpl in H.
  - injection H as <-. lia.
  - destruct t as [tok v [sr sc] [er ec] tl]. simpl in H.
    destruct (Nat.eqb sr r && Nat.eqb er r && Nat.leb pe sc && Nat.leb sc ec &&
              String.eqb tl ln && String.eqb v (slice ln sc ec) &&
              negb (Nat.eqb tok SUBEXPR)) eqn:E; [|discriminate].
    apply IH in H.
    rewrite !andb_true_iff in E. destruct E as ((((((_ & _) & E1) & E2) & _) & _) & _).
    apply Nat.leb_le in E1, E2. lia.
Qed.

Lemma line_rest_flatten (r : nat) (ln : string) (ts : list token) :
  forall pe e, line_rest r ln pe ts = Some e -> flatten_stmt (map STok ts) = map inl ts.
Proof.
  induction ts as [|t ts IH]; intros pe e H; [reflexivity|]. simpl in H.
  destruct t as [tok v [sr sc] [er ec] tl]. simpl in H.
  destruct (Nat.eqb sr r && Nat.eqb er r && Nat.leb pe sc && Nat.leb sc ec &&
            String.eqb tl ln && String.eqb v (slice ln sc ec) &&
            negb (Nat.eqb tok SUBEXPR)) eqn:E; [|discriminate].
  apply andb_prop in E as [_ Hk]. apply negb_true_iff in Hk.
  unfold flatten_stmt in *. simpl. rewrite Hk. simpl. f_equal. eapply IH; eassumption.
Qed.

(** A token after the first one of its line: the whitespace between it
    and the token before it, then its text. *)
Lemma dstep_same_line (k r : nat) (st : dstate) (tok : nat) (v : string)
  (sc ec : nat) (ln : string) :
  lr st = r -> 0 < lc st -> lc st <= sc ->
  lr (dstep k st (Tok tok v (r, sc) (r, ec) ln)) = r /\
  lc (dstep k st (Tok tok v (r, sc) (r, ec) ln)) = ec /\
  String.concat "" (out (dstep k st (Tok tok v (r, sc) (r, ec) ln))) =
  (String.concat "" (out st) ++ slice ln (lc st) sc ++ v)%string.
Proof.
  intros Hr Hc Hle. destruct st as [o l c lst bi]. simpl in *. subst l.
  unfold dstep.
  assert (H0 : (if Nat.eqb r 0 then r else r) = r) by (destruct (Nat.eqb r 0); reflexivity).
  cbv zeta. rewrite H0, Nat.ltb_irrefl.
  assert (Hc0 : Nat.eqb c 0 = false) by (apply Nat.eqb_neq; lia).
  rewrite Hc0. simpl andb. cbv iota.
  destruct (Nat.ltb c sc) eqn:Ecs; destruct (String.eqb v "") eqn:Ev; simpl;
    (split; [reflexivity|split; [reflexivity|]]).
  - apply String.eqb_eq in Ev. subst v. now rewrite concat_snoc, sapp_nil_r.
  - now rewrite !concat_snoc, sapp_assoc.
  - apply Nat.ltb_ge in Ecs. replace sc with c by lia. rewrite slice_empty.
    apply String.eqb_eq in Ev. subst v. now rewrite sapp_nil_r.
  - apply Nat.ltb_ge in Ecs. replace sc with c by lia. rewrite slice_empty.
    now rewrite concat_snoc.
Qed.
Lemma dloop_line (k r : nat) (ln : string) (ts : list token) :
  forall st pe e, lr st = r -> lc st = pe -> 0 < pe -> line_rest r ln pe ts = Some e ->
  exists st', dloop k st (map inl ts) = Some st' /\
  String.concat "" (out st') = (String.concat "" (out st) ++ slice ln pe e)%string.
Proof.
  induction ts as [|t ts IH]; intros st pe e Hr Hc Hp H; simpl in H.
  - injection H as <-. exists st. split; [reflexivity|]. now rewrite slice_empty, sapp_nil_r.
  - destruct t as [tok v [sr sc] [er ec] tl]. simpl in H.
    destruct (Nat.eqb sr r && Nat.eqb er r && Nat.leb pe sc && Nat.leb sc ec &&
              String.eqb tl ln && String.eqb v (slice ln sc ec) &&
              negb (Nat.eqb tok SUBEXPR)) eqn:E; [|discriminate].
    rewrite !andb_true_iff in E. destruct E as ((((((E1 & E2) & E3) & E4) & E5) & E6) & _).
    apply Nat.eqb_eq in E1, E2. apply Nat.leb_le in E3, E4.
    apply String.eqb_eq in E5, E6. subst sr er tl v.
    destruct (dstep_same_line k r st tok (slice ln sc ec) sc ec ln Hr ltac:(lia) ltac:(lia))
      as (Hr' & Hc' & Ho).
    destruct (IH _ ec e Hr' Hc' ltac:(lia) H) as (st' & Hl & Ho').
    exists st'. split; [exact Hl|].
    rewrite Ho', Ho, Hc, !sapp_assoc. f_equal.
    pose proof (line_rest_mono r ln ts ec e H).
    rewrite slice_join by lia. apply slice_join; lia.
Qed.

(** The first token of the output: [lr = lr or sr] takes its row, and,
    not being an [INDENT], it sets [baseindent] (or not) and is written
    after the extra indent. *)
Lemma dstep_first (k : nat) (tok : nat) (v : string) (r sc ec : nat) (ln : string) :
  Nat.eqb tok INDENT = false ->
  existsb (Nat.eqb tok) [DEDENT; ENDMARKER; NL; NEWLINE] = false ->
  lr (dstep k dinit (Tok tok v (r, sc) (r, ec) ln)) = r /\
  lc (dstep k dinit (Tok tok v (r, sc) (r, ec) ln)) = ec /\
  String.concat "" (out (dstep k dinit (Tok tok v (r, sc) (r, ec) ln))) =
  (spaces k ++ v)%string.
Proof.
  intros Hi Hx. unfold dstep, dinit. cbv zeta. simpl lr. simpl lc. simpl out.
  rewrite Nat.ltb_irrefl. cbv iota zeta. rewrite Hi. simpl andb. simpl in Hx. rewrite Hx.
  cbv iota beta.
  destruct (negb (in_WHITESPACE tok)); destruct (Nat.eqb k 0) eqn:Ek;
    destruct (String.eqb v "") eqn:Ev; simpl;
    (split; [reflexivity|split; [reflexivity|]]);
    try (apply Nat.eqb_eq in Ek; subst k); try (apply String.eqb_eq in Ev; subst v);
    simpl; rewrite ?sapp_nil_r; reflexivity.
Qed.
(** Tokens of one physical line, in order, each carrying the text it
    covers, are written back as that line from the start of the first
    token to the end of the last one, the whitespace between tokens kept
    as it is, after [indent] spaces: the first token is not an
    [INDENT] (skipped at the start of a line), nor a [DEDENT],
    [ENDMARKER], [NL] or [NEWLINE] (not given the extra indent), and it
    ends after column 0. *)
Theorem detokenize_one_line (k : nat) (t : token) (ts : list token)
  (r c0 e : nat) (ln : string)
  (Hst : tstart t = (r, c0)) (Hend : 0 < snd (tend t))
  (Hk : existsb (Nat.eqb (kind t)) [INDENT; DEDENT; ENDMARKER; NL; NEWLINE] = false)
  (Hline : line_rest r ln c0 (t :: ts) = Some e) :
  detokenize (map STok (t :: ts)) k = Some (spaces k ++ slice ln c0 e)%string.
Proof.
  unfold detokenize. rewrite (line_rest_flatten r ln (t :: ts) c0 e Hline). simpl map.
  destruct t as [tok v [sr sc] [er ec] tl]. simpl in Hst, Hend, Hk. injection Hst as -> ->.
  apply orb_false_iff in Hk as [Hi Hx].
  simpl in Hline.
  destruct (Nat.eqb r r && Nat.eqb er r && Nat.leb c0 c0 && Nat.leb c0 ec &&
            String.eqb tl ln && String.eqb v (slice ln c0 ec) &&
            negb (Nat.eqb tok SUBEXPR)) eqn:E; [|discriminate].
  rewrite !andb_true_iff in E. destruct E as ((((((_ & E2) & _) & E4) & E5) & E6) & _).
  apply Nat.eqb_eq in E2. apply Nat.leb_le in E4.
  apply String.eqb_eq in E5, E6. subst er tl v.
  cbn [dloop].
  destruct (dstep_first k tok (slice ln c0 ec) r c0 ec ln Hi Hx) as (Hr & Hc & Ho).
  destruct (dloop_line k r ln ts _ ec e Hr Hc Hend Hline) as (st' & -> & Ho').
  rewrite Ho', Ho, sapp_assoc. f_equal. f_equal.
  pose proof (line_rest_mono r ln ts ec e Hline).
  apply slice_join; lia.
Qed.

Definition W1 : string := ("x = f(y)  # note" ++ Scanned.nl)%string.

(** The scanner's tokens for ["x = f(y)  # note\n"]. *)
Definition one_line_toks : list token :=
  [ Tok NAME "x" (1,0) (1,1) W1;
    Tok OP "=" (1,2) (1,3) W1;
    Tok NAME "f" (1,4) (1,5) W1;
    Tok OP "(" (1,5) (1,6) W1;
    Tok NAME "y" (1,6) (1,7) W1;
    Tok OP ")" (1,7) (1,8) W1;
    Tok COMMENT "# note" (1,10) (1,16) W1;
    Tok NEWLINE Scanned.nl (1,16) (1,17) W1 ].

Lemma detokenize_one_line_witness :
  detokenize (map STok one_line_toks) 2 = Some ("  " ++ W1)%string.
Proof.
  apply (detokenize_one_line 2 (hd (Tok 0 "" (0,0) (0,0) "") one_line_toks)
           (tl one_line_toks) 1 0 17 W1); vm_compute; reflexivity.
Defined.
End DetokLine.

Module DetokText.
Import Detok DetokLine.




















End DetokText.
